(** * Control-plane core of the AIStore cluster: cluster map, map owner,
      listener bus, create-bucket transaction and notification registry.

    A shallow embedding of [ais/clustermap.go] (smapX, smapOwner, smapLis),
    of the create-bucket transaction ([proxyrunner.createBucket]) and of the
    notification receiver ([notifs], [notifListenerBase]).

    Conventions of the embedding:
    - Go pointers to node descriptors are modelled by value; where the code
      writes through a pointer that is also stored in a map ([nsi.Flags = ...])
      the stored entry is updated as well, and so is the primary when
      [Primary] is that object ([PrimaryInMap]).
    - [int64] counters are integers with two's-complement wrap-around.
    - a failed [cmn.Assert] and a nil dereference are a [Panic] outcome.
    - Go leaves the order of [range] over a map unspecified: every loop over a
      map takes its order from an enumeration function [range], a parameter
      of the development. *)

From stdpp Require Import gmap strings list fin_maps.
From Stdlib Require Import ZArith NArith Lia.

Open Scope Z_scope.

(** ** Go runtime conventions *)

Inductive outcome (A : Type) : Type :=
| Done (a : A)
| Panic (msg : string).
Arguments Done {A} a.
Arguments Panic {A} msg.

#[global] Instance outcome_ret : MRet outcome := λ A a, Done a.
#[global] Instance outcome_bind : MBind outcome := λ A B k o,
  match o with
  | Done a => k a
  | Panic msg => Panic msg
  end.

(** Modelled from the spec: [cmn.Assert] and [cmn.Assertf] (package [cmn] is
    not part of the sources at hand) make the call fail when the condition is
    false ("Fails with duplicate-id if the id collides across roles"); the
    failure is a panic that carries the message of the assertion. *)
Definition assert (cond : bool) (msg : string) : outcome unit :=
  if cond then Done tt else Panic msg.

(** [int64] arithmetic: the value of [z] after truncation to 64 bits. *)
Definition wrap64 (z : Z) : Z := (z + 2 ^ 63) mod 2 ^ 64 - 2 ^ 63.
Definition incr64 (z : Z) : Z := wrap64 (z + 1).
Definition int64_max : Z := 2 ^ 63 - 1.

(** ** Package [cluster]: node descriptors and the plain cluster map *)

Module cluster.

(** Modelled from the spec: the role of a node, "proxy | target". *)
Inductive role := Proxy | Target.

#[global] Instance role_eq_dec : EqDecision role.
Proof. solve_decision. Defined.

(** Modelled from the spec: [cluster.SnodeFlags] is declared in package
    [cluster], which is not part of the sources at hand; the spec describes
    "a bitset of flags (non-electable, in-IC, maintenance,
    decommissioning)". The bitset is an unsigned integer; [Set] is
    bitwise or, [Clear] is and-not, [IsSet] tests all bits of the mask and
    [IsAnySet] at least one. *)
Definition SnodeFlags := N.
Definition SnodeNonElectable : SnodeFlags := 1%N.
Definition SnodeIC : SnodeFlags := 2%N.
Definition SnodeMaintenance : SnodeFlags := 4%N.
Definition SnodeDecomission : SnodeFlags := 8%N.
Definition SnodeMaintenanceMask : SnodeFlags :=
  N.lor SnodeMaintenance SnodeDecomission.

Definition Set_ (f flags : SnodeFlags) : SnodeFlags := N.lor f flags.
Definition Clear (f flags : SnodeFlags) : SnodeFlags := N.ldiff f flags.
Definition IsSet (f flags : SnodeFlags) : bool := N.eqb (N.land f flags) flags.
Definition IsAnySet (f flags : SnodeFlags) : bool :=
  negb (N.eqb (N.land f flags) 0%N).

(** Modelled from the spec: the node descriptor [cluster.Snode], "a stable
    identifier string, a role, two network endpoints (intra-control,
    public), and a bitset of flags". *)
Record Snode := mkSnode {
  DaemonID : string;
  DaemonType : role;
  PublicNet : string;
  IntraControlNet : string;
  Flags : SnodeFlags
}.

#[global] Instance Snode_eq_dec : EqDecision Snode.
Proof. solve_decision. Defined.

(** Modelled from the spec: the accessors of [cluster.Snode]. *)
Definition ID (si : Snode) : string := DaemonID si.
Definition IsProxy (si : Snode) : bool := bool_decide (DaemonType si = Proxy).
Definition IsTarget (si : Snode) : bool := bool_decide (DaemonType si = Target).
Definition isIC (si : Snode) : bool := IsSet (Flags si) SnodeIC.
Definition NonElectable (si : Snode) : bool := IsSet (Flags si) SnodeNonElectable.
Definition withFlags (f : SnodeFlags) (si : Snode) : Snode :=
  mkSnode (DaemonID si) (DaemonType si) (PublicNet si) (IntraControlNet si) f.

Abbreviation NodeMap := (gmap string Snode).

(** Modelled from the spec: the cluster map [cluster.Smap] with its
    version, uuid, creation time, the two node maps and the primary.

    [Primary] is a pointer in the code. Its target is kept by value, and
    [PrimaryInMap] records the one fact about the pointer that the code
    can observe: whether it is the very object that the node map of its
    role holds under its id (as it is once [deepCopy] or [staffIC] has
    looked the primary up in the map), so that a write to the flags of that
    object is seen through [Primary] as well. *)
Record Smap := mkSmap {
  Version : Z;
  UUID : string;
  CreationTime : string;
  Tmap : NodeMap;
  Pmap : NodeMap;
  Primary : option Snode;
  PrimaryInMap : bool
}.

Definition withVersion (v : Z) (m : Smap) : Smap :=
  mkSmap v (UUID m) (CreationTime m) (Tmap m) (Pmap m) (Primary m) (PrimaryInMap m).
Definition withTmap (t : NodeMap) (m : Smap) : Smap :=
  mkSmap (Version m) (UUID m) (CreationTime m) t (Pmap m) (Primary m) (PrimaryInMap m).
Definition withPmap (p : NodeMap) (m : Smap) : Smap :=
  mkSmap (Version m) (UUID m) (CreationTime m) (Tmap m) p (Primary m) (PrimaryInMap m).
(** [m.Primary = p] for a descriptor [p] that has just been looked up in the
    maps of [m]: from here on the primary is the stored object. *)
Definition withPrimary (p : option Snode) (m : Smap) : Smap :=
  mkSmap (Version m) (UUID m) (CreationTime m) (Tmap m) (Pmap m) p true.
Definition withUUID (u c : string) (m : Smap) : Smap :=
  mkSmap (Version m) u c (Tmap m) (Pmap m) (Primary m) (PrimaryInMap m).

(** Modelled from the spec: the lookups of [cluster.Smap], "mapping from
    id to node descriptor for proxies (Pmap) and targets (Tmap)"; a nil
    result is [None]. [GetNode] looks among the targets first. *)
Definition GetTarget (m : Smap) (id : string) : option Snode := Tmap m !! id.
Definition GetProxy (m : Smap) (id : string) : option Snode := Pmap m !! id.
Definition GetNode (m : Smap) (id : string) : option Snode :=
  match GetTarget m id with
  | Some tsi => Some tsi
  | None => GetProxy m id
  end.

(** Modelled from the spec: "IC: the subset of proxies designated as the
    information council; size ≤ defaultICSize (suggested 3)". *)
Definition DefaultICSize : Z := 3.
Definition IsIC (m : Smap) (psi : Snode) : bool :=
  match GetProxy m (ID psi) with
  | Some node => isIC node
  | None => false
  end.
Definition ICCount (m : Smap) : Z :=
  Z.of_nat (size (filter (λ kv, isIC kv.2 = true) (Pmap m))).
Definition CountProxies (m : Smap) : Z := Z.of_nat (size (Pmap m)).
Definition CountTargets (m : Smap) : Z := Z.of_nat (size (Tmap m)).

(** Modelled from the spec: "Two descriptors collide if they share an
    identifier or any endpoint URL"; [sameURL] is the endpoint half of it. *)
Definition sameURL (a b : Snode) : bool :=
  bool_decide (PublicNet a = PublicNet b)
  || bool_decide (IntraControlNet a = IntraControlNet b).

End cluster.

Import cluster.

(** ** [smapX]: the server-side extension of the cluster map *)

Module smapX.

(** [smapX] embeds [cluster.Smap] and adds no field. *)
Abbreviation smapX := Smap.

Inductive error :=
| ErrDuplicateURL (osi nsi : Snode)
| ErrSmapUUIDDiffer.

Section WithRange.

(** The order in which a [range] over a node map visits its entries. *)
Variable range : NodeMap → list (string * Snode).

(** Modelled from the spec: [cluster.Smap.IsDuplicateURL] (package [cluster]
    is not part of the sources at hand) reports a node of the map, other
    than [nsi] itself, that shares an endpoint URL with [nsi]; targets are
    searched before proxies. *)
Definition IsDuplicateURL (m : smapX) (nsi : Snode) : option Snode :=
  head (filter (λ osi, ID osi ≠ ID nsi ∧ sameURL osi nsi = true)
               ((range (Tmap m)).*2 ++ (range (Pmap m)).*2)).

Definition isPresent (m : smapX) (si : Snode) : bool :=
  if IsProxy si then bool_decide (is_Some (GetProxy m (ID si)))
  else bool_decide (is_Some (GetTarget m (ID si))).

(** [isValid] on a possibly nil map. *)
Definition isValid (m : option smapX) : outcome bool :=
  match m with
  | None => Done false
  | Some m =>
    match Primary m with
    | None => Done false
    | Some p =>
      if isPresent m p then
        _ ← assert (negb (String.eqb (ID p) "")) "assertion failed";
        Done true
      else Done false
    end
  end.

Definition containsID (m : smapX) (id : string) : bool :=
  match GetTarget m id with
  | Some _ => true
  | None =>
    match GetProxy m id with
    | Some _ => true
    | None => false
    end
  end.

Definition duplicateID (id : string) : string :=
  "FATAL: duplicate daemon ID: " +:+ id.

Definition addTarget (tsi : Snode) (m : smapX) : outcome smapX :=
  _ ← assert (negb (containsID m (ID tsi))) (duplicateID (ID tsi));
  Done (withVersion (incr64 (Version m)) (withTmap (<[ID tsi := tsi]> (Tmap m)) m)).

Definition addProxy (psi : Snode) (m : smapX) : outcome smapX :=
  _ ← assert (negb (containsID m (ID psi))) (duplicateID (ID psi));
  Done (withVersion (incr64 (Version m)) (withPmap (<[ID psi := psi]> (Pmap m)) m)).

(** Whether the pointer [m.Primary] is the object that the map of role [r]
    holds under [id]. *)
Definition primaryIs (r : role) (id : string) (m : smapX) : bool :=
  PrimaryInMap m
  && match Primary m with
     | Some p => bool_decide (DaemonType p = r ∧ ID p = id)
     | None => false
     end.

(** The entry of role [r] under [id] leaves its map: [m.Primary], when it
    is that object, keeps pointing to it, and is no longer an object of the
    map. *)
Definition unshare (r : role) (id : string) (m : smapX) : smapX :=
  mkSmap (Version m) (UUID m) (CreationTime m) (Tmap m) (Pmap m) (Primary m)
         (PrimaryInMap m && negb (primaryIs r id m)).

Definition delTarget (sid : string) (m : smapX) : outcome smapX :=
  _ ← assert (bool_decide (is_Some (GetTarget m sid))) ("FATAL: target: " +:+ sid +:+ " is not in the map");
  Done (withVersion (incr64 (Version m)) (withTmap (delete sid (Tmap m)) (unshare Target sid m))).

Definition delProxy (pid : string) (m : smapX) : outcome smapX :=
  _ ← assert (bool_decide (is_Some (GetProxy m pid))) ("FATAL: proxy: " +:+ pid +:+ " is not in the map");
  Done (withVersion (incr64 (Version m)) (withPmap (delete pid (Pmap m)) (unshare Proxy pid m))).

(** [putNode] returns [exists] and the updated map. [nsi.Flags = flags] is a
    write through the pointer that [addProxy] has just stored in [Pmap]: the
    stored descriptor changes with it. *)
Definition putNode (nsi : Snode) (flags : SnodeFlags) (m : smapX) : outcome (bool * smapX) :=
  let id := ID nsi in
  if IsProxy nsi then
    '(exists_, m1) ← (if bool_decide (is_Some (GetProxy m id))
                      then m' ← delProxy id m; Done (true, m')
                      else Done (false, m));
    m2 ← addProxy nsi m1;
    Done (exists_, withPmap (alter (withFlags flags) id (Pmap m2)) m2)
  else
    _ ← assert (IsTarget nsi) "assertion failed";
    '(exists_, m1) ← (if bool_decide (is_Some (GetTarget m id))
                      then m' ← delTarget id m; Done (true, m')
                      else Done (false, m));
    m2 ← addTarget nsi m1;
    Done (exists_, m2).

(** [deepCopy]: descriptors are values here, so copying the maps is the
    identity; the primary of the copy is looked up again by id, and is the
    proxy entry of the copy from then on. *)
Definition clone (m : smapX) : outcome smapX :=
  match Primary m with
  | None => Panic "nil pointer dereference"
  | Some p => Done (withPrimary (GetProxy m (ID p)) m)
  end.

Definition handleDuplicateURL (nsi : Snode) (del : bool) (m : smapX)
  : outcome (smapX * option error) :=
  match IsDuplicateURL m nsi with
  | None => Done (m, None)
  | Some osi =>
    if negb del then Done (m, Some (ErrDuplicateURL osi nsi))
    else
      m' ← (if IsProxy osi then delProxy (ID osi) m else delTarget (ID osi) m);
      Done (m', None)
  end.

Fixpoint merge_targets (l : list (string * Snode)) (override : bool)
    (dst : smapX) (added : Z) : outcome (smapX * Z * option error) :=
  match l with
  | [] => Done (dst, added, None)
  | (id, si) :: rest =>
    '(dst1, err) ← handleDuplicateURL si override dst;
    match err with
    | Some e => Done (dst1, added, Some e)
    | None =>
      match Tmap dst1 !! id, Pmap dst1 !! id with
      | None, None =>
        merge_targets rest override (withTmap (<[id := si]> (Tmap dst1)) dst1) (added + 1)
      | _, _ => merge_targets rest override dst1 added
      end
    end
  end.

Fixpoint merge_proxies (l : list (string * Snode)) (override : bool)
    (dst : smapX) (added : Z) : outcome (smapX * Z * option error) :=
  match l with
  | [] => Done (dst, added, None)
  | (id, si) :: rest =>
    '(dst1, err) ← handleDuplicateURL si override dst;
    match err with
    | Some e => Done (dst1, added, Some e)
    | None =>
      match Pmap dst1 !! id, Tmap dst1 !! id with
      | None, None =>
        merge_proxies rest override (withPmap (<[id := si]> (Pmap dst1)) dst1) (added + 1)
      | _, _ => merge_proxies rest override dst1 added
      end
    end
  end.

(** [m.merge(dst, override)] merges the nodes of [m] into [dst]; the result
    is the updated [dst], the number of nodes added and the error. *)
Definition merge (m dst : smapX) (override : bool) : outcome (smapX * Z * option error) :=
  '(dst1, added1, err1) ← merge_targets (range (Tmap m)) override dst 0;
  match err1 with
  | Some e => Done (dst1, added1, Some e)
  | None =>
    '(dst2, added2, err2) ← merge_proxies (range (Pmap m)) override dst1 added1;
    match err2 with
    | Some e => Done (dst2, added2, Some e)
    | None =>
      if negb (String.eqb (UUID m) "") && String.eqb (UUID dst2) ""
      then Done (withUUID (UUID m) (CreationTime m) dst2, added2, None)
      else Done (dst2, added2, None)
    end
  end.

(** [validateUUID] against a possibly nil [newSmap]. *)
Definition validateUUID (m : smapX) (newSmap : option smapX) : option error :=
  match newSmap with
  | None => None
  | Some n =>
    if Z.eqb (Version n) 0 then None
    else if String.eqb (UUID m) "" || String.eqb (UUID n) "" then None
    else if String.eqb (UUID m) (UUID n) then None
    else Some ErrSmapUUIDDiffer
  end.

(** A write to the descriptor [si] of the maps, which makes it [si'], as
    [m.Primary] sees it: the primary changes with it when it is that
    object. *)
Definition writeThrough (si si' : Snode) (m : smapX) : smapX :=
  mkSmap (Version m) (UUID m) (CreationTime m) (Tmap m) (Pmap m)
         (if primaryIs (DaemonType si) (ID si) m then Some si' else Primary m)
         (PrimaryInMap m).

(** [si] is the descriptor that [GetNode] has found in the maps: the write
    [si.Flags = newFlags] changes the object that the map holds, which is
    then stored again under its id. *)
Definition _applyFlags (si : Snode) (newFlags : SnodeFlags) (m : smapX) : smapX :=
  let si' := withFlags newFlags si in
  let m0 := writeThrough si si' m in
  let m' := if IsTarget si' then withTmap (<[ID si' := si']> (Tmap m0)) m0
            else withPmap (<[ID si' := si']> (Pmap m0)) m0 in
  withVersion (incr64 (Version m')) m'.

Definition setNodeFlags (sid : string) (flags : SnodeFlags) (m : smapX) : outcome smapX :=
  match GetNode m sid with
  | None => Panic "assertion failed"
  | Some si =>
    let newFlags := Set_ (Flags si) flags in
    let newFlags := if IsAnySet flags SnodeMaintenanceMask
                    then Clear newFlags SnodeIC else newFlags in
    Done (_applyFlags si newFlags m)
  end.

Definition clearNodeFlags (id : string) (flags : SnodeFlags) (m : smapX) : outcome smapX :=
  match GetNode m id with
  | None => Panic "assertion failed"
  | Some si => Done (_applyFlags si (Clear (Flags si) flags) m)
  end.

Definition addIC (psi : Snode) (m : smapX) : outcome smapX :=
  if IsIC m psi then Done m else setNodeFlags (ID psi) SnodeIC m.

(** The loop of [_fillIC]. The body rewrites only the flags of the entry it
    visits, so the entry [range] announced is read at its current value. *)
Fixpoint _fillIC_loop (keys : list string) (m : smapX) : outcome smapX :=
  match keys with
  | [] => Done m
  | id :: rest =>
    match Pmap m !! id with
    | None => _fillIC_loop rest m
    | Some si =>
      if IsSet (Flags si) SnodeNonElectable then _fillIC_loop rest m
      else
        m' ← addIC si m;
        if Z.leb DefaultICSize (ICCount m') then Done m'
        else _fillIC_loop rest m'
    end
  end.

Definition _fillIC (m : smapX) : outcome smapX :=
  if Z.leb DefaultICSize (ICCount m) then Done m
  else _fillIC_loop (range (Pmap m)).*1 m.

Fixpoint evictIC_loop (entries : list (string * Snode)) (m : smapX) : outcome smapX :=
  match entries with
  | [] => Done m
  | (sid, si) :: rest =>
    match Primary m with
    | None => Panic "nil pointer dereference"
    | Some p =>
      if String.eqb sid (ID p) || negb (isIC si) then evictIC_loop rest m
      else clearNodeFlags sid SnodeIC m
    end
  end.

Definition evictIC (m : smapX) : outcome smapX :=
  if Z.leb (ICCount m) DefaultICSize then Done m
  else evictIC_loop (range (Pmap m)) m.

Definition staffIC (m : smapX) : outcome smapX :=
  match Primary m with
  | None => Panic "nil pointer dereference"
  | Some p =>
    m1 ← addIC p m;
    m3 ← _fillIC (withPrimary (GetNode m1 (ID p)) m1);
    evictIC m3
  end.

End WithRange.

End smapX.

Import smapX.

(** ** [smapLis]: the change-listener bus *)

Module smapLis.

(** [postCh] is the content of the buffered channel, oldest element first;
    the set of registered listeners and the wait group are left out. *)
Record smapLis := mkLis {
  postCh : list Z;
  running : bool
}.

(** [make(chan int64, 8)] *)
Definition postCh_cap : nat := 8.

Definition newSmapListeners : smapLis := mkLis [] false.

(** What a call does to the goroutine that makes it: it returns, or the
    goroutine is parked on a channel operation. *)
Inductive status (A : Type) : Type :=
| Returned (a : A)
| Blocks.
Arguments Returned {A} a.
Arguments Blocks {A}.

(** Go channel send [ch <- v] on a buffered channel of capacity [cap]: the
    value is appended when the buffer has room, otherwise the sender is parked
    until a receiver has made room. *)
Definition chan_send (cap : nat) (buf : list Z) (v : Z) : status (list Z) :=
  if decide (length buf < cap)%nat then Returned (buf ++ [v]) else Blocks.

(** Go channel receive [<-ch] by the worker. *)
Definition chan_recv (buf : list Z) : status (Z * list Z) :=
  match buf with
  | v :: rest => Returned (v, rest)
  | [] => Blocks
  end.

Definition notify (ver : Z) (sls : smapLis) : outcome (status smapLis) :=
  _ ← assert (Z.leb 0 ver) "assertion failed";
  if running sls then
    match chan_send postCh_cap (postCh sls) ver with
    | Returned buf => Done (Returned (mkLis buf (running sls)))
    | Blocks => Done Blocks
    end
  else Done (Returned sls).

(** A sender parked on the full queue: the worker ([run], which receives in
    a loop) takes the oldest version, and the send goes through as soon as
    the queue has room. *)
Fixpoint parked_send (buf : list Z) (v : Z) : list Z :=
  match chan_send postCh_cap buf v with
  | Returned buf' => buf'
  | Blocks =>
    match buf with
    | _ :: rest => parked_send rest v
    | [] => [v]
    end
  end.

(** The bus at the moment [notify] returns. With room in the queue that is
    at once; with a full queue the sender is parked meanwhile, and [notify]
    returns only after the worker has received. *)
Definition notify_returned (ver : Z) (sls : smapLis) : outcome smapLis :=
  st ← notify ver sls;
  match st with
  | Returned sls' => Done sls'
  | Blocks => Done (mkLis (parked_send (postCh sls) ver) (running sls))
  end.

End smapLis.

(** ** [smapOwner]: clone, modify, persist, publish *)

Module smapOwner.

Import smapLis.

Inductive file := ConfigFile | SmapFile.

(** Modelled from the spec: the part of [cmn.Config] that [persist] reads
    and writes ("the cluster config file is rewritten on Smap publish with
    the primary's public URL"). *)
Record Config := mkConfig {
  PrimaryURL : string;
  Confdir : string
}.

(** The two files under the configuration directory. *)
Record disk := mkDisk {
  config_file : option Config;
  smap_file : option smapX
}.

Inductive error :=
| ErrInvalidSmap
| ErrDowngrade (cur new : Z)
| ErrWriteConfig (cause : string)
| ErrPersist (cause : error)
| ErrPre (cause : string).

Inductive event :=
| LogError (msg : string)
| CalledPost (clone : smapX)
| CalledFinal (clone : smapX).

(** The owner, with the global configuration ([cmn.GCO]), the disk and the
    log next to it. The mutex is not modelled: calls are taken one at a
    time. *)
Record smapOwner := mkOwner {
  smap : option smapX;
  listeners : smapLis;
  config : Config;
  dsk : disk;
  events : list event
}.

Definition withSmap (m : option smapX) (r : smapOwner) : smapOwner :=
  mkOwner m (listeners r) (config r) (dsk r) (events r).
Definition withListeners (l : smapLis) (r : smapOwner) : smapOwner :=
  mkOwner (smap r) l (config r) (dsk r) (events r).
Definition withConfig (c : Config) (r : smapOwner) : smapOwner :=
  mkOwner (smap r) (listeners r) c (dsk r) (events r).
Definition withDisk (d : disk) (r : smapOwner) : smapOwner :=
  mkOwner (smap r) (listeners r) (config r) d (events r).
Definition logged (e : event) (r : smapOwner) : smapOwner :=
  mkOwner (smap r) (listeners r) (config r) (dsk r) (events r ++ [e]).

Record smapModifier := mkModifier {
  pre : smapX → smapX * option string;
  post : bool;
  final : bool
}.

Section WithDisk.

(** Modelled from the spec: [jsp.Save] (package [cmn/jsp] is not part of the
    sources at hand) writes a file and can fail ("persistence-error: disk
    write failed"). [save_error f] is the error of the write to [f], [None]
    when the write goes through; a failed write leaves the file as it was. *)
Variable save_error : file → option string.

(** [put] stores the map and hands its version to the bus; it returns when
    [notify] does. *)
Definition put (m : smapX) (r : smapOwner) : outcome smapOwner :=
  let r1 := withSmap (Some m) r in
  l ← notify_returned (Version m) (listeners r1);
  Done (withListeners l r1).

Definition get (r : smapOwner) : option smapX := smap r.

Definition persist (newSmap : smapX) (r : smapOwner) : outcome (smapOwner * option error) :=
  match Primary newSmap with
  | None => Panic "nil pointer dereference"
  | Some p =>
    let origURL := PrimaryURL (config r) in
    let r1 := withConfig (mkConfig (PublicNet p) (Confdir (config r))) r in
    match save_error ConfigFile with
    | Some cause =>
      Done (withConfig (mkConfig origURL (Confdir (config r1))) r1,
            Some (ErrWriteConfig cause))
    | None =>
      let r2 := withDisk (mkDisk (Some (config r1)) (smap_file (dsk r1))) r1 in
      match save_error SmapFile with
      | Some cause => Done (logged (LogError ("error writing Smap: " +:+ cause)) r2, None)
      | None => Done (withDisk (mkDisk (config_file (dsk r2)) (Some newSmap)) r2, None)
      end
    end
  end.

(** [synchronize] returns the owner, the caller's node [si] (whose flags are
    refreshed from the new map) and the error. *)
Definition synchronize (si : Snode) (newSmap : option smapX) (r : smapOwner)
  : outcome (smapOwner * Snode * option error) :=
  valid ← isValid newSmap;
  match valid, newSmap with
  | true, Some new =>
    match smap r with
    | None => Panic "nil pointer dereference"
    | Some cur =>
      let curVer := Version cur in
      let newVer := Version new in
      if Z.leb newVer curVer then
        if Z.ltb newVer curVer then Done (r, si, Some (ErrDowngrade curVer newVer))
        else Done (r, si, None)
      else
        '(r1, err) ← persist new r;
        match err with
        | Some e => Done (r1, si, Some e)
        | None =>
          r2 ← put new r1;
          match GetNode new (ID si) with
          | Some self => Done (r2, withFlags (Flags self) si, None)
          | None => Done (r2, si, None)
          end
        end
    end
  | _, _ => Done (r, si, Some ErrInvalidSmap)
  end.

Definition _runPre (ctx : smapModifier) (r : smapOwner)
  : outcome (smapOwner * option smapX * option error) :=
  match get r with
  | None => Panic "nil pointer dereference"
  | Some cur =>
    c ← clone cur;
    let '(c1, perr) := pre ctx c in
    match perr with
    | Some e => Done (r, Some c1, Some (ErrPre e))
    | None =>
      '(r1, err) ← persist c1 r;
      match err with
      | Some e => Done (r1, None, Some (ErrPersist e))
      | None =>
        r2 ← put c1 r1;
        Done (if post ctx then logged (CalledPost c1) r2 else r2, Some c1, None)
      end
    end
  end.

Definition modify (ctx : smapModifier) (r : smapOwner) : outcome (smapOwner * option error) :=
  '(r1, c, err) ← _runPre ctx r;
  match err, c with
  | Some e, _ => Done (r1, Some e)
  | None, Some c1 => Done (if final ctx then logged (CalledFinal c1) r1 else r1, None)
  | None, None => Done (r1, None)
  end.

End WithDisk.

End smapOwner.

(** ** The create-bucket transaction *)

Module txn.

(** Modelled from the spec: bucket identity "(provider, namespace, name)" and
    the bucket metadata, "a versioned mapping from bucket identity to bucket
    properties"; [bucketMD] and its [add]/[del] are not part of the sources at
    hand. [add] and [del] report whether they changed the map and increment
    the version when they did ("Create bucket ... BMD.version = 1"). *)
Definition Bck : Type := string * string * string.

Record BucketProps := mkProps {
  Mirror_Enabled : bool;
  Mirror_Copies : Z;
  EC_Enabled : bool;
  Renamed : string
}.

Definition DefaultBucketProps : BucketProps := mkProps false 1 false "".

Record bucketMD := mkBMD {
  BMDVersion : Z;
  Buckets : gmap Bck BucketProps
}.

Definition add (bck : Bck) (p : BucketProps) (m : bucketMD) : bool * bucketMD :=
  match Buckets m !! bck with
  | Some _ => (false, m)
  | None => (true, mkBMD (incr64 (BMDVersion m)) (<[bck := p]> (Buckets m)))
  end.

Definition del (bck : Bck) (m : bucketMD) : bool * bucketMD :=
  match Buckets m !! bck with
  | None => (false, m)
  | Some _ => (true, mkBMD (incr64 (BMDVersion m)) (delete bck (Buckets m)))
  end.

(** Modelled from the spec: the phases [cmn.ActBegin], [cmn.ActCommit] and
    [cmn.ActAbort] of a transaction ("phase ∈ {begin, commit, abort}"). *)
Inductive phase := ActBegin | ActCommit | ActAbort.

Inductive error :=
| ErrBucketAlreadyExists (bck : Bck)
| ErrHTTP (tid : string) (status : Z).

(** What leaves the proxy: a POST of a transaction phase to a target, and a
    metasync of a BMD version. *)
Inductive event :=
| Post (tid : string) (ph : phase) (uuid : string)
| Metasync (version : Z).

#[global] Instance phase_eq_dec : EqDecision phase.
Proof. solve_decision. Defined.
#[global] Instance event_eq_dec : EqDecision event.
Proof. solve_decision. Defined.

Record callResult := mkResult {
  si : Snode;
  status : Z;
  err : option error
}.

(** The proxy: the published cluster map and BMD, and the trace of what it
    has sent. Bucket-name locks and the owners' mutexes are not modelled:
    calls are taken one at a time. *)
Record proxyrunner := mkProxy {
  smap : smapX;
  bmd : bucketMD;
  sent : list event
}.

Section WithNetwork.

(** The HTTP status with which target [tid] answers a phase; a call that
    times out or cannot connect is status 0. *)
Variable respond : string → phase → Z.

Variable range : NodeMap → list (string * Snode).

Definition call (ph : phase) (tsi : Snode) : callResult :=
  let st := respond (ID tsi) ph in
  mkResult tsi st
    (if Z.leb 200 st && Z.ltb st 300 then None else Some (ErrHTTP (ID tsi) st)).

(** Modelled from the spec: [bcastPost] (not part of the sources at hand)
    posts the request to every target of the given map ("broadcast to all
    targets via current Smap") and collects one result per target. *)
Definition bcastPost (ph : phase) (uuid : string) (m : smapX) (p : proxyrunner)
  : proxyrunner * list callResult :=
  let targets := (range (Tmap m)).*2 in
  (mkProxy (smap p) (bmd p) (sent p ++ ((λ t, Post (ID t) ph uuid) <$> targets)),
   call ph <$> targets).

(** [for res := range results { if res.err != nil { ... return res.err } }] *)
Definition first_err (results : list callResult) : option error :=
  head (omap err results).

Definition metasync (clone : bucketMD) (p : proxyrunner) : proxyrunner :=
  mkProxy (smap p) (bmd p) (sent p ++ [Metasync (BMDVersion clone)]).

Definition putBMD (clone : bucketMD) (p : proxyrunner) : proxyrunner :=
  mkProxy (smap p) clone (sent p).

Definition undoCreateBucket (bck : Bck) (p : proxyrunner) : proxyrunner :=
  let '(deleted, clone) := del bck (bmd p) in
  if negb deleted then p
  else metasync clone (putBMD clone p).

(** [createBucket]: [uuid] is the transaction id that [prepTxnClient]
    generates; [bckProps] is [bck.Props] (nil or not) and [cloudProps] the
    properties derived from the optional cloud header. *)
Definition createBucket (uuid : string) (bck : Bck) (bckProps cloudProps : option BucketProps)
    (p : proxyrunner) : outcome (proxyrunner * option error) :=
  let bucketProps :=
    match bckProps, cloudProps with
    | Some props, _ => props
    | None, Some props => props
    | None, None => DefaultBucketProps
    end in
  match Buckets (bmd p) !! bck with
  | Some _ => Done (p, Some (ErrBucketAlreadyExists bck))
  | None =>
    let c_smap := smap p in
    let '(p1, results) := bcastPost ActBegin uuid c_smap p in
    match first_err results with
    | Some e =>
      let '(p2, _) := bcastPost ActAbort uuid c_smap p1 in
      Done (p2, Some e)
    | None =>
      let '(added, clone) := add bck bucketProps (bmd p1) in
      _ ← assert added "assertion failed";
      let p2 := metasync clone (putBMD clone p1) in
      let '(p3, results) := bcastPost ActCommit uuid c_smap p2 in
      match first_err results with
      | Some e => Done (undoCreateBucket bck p3, Some e)
      | None => Done (p3, None)
      end
    end
  end.

End WithNetwork.

End txn.

(** ** The notification registry *)

Module notifs.

Inductive error :=
| ErrUnknownNode (tid : string)
| ErrDuplicate (tid : string)
| ErrSource (msg : string)
| ErrNotFoundAt (sid : string)
| ErrAborted (sid : string)
| ErrNodeNotFound (sid : string)
| ErrInvalidMethod
| ErrUnknownType
| ErrUnknownUUID (uuid : string)
| ErrAlreadyFinished (uuid : string).

(** [notifMsg.Ty] enum *)
Definition notifXact : Z := 0.

Definition notifsHousekeepT : Z := 2 * 60 * 1000000000.
Definition notifsRemoveMult : Z := 3.
Definition StatusNotFound : Z := 404.

(** [srcs] maps an expected notifier to its descriptor, or to nil ([None])
    once it has reported. [f] tells whether the callback is set (not nil);
    what the callback does is outside this model, its invocations are
    recorded in the registry. The locks are not modelled. *)
Record notifListenerBase := mkNLB {
  srcs : gmap string (option Snode);
  errs : gmap string error;
  uuid : string;
  f : bool;
  rc : Z;
  ty : Z;
  tfin : Z;
  owned : bool
}.

Definition newNLB (sources : NodeMap) (callback_set : bool) : notifListenerBase :=
  mkNLB (Some <$> sources) ∅ "" callback_set 0 0 0 false.

Definition withSrcs (s : gmap string (option Snode)) (nl : notifListenerBase) :=
  mkNLB s (errs nl) (uuid nl) (f nl) (rc nl) (ty nl) (tfin nl) (owned nl).
Definition withRC (c : Z) (nl : notifListenerBase) :=
  mkNLB (srcs nl) (errs nl) (uuid nl) (f nl) c (ty nl) (tfin nl) (owned nl).
Definition withTfin (t : Z) (nl : notifListenerBase) :=
  mkNLB (srcs nl) (errs nl) (uuid nl) (f nl) (rc nl) (ty nl) t (owned nl).
Definition withUUID (u : string) (nl : notifListenerBase) :=
  mkNLB (srcs nl) (errs nl) u (f nl) (rc nl) (ty nl) (tfin nl) (owned nl).

Definition notifiers (nl : notifListenerBase) := srcs nl.
Definition incRC (nl : notifListenerBase) : notifListenerBase * Z :=
  (withRC (rc nl + 1) nl, rc nl + 1).
Definition finTime (nl : notifListenerBase) : Z := tfin nl.
Definition finished (nl : notifListenerBase) : bool := Z.ltb 0 (finTime nl).
Definition addErr (sid : string) (e : error) (nl : notifListenerBase) :=
  mkNLB (srcs nl) (<[sid := e]> (errs nl)) (uuid nl) (f nl) (rc nl) (ty nl) (tfin nl) (owned nl).

(** The events after which a listener is done. *)
Inductive terminal :=
| PushCompleted
| PullFinished
| PullAborted
| PullNotFound
| NodeLeft.

(** *** [callback], one atomic step at a time

    A call of [callback] is an attempt; [at_] is the point it has reached:
    before the compare-and-swap of [tfin], before the invocation of [f],
    before the store of the timestamp, before the insertion into [fin], or
    returned ([Exit] after the body, [Lost] when the compare-and-swap
    failed). *)
Inductive pc := AtCAS | AtInvoke | AtStore | AtFin | Exit | Lost.

Record attempt := mkAttempt {
  cause : terminal;
  now : Z;
  at_ : pc
}.

Definition moved (a : attempt) (to : pc) : attempt := mkAttempt (cause a) (now a) to.

(** What [callback] reads and writes: the listener's [tfin] and [f], the
    invocations of the callback, and the listener's presence in [fin]. *)
Record cbstate := mkCb {
  cb_tfin : Z;
  cb_f : bool;
  cb_invoked : list terminal;
  cb_fin : bool
}.

Definition callback_step (a : attempt) (s : cbstate) : option (attempt * cbstate) :=
  match at_ a with
  | AtCAS =>
    if Z.eqb (cb_tfin s) 0
    then Some (moved a AtInvoke, mkCb 1 (cb_f s) (cb_invoked s) (cb_fin s))
    else Some (moved a Lost, s)
  | AtInvoke =>
    Some (moved a AtStore,
          if cb_f s then mkCb (cb_tfin s) (cb_f s) (cb_invoked s ++ [cause a]) (cb_fin s)
          else s)
  | AtStore => Some (moved a AtFin, mkCb (now a) (cb_f s) (cb_invoked s) (cb_fin s))
  | AtFin => Some (moved a Exit, mkCb (cb_tfin s) (cb_f s) (cb_invoked s) true)
  | Exit | Lost => None
  end.

(** One call of [callback], run from entry to return without interleaving. *)
Fixpoint callback_run (fuel : nat) (a : attempt) (s : cbstate) : cbstate :=
  match fuel with
  | O => s
  | S k =>
    match callback_step a s with
    | Some (a', s') => callback_run k a' s'
    | None => s
    end
  end.

(** Concurrent calls of [callback] on one listener: any attempt that has not
    returned takes its next step. *)
Inductive step : list attempt * cbstate → list attempt * cbstate → Prop :=
| step_attempt (i : nat) (a a' : attempt) (atts : list attempt) (s s' : cbstate) :
    atts !! i = Some a →
    callback_step a s = Some (a', s') →
    step (atts, s) (<[i := a']> atts, s').

Definition returned (a : attempt) : bool :=
  match at_ a with
  | Exit | Lost => true
  | _ => false
  end.

(** *** The registry

    [nls] holds the listeners, by uuid; the running map [m] and the finished
    map [fin] refer to them by uuid, as the Go maps hold pointers to one
    listener object. [invoked] records the invocations of user callbacks. *)
Record notifs := mkNotifs {
  nls : gmap string notifListenerBase;
  m : gset string;
  fin : gset string;
  invoked : list (string * terminal);
  smapVer : Z
}.

Definition store (nl : notifListenerBase) (n : notifs) : notifs :=
  mkNotifs (<[uuid nl := nl]> (nls n)) (m n) (fin n) (invoked n) (smapVer n).

Definition callback (c : terminal) (now_ : Z) (nl : notifListenerBase) (n : notifs) : notifs :=
  let s := callback_run 4 (mkAttempt c now_ AtCAS)
             (mkCb (tfin nl) (f nl) [] (bool_decide (uuid nl ∈ fin n))) in
  mkNotifs (<[uuid nl := withTfin (cb_tfin s) nl]> (nls n))
           (m n)
           (if cb_fin s then {[uuid nl]} ∪ fin n else fin n)
           (invoked n ++ ((λ t, (uuid nl, t)) <$> cb_invoked s))
           (smapVer n).

Definition add (id : string) (nl : notifListenerBase) (n : notifs) : outcome notifs :=
  _ ← assert (String.eqb (uuid nl) "") "assertion failed";
  Done (mkNotifs (<[id := withUUID id nl]> (nls n)) ({[id]} ∪ m n) (fin n)
                 (invoked n) (smapVer n)).

Definition del (nl : notifListenerBase) (n : notifs) : notifs :=
  mkNotifs (nls n) (m n ∖ {[uuid nl]}) (fin n) (invoked n) (smapVer n).

Definition entry (id : string) (n : notifs) : option notifListenerBase :=
  if bool_decide (id ∈ m n) then nls n !! id
  else if bool_decide (id ∈ fin n) then nls n !! id
  else None.

(** [handleMsg] returns the listener and [(err, status, done)]. *)
Definition handleMsg (nl : notifListenerBase) (tid : string) (srcErr : option error)
  : notifListenerBase * (option error * Z * bool) :=
  match notifiers nl !! tid with
  | None => (nl, (Some (ErrUnknownNode tid), StatusNotFound, false))
  | Some None => (nl, (Some (ErrDuplicate tid), 0, false))
  | Some (Some tsi) =>
    let nl1 := match srcErr with
               | Some e => addErr tid e nl
               | None => nl
               end in
    let nl2 := withSrcs (<[tid := None]> (srcs nl1)) nl1 in
    let '(nl3, rc3) := incRC nl2 in
    (nl3, (None, 0, Z.leb (Z.of_nat (size (srcs nl3))) rc3))
  end.

(** A request to [/v1/notifs] after decoding: the HTTP method, the caller id
    of the header, and the message with the uuid of the statistics it
    carries. *)
Record request := mkRequest {
  method : string;
  tid : string;
  msgTy : Z;
  msgUUID : string;
  msgErr : option error
}.

(** The reply: nothing written (status 200), or an error with the status
    handed to the error writer (0 stands for its default). *)
Inductive response :=
| Replied200
| Invalid (status : Z) (e : error).

Definition handler (now_ : Z) (r : request) (n : notifs) : outcome (notifs * response) :=
  if negb (String.eqb (method r) "POST") then Done (n, Invalid 0 ErrInvalidMethod)
  else if negb (Z.eqb (msgTy r) notifXact) then Done (n, Invalid 0 ErrUnknownType)
  else
    match entry (msgUUID r) n with
    | None => Done (n, Invalid StatusNotFound (ErrUnknownUUID (msgUUID r)))
    | Some nl =>
      if finished nl then Done (n, Invalid 0 (ErrAlreadyFinished (msgUUID r)))
      else
        _ ← assert (Z.eqb (ty nl) (msgTy r)) "assertion failed";
        let '(nl1, (err, status, done)) := handleMsg nl (tid r) (msgErr r) in
        let n1 := store nl1 n in
        let n2 := if done then del nl1 (callback PushCompleted now_ nl1 n1) else n1 in
        match err with
        | Some e => Done (n2, Invalid status e)
        | None => Done (n2, Replied200)
        end
    end.

(** Modelled from the spec: the answer of one notifier to the status query
    of housekeeping ([callResult] and [cmn.BaseXactStatsExt] are not part of
    the sources at hand): the call failed with an HTTP status, or it returned
    statistics, which decode or not and report "finished" and "aborted". *)
Record callResult := mkResult {
  res_si : string;
  res_err : bool;
  res_status : Z;
  res_decoded : bool;
  res_finished : bool;
  res_aborted : bool
}.

(** [hkXact] returns the listener, the error, [done] and the kind of event. *)
Definition hkXact (nl : notifListenerBase) (res : callResult)
  : notifListenerBase * option error * bool * terminal :=
  if negb (res_decoded res) then (nl, None, false, PullFinished)
  else if res_finished res then
    if res_aborted res then
      (addErr (res_si res) (ErrAborted (res_si res)) nl,
       Some (ErrAborted (res_si res)), true, PullAborted)
    else
      let '(nl1, (_, _, done)) := handleMsg nl (res_si res) None in
      (nl1, None, done, PullFinished)
  else (nl, None, false, PullFinished).

(** The loop of [housekeep] over the results of one listener. *)
Fixpoint housekeep_results (now_ : Z) (id : string) (results : list callResult)
    (n : notifs) : notifs :=
  match results with
  | [] => n
  | res :: rest =>
    match nls n !! id with
    | None => n
    | Some nl =>
      let '(nl1, err, done, c) :=
        if negb (res_err res) then hkXact nl res
        else if Z.eqb (res_status res) StatusNotFound then
          (addErr (res_si res) (ErrNotFoundAt (res_si res)) nl,
           Some (ErrNotFoundAt (res_si res)), true, PullNotFound)
        else (nl, None, false, PullNotFound) in
      let n1 := store nl1 n in
      if done then del nl1 (callback c now_ nl1 n1)
      else housekeep_results now_ id rest n1
    end
  end.

Section WithPull.

(** The results of the status broadcast for a listener, and the orders in
    which [range] visits the running map and the sources of a listener. *)
Variable bcastGet : string → list callResult.
Variable range_running : gset string → list string.
Variable range_srcs : gmap string (option Snode) → list (string * option Snode).

(** A finished listener is kept while no more than [3 * 2 min] have passed
    since it finished. *)
Definition kept (now_ : Z) (n : notifs) (id : string) : bool :=
  match nls n !! id with
  | Some nl => negb (Z.ltb (notifsRemoveMult * notifsHousekeepT) (wrap64 (now_ - finTime nl)))
  | None => true
  end.

Definition housekeep (now_ : Z) (n : notifs) : notifs :=
  let n1 := mkNotifs (nls n) (m n) (filter (λ id, kept now_ n id = true) (fin n))
                     (invoked n) (smapVer n) in
  foldl (λ acc id, housekeep_results now_ id (bcastGet id) acc) n1 (range_running (m n1)).

(** [ListenSmapChanged]: a running listener that still waits for a node
    which has left the cluster map fails with node-not-found. *)
Definition departed (smap : smapX) (nl : notifListenerBase) : option string :=
  fst <$> head (filter (λ kv, is_Some kv.2 ∧ GetNode smap kv.1 = None)
                       (range_srcs (notifiers nl))).

Definition ListenSmapChanged (started : bool) (now_ : Z) (smap : smapX) (n : notifs) : notifs :=
  if negb started then n
  else if Z.leb (Version smap) (smapVer n) then n
  else
    let n0 := mkNotifs (nls n) (m n) (fin n) (invoked n) (Version smap) in
    let rem := omap (λ id, nl ← nls n0 !! id; sid ← departed smap nl; Some (id, sid))
                    (range_running (m n0)) in
    let n1 := foldl (λ acc '(id, sid),
                       match nls acc !! id with
                       | None => acc
                       | Some nl =>
                         let nl1 := addErr sid (ErrNodeNotFound sid) nl in
                         callback NodeLeft now_ nl1 (store nl1 acc)
                       end) n0 rem in
    foldl (λ acc '(id, _),
             match nls acc !! id with
             | None => acc
             | Some nl => del nl acc
             end) n1 rem.

End WithPull.

End notifs.

(** ** Vocabulary of the statements and sample data *)

Definition roleMap (r : role) (m : smapX) : NodeMap :=
  match r with
  | Proxy => Pmap m
  | Target => Tmap m
  end.

Definition otherRole (r : role) : role :=
  match r with
  | Proxy => Target
  | Target => Proxy
  end.

(** The descriptor [putNode] leaves in the map: a proxy takes the [flags]
    argument, a target is stored as given. *)
Definition stored (nsi : Snode) (flags : SnodeFlags) : Snode :=
  match DaemonType nsi with
  | Proxy => withFlags flags nsi
  | Target => nsi
  end.

Definition p0 : Snode := mkSnode "p0" Proxy "http://p0:8080" "http://p0:9080" SnodeIC.
Definition p1 : Snode := mkSnode "p1" Proxy "http://p1:8080" "http://p1:9080" 0%N.
Definition t1 : Snode := mkSnode "t1" Target "http://t1:8081" "http://t1:9081" 0%N.
Definition t2 : Snode := mkSnode "t2" Target "http://t2:8081" "http://t2:9081" 0%N.

(** Primary [p0], targets [t1] and [t2], version 10. *)
Definition smap10 : smapX :=
  mkSmap 10 "uuid-A" "t0" (<["t1" := t1]> (<["t2" := t2]> ∅)) (<["p0" := p0]> ∅) (Some p0) true.

(** Two maps of the same cluster (same uuid): [smapA] at version 5 knows only
    the primary, [smapB] at version 1 knows one target more. *)
Definition smapA : smapX :=
  mkSmap 5 "uuid-A" "t0" ∅ (<["p0" := p0]> ∅) (Some p0) true.
Definition smapB : smapX :=
  mkSmap 1 "uuid-A" "t0" (<["t1" := t1]> ∅) (<["p0" := p0]> ∅) (Some p0) true.

(** A proxy [p1] that was put in maintenance (and so lost the IC flag). *)
Definition p1_maint : Snode :=
  mkSnode "p1" Proxy "http://p1:8080" "http://p1:9080" SnodeMaintenance.
Definition smap_maint : smapX :=
  mkSmap 7 "uuid-A" "t0" (<["t1" := t1]> ∅)
         (<["p0" := p0]> (<["p1" := p1_maint]> ∅)) (Some p0) true.

(** An owner that holds [smap10], with both files written and the bus
    worker running. *)
Definition config10 : smapOwner.Config := smapOwner.mkConfig "http://p0:8080" "/etc/ais".
Definition owner10 : smapOwner.smapOwner :=
  smapOwner.mkOwner (Some smap10) (smapLis.mkLis [] true) config10
                    (smapOwner.mkDisk (Some config10) (Some smap10)) [].

(** Disk behaviours: every write succeeds; the configuration file cannot be
    written; the [.ais.smap] snapshot cannot be written. *)
Definition disk_ok : smapOwner.file → option string := λ _, None.
Definition disk_config_fails : smapOwner.file → option string := λ f,
  match f with
  | smapOwner.ConfigFile => Some "EIO"
  | smapOwner.SmapFile => None
  end.
Definition disk_smap_fails : smapOwner.file → option string := λ f,
  match f with
  | smapOwner.ConfigFile => None
  | smapOwner.SmapFile => Some "ENOSPC"
  end.

(** A modifier that joins proxy [p1]. *)
Definition join_p1 : smapOwner.smapModifier :=
  smapOwner.mkModifier
    (λ c, match putNode p1 0%N c with
          | Done (_, c') => (c', None)
          | Panic msg => (c, Some msg)
          end)
    false false.

(** A bus whose worker runs and whose queue holds 8 versions. *)
Definition bus_full : smapLis.smapLis := smapLis.mkLis [1; 2; 3; 4; 5; 6; 7; 8] true.

(** Scenario 2: primary [p0], targets [t1] and [t2], empty BMD; [t2]
    answers 500 to begin (and, here, to abort as well). *)
Definition foo : txn.Bck := ("ais", "", "foo").
Definition proxy0 : txn.proxyrunner := txn.mkProxy smap10 (txn.mkBMD 0 ∅) [].
Definition t2_fails_begin : string → txn.phase → Z := λ tid ph,
  if String.eqb tid "t2" then
    match ph with
    | txn.ActCommit => 200
    | _ => 500
    end
  else 200.

(** Counting the attempts of [callback] on one listener: those that won the
    compare-and-swap, those that have invoked [f], those that have left the
    entry point, those that have run to the end, and the steps an attempt
    still has to take. *)
Definition wins (a : notifs.attempt) : nat :=
  match notifs.at_ a with
  | notifs.AtInvoke | notifs.AtStore | notifs.AtFin | notifs.Exit => 1
  | _ => 0
  end.
Definition invs (a : notifs.attempt) : nat :=
  match notifs.at_ a with
  | notifs.AtStore | notifs.AtFin | notifs.Exit => 1
  | _ => 0
  end.
Definition started (a : notifs.attempt) : nat :=
  match notifs.at_ a with
  | notifs.AtCAS => 0
  | _ => 1
  end.
Definition exited (a : notifs.attempt) : nat :=
  match notifs.at_ a with
  | notifs.Exit => 1
  | _ => 0
  end.
Definition remaining (a : notifs.attempt) : nat :=
  match notifs.at_ a with
  | notifs.AtCAS => 4
  | notifs.AtInvoke => 3
  | notifs.AtStore => 2
  | notifs.AtFin => 1
  | _ => 0
  end.

(** The invariant of concurrent [callback] attempts on a listener whose
    callback is set and whose clock readings are positive. *)
Record callback_inv (x : list notifs.attempt * notifs.cbstate) : Prop := mkCallbackInv {
  inv_now : Forall (λ a, 0 < notifs.now a) x.1;
  inv_f : notifs.cb_f x.2 = true;
  inv_tfin : 0 ≤ notifs.cb_tfin x.2;
  inv_wins : sum_list_with wins x.1 = if decide (notifs.cb_tfin x.2 = 0) then 0%nat else 1%nat;
  inv_invoked : length (notifs.cb_invoked x.2) = sum_list_with invs x.1;
  inv_idle : notifs.cb_tfin x.2 = 0 → sum_list_with started x.1 = 0%nat;
  inv_fin : notifs.cb_fin x.2 = false → sum_list_with exited x.1 = 0%nat
}.

(** A listener on which no event has occurred yet, and events at their
    entry into [callback]. *)
Definition fresh_cb : notifs.cbstate := notifs.mkCb 0 true [] false.
Definition entering (a : notifs.attempt) : Prop :=
  notifs.at_ a = notifs.AtCAS ∧ 0 < notifs.now a.

(** Two terminal events of one listener, a push at clock 100 and a membership
    change at clock 200, and the state after one interleaving of their calls. *)
Definition two_events : list notifs.attempt :=
  [notifs.mkAttempt notifs.PushCompleted 100 notifs.AtCAS;
   notifs.mkAttempt notifs.NodeLeft 200 notifs.AtCAS].
Definition two_events_returned : list notifs.attempt :=
  [notifs.mkAttempt notifs.PushCompleted 100 notifs.Exit;
   notifs.mkAttempt notifs.NodeLeft 200 notifs.Lost].
Definition after_two_events : notifs.cbstate :=
  notifs.mkCb 100 true [notifs.PushCompleted] true.

(** The registry is well formed when every listener is stored under its own
    uuid and its refcount is the number of sources that have reported. *)
Definition rc_counts_reports (nl : notifs.notifListenerBase) : Prop :=
  notifs.rc nl = Z.of_nat (size (filter (λ kv, kv.2 = None) (notifs.srcs nl))).

Definition registry_wf (n : notifs.notifs) : Prop :=
  ∀ id nl, notifs.nls n !! id = Some nl → notifs.uuid nl = id ∧ rc_counts_reports nl.

(** A running listener for ["xact-1"] that expects [t1] and [t2], and the
    completion report of [t1]. *)
Definition nl0 : notifs.notifListenerBase :=
  notifs.withUUID "xact-1" (notifs.newNLB (Tmap smap10) true).
Definition reg0 : notifs.notifs :=
  notifs.mkNotifs (<["xact-1" := nl0]> ∅) {["xact-1"]} ∅ [] 0.
Definition report_t1 : notifs.request :=
  notifs.mkRequest "POST" "t1" notifs.notifXact "xact-1" None.
(** The same listener after [t1] has reported. *)
Definition nl1 : notifs.notifListenerBase :=
  notifs.withRC 1 (notifs.withSrcs (<["t1" := None]> (notifs.srcs nl0)) nl0).
Definition reg1 : notifs.notifs :=
  notifs.mkNotifs (<["xact-1" := nl1]> ∅) {["xact-1"]} ∅ [] 0.

(** The operations that reach the registry: a report posted to
    [/v1/notifs], a round of housekeeping with the answers it pulls, and a
    change of the cluster map. *)
Inductive registry_op :=
| Report (now_ : Z) (r : notifs.request)
| Housekeep (now_ : Z) (bcastGet : string → list notifs.callResult)
| SmapChanged (now_ : Z) (smap : smapX).

Definition op_now (o : registry_op) : Z :=
  match o with
  | Report t _ | Housekeep t _ | SmapChanged t _ => t
  end.

Definition exec (range_running : gset string → list string)
    (range_srcs : gmap string (option Snode) → list (string * option Snode))
    (o : registry_op) (n : notifs.notifs) : outcome notifs.notifs :=
  match o with
  | Report t r => '(n', _) ← notifs.handler t r n; Done n'
  | Housekeep t bcastGet => Done (notifs.housekeep bcastGet range_running t n)
  | SmapChanged t smap =>
    Done (notifs.ListenSmapChanged range_running range_srcs true t smap n)
  end.

Fixpoint exec_all (range_running : gset string → list string)
    (range_srcs : gmap string (option Snode) → list (string * option Snode))
    (ops : list registry_op) (n : notifs.notifs) : outcome notifs.notifs :=
  match ops with
  | [] => Done n
  | o :: rest => n' ← exec range_running range_srcs o n; exec_all range_running range_srcs rest n'
  end.

(** The number of times the callback of listener [id] has been invoked, and
    the invariant of the registry: a listener that has not finished has not
    had its callback invoked, a listener that has finished has had it
    invoked once (when it has one). *)
Definition invocations (id : string) (n : notifs.notifs) : nat :=
  length (filter (λ p, p.1 = id) (notifs.invoked n)).

Definition invoked_once_inv (n : notifs.notifs) : Prop :=
  ∀ id nl, notifs.nls n !! id = Some nl →
    notifs.uuid nl = id ∧ 0 ≤ notifs.tfin nl
    ∧ invocations id n
      = (if bool_decide (notifs.tfin nl = 0) then 0%nat
         else if notifs.f nl then 1%nat else 0%nat).

(** What [callback] looks at in a listener. *)
Definition core (nl : notifs.notifListenerBase) : string * Z * bool :=
  (notifs.uuid nl, notifs.tfin nl, notifs.f nl).

(** ** More of the transaction coordinator: destroy-bucket *)

Module bucket_ops.

Import txn.

Inductive error :=
| ErrBucketDoesNotExist (bck : Bck).

(** [destroyBucket]: the bucket-name lock and the BMD mutex are not modelled
    (calls are taken one at a time). *)
Definition destroyBucket (bck : Bck) (p : proxyrunner) : outcome (proxyrunner * option error) :=
  match Buckets (bmd p) !! bck with
  | None => Done (p, Some (ErrBucketDoesNotExist bck))
  | Some _ =>
    let '(deled, clone) := del bck (bmd p) in
    _ ← assert deled "assertion failed";
    Done (metasync clone (putBMD clone p), None)
  end.

End bucket_ops.

(** The properties [createBucket] gives the new bucket. *)
Definition chosenProps (bckProps cloudProps : option txn.BucketProps) : txn.BucketProps :=
  match bckProps, cloudProps with
  | Some props, _ => props
  | None, Some props => props
  | None, None => txn.DefaultBucketProps
  end.

(** Every target answers 200 to every phase. *)
Definition all_ok : string → txn.phase → Z := λ _ _, 200.

(** Every listener of the registry is stored under its own uuid. *)
Definition uuid_wf (n : notifs.notifs) : Prop :=
  ∀ id nl, notifs.nls n !! id = Some nl → notifs.uuid nl = id.

(** Scenario 4: the cluster map after target [t2] has left, and the two
    events that reach the registry: the report of [t1], then the change of
    the cluster map. *)
Definition smap11_without_t2 : smapX :=
  mkSmap 11 "uuid-A" "t0" (<["t1" := t1]> ∅) (<["p0" := p0]> ∅) (Some p0) true.
Definition scenario_4 : list registry_op :=
  [Report 1000 report_t1; SmapChanged 2000 smap11_without_t2].

(** A cluster map is well formed when every node is stored under its own id,
    in the map of its role, and no id is both a proxy and a target. *)
Definition smap_wf (m : smapX) : Prop :=
  (∀ k si, Pmap m !! k = Some si → ID si = k ∧ DaemonType si = Proxy)
  ∧ (∀ k si, Tmap m !! k = Some si → ID si = k ∧ DaemonType si = Target)
  ∧ (∀ k, is_Some (Pmap m !! k) → Tmap m !! k = None).

(** A proxy keeps its descriptor, up to gaining the IC flag when it is
    electable. *)
Definition enlisted_or_same (si si' : Snode) : Prop :=
  si' = si ∨ (NonElectable si = false ∧ si' = withFlags (Set_ (Flags si) SnodeIC) si).

(** Four proxies, all in the IC ([p3] just joined it), primary [p0]. *)
Definition p2 : Snode := mkSnode "p2" Proxy "http://p2:8080" "http://p2:9080" SnodeIC.
Definition p3 : Snode := mkSnode "p3" Proxy "http://p3:8080" "http://p3:9080" SnodeIC.
Definition p1_ic : Snode := mkSnode "p1" Proxy "http://p1:8080" "http://p1:9080" SnodeIC.
Definition smap_four_ic : smapX :=
  mkSmap 20 "uuid-A" "t0" (<["t1" := t1]> ∅)
         (<["p0" := p0]> (<["p1" := p1_ic]> (<["p2" := p2]> (<["p3" := p3]> ∅)))) (Some p0)
         true.

(** A clone in which the primary [p1] is not in the IC yet, next to [p0],
    which is, and a proxy that is not electable. *)
Definition p4_ne : Snode :=
  mkSnode "p4" Proxy "http://p4:8080" "http://p4:9080" SnodeNonElectable.
Definition smap_primary_p1 : smapX :=
  mkSmap 7 "uuid-A" "t0" (<["t1" := t1]> ∅)
         (<["p0" := p0]> (<["p1" := p1]> (<["p4" := p4_ne]> ∅))) (Some p1) true.

(** [m.Primary] is the proxy that the map holds under the primary's id, the
    one object: the state of a clone. *)
Definition primary_is_entry (m : smapX) : Prop :=
  PrimaryInMap m = true ∧ ∃ p, Primary m = Some p ∧ Pmap m !! ID p = Some p.

(** [m'] is [m] with some electable proxies enlisted in the IC: the same
    targets, the same node as primary, the same proxies, each with its
    descriptor or with its descriptor plus the IC flag; and when the primary
    of [m] is the proxy entry of its id, so is the primary of [m'], with the
    flags of that entry. *)
Definition ic_grown (m m' : smapX) : Prop :=
  smap_wf m' ∧ Tmap m' = Tmap m
  ∧ (ID <$> Primary m' = ID <$> Primary m ∧ PrimaryInMap m' = PrimaryInMap m
     ∧ (primary_is_entry m → primary_is_entry m'))
  ∧ ∀ k, match Pmap m !! k with
         | Some si => ∃ si', Pmap m' !! k = Some si' ∧ enlisted_or_same si si'
         | None => Pmap m' !! k = None
         end.

(** The map [m] with the descriptor of proxy [id] replaced, one version on. *)
Definition with_proxy (id : string) (si : Snode) (m : smapX) : smapX :=
  withVersion (incr64 (Version m)) (withPmap (<[id := si]> (Pmap m)) m).

(** ** Object listing: cached intervals and the per-request buffer *)

Module sort.

(** Go's [sort.Search]: binary search for the smallest index of [0, n] from
    which [f] is true.  The loop is the library's
    [for i < j { h := (i+j)/2; if !f(h) { i = h + 1 } else { j = h } }];
    [j - i] at least halves at every turn, so [n] turns are always enough
    ([Search_loop_fuel]). *)
Fixpoint Search_loop (fuel : nat) (f : nat → bool) (i j : nat) : nat :=
  match fuel with
  | O => i
  | S fuel' =>
    if (i <? j)%nat then
      let h := ((i + j) / 2)%nat in
      if negb (f h) then Search_loop fuel' f (h + 1) j else Search_loop fuel' f i h
    else i
  end.

Definition Search (n : nat) (f : nat → bool) : nat := Search_loop n f 0 n.

End sort.

Module strings.

(** Go's [strings.HasPrefix(s, prefix)]. *)
Definition HasPrefix (s prefix : string) : bool := String.prefix prefix s.

End strings.

Module cmn.

(** [cmn.BucketEntry]: of an entry this code reads [Name] only. *)
Record BucketEntry := mkEntry {
  Name : string;
  Size : Z
}.

End cmn.

(** Go slices, as lists.  An index or a bound past the length is a run-time
    panic (for a bound Go allows up to the capacity; no bound of this code
    goes past the length, see [get_shape]). *)
Definition index {A : Type} (l : list A) (i : nat) : outcome A :=
  match l !! i with
  | Some a => Done a
  | None => Panic "index out of range"
  end.

Definition slice_from {A : Type} (l : list A) (i : nat) : outcome (list A) :=
  if (i <=? length l)%nat then Done (drop i l) else Panic "slice bounds out of range".

Definition slice_to {A : Type} (l : list A) (i : nat) : outcome (list A) :=
  if (i <=? length l)%nat then Done (take i l) else Panic "slice bounds out of range".

(** The closure [func(i int) bool { return entries[i].Name > token }] handed
    to [sort.Search], which calls it inside the bounds only
    ([Search_loop_ext]). *)
Definition name_after (tok : string) (entries : list cmn.BucketEntry) (i : nat) : bool :=
  match entries !! i with
  | Some e => String.ltb tok (cmn.Name e)
  | None => false
  end.

Module cacheInterval.

Record cacheInterval := mkInterval {
  token : string;
  entries : list cmn.BucketEntry;
  last : bool
}.

Record reqParams := mkParams {
  prefix : string
}.

Definition contains (ci : cacheInterval) (tok : string) : bool :=
  if String.eqb (token ci) tok then true
  else
    match entries ci !! 0%nat, entries ci !! (length (entries ci) - 1)%nat with
    | Some first, Some lst =>
      String.leb (cmn.Name first) tok && String.leb tok (cmn.Name lst)
    | _, _ => false
    end.

Definition find (ci : cacheInterval) (tok : string) : nat :=
  if String.eqb (token ci) tok then 0%nat
  else sort.Search (length (entries ci)) (name_after tok (entries ci)).

(** The first loop of [get] over [entries[start:]]: [Some start'] when the
    loop ends (by [break] or at the end of the entries), [None] when it
    returns from [get] at a name past the prefix. *)
Fixpoint seek_start (rest : list cmn.BucketEntry) (start : nat) (pfx : string) : option nat :=
  match rest with
  | [] => Some start
  | e :: rest' =>
    if strings.HasPrefix (cmn.Name e) pfx then Some start
    else if String.ltb pfx (cmn.Name e) then None
    else seek_start rest' (S start) pfx
  end.

(** The second loop of [get]: [end] moves down to the last entry that has
    the prefix. *)
Fixpoint seek_end (es : list cmn.BucketEntry) (end_ : nat) (pfx : string) : outcome nat :=
  match end_ with
  | O => Done 0%nat
  | S e' =>
    x ← index es e';
    if strings.HasPrefix (cmn.Name x) pfx then Done (S e') else seek_end es e' pfx
  end.

(** The last lines of [get], from [entries = entries[:end]] on.  [nil] and
    the empty slice are both the empty list. *)
Definition get_tail (ci : cacheInterval) (objCnt : nat) (es : list cmn.BucketEntry)
    (end_ : nat) : outcome (list cmn.BucketEntry * bool) :=
  r ← slice_to es end_;
  if last ci || (objCnt <=? length r)%nat then Done (r, true) else Done ([], false).

(** [get] from [entries = entries[start:]] on. *)
Definition get_from (ci : cacheInterval) (objCnt : nat) (params : reqParams) (start : nat)
    : outcome (list cmn.BucketEntry * bool) :=
  es ← slice_from (entries ci) start;
  let end_ := Nat.min (length es) objCnt in
  if negb (String.eqb (prefix params) "") then
    end' ← seek_end es end_ (prefix params);
    if negb (last ci) && (end' <? length es)%nat then
      r ← slice_to es end'; Done (r, true)
    else get_tail ci objCnt es end'
  else get_tail ci objCnt es end_.

Definition get (ci : cacheInterval) (tok : string) (objCnt : nat) (params : reqParams)
    : outcome (list cmn.BucketEntry * bool) :=
  let start := find ci tok in
  if negb (String.eqb (prefix params) "") then
    match seek_start (drop start (entries ci)) start (prefix params) with
    | None => Done ([], true)
    | Some start' =>
      if negb (last ci) && (start' =? length (entries ci))%nat then Done ([], false)
      else get_from ci objCnt params start'
    end
  else get_from ci objCnt params start.

Definition append (ci objs : cacheInterval) : outcome cacheInterval :=
  let idx := find ci (token objs) in
  pre ← slice_to (entries ci) idx;
  Done (mkInterval (token ci) (pre ++ entries objs) (last objs)).

Definition prepend (ci objs : cacheInterval) : outcome cacheInterval :=
  _ ← assert (negb (last objs)) "assertion failed";
  let idx := find objs (token ci) in
  suf ← slice_from (entries objs) idx;
  Done (mkInterval (token ci) (suf ++ entries ci) (last ci)).

End cacheInterval.

Module queryCache.

Import cacheInterval.

(** The lock [mtx] is not modelled (calls are taken one at a time).  A
    pointer to an interval of the cache is the position of the interval in
    [intervals]; the pointers of a cache are pairwise distinct, every one
    being a fresh [cur] of [set]. *)
Record queryCache := mkCache {
  intervals : list cacheInterval
}.

Fixpoint findInterval_from (l : list cacheInterval) (i : nat) (tok : string) : option nat :=
  match l with
  | [] => None
  | ci :: l' => if contains ci tok then Some i else findInterval_from l' (S i) tok
  end.

Definition findInterval (c : queryCache) (tok : string) : option nat :=
  findInterval_from (intervals c) 0 tok.

Definition deref (c : queryCache) (p : nat) : outcome cacheInterval :=
  match intervals c !! p with
  | Some ci => Done ci
  | None => Panic "invalid memory address or nil pointer dereference"
  end.

Definition removeInterval (c : queryCache) (p : nat) : queryCache :=
  mkCache (delete p (intervals c)).

Definition merge (c : queryCache) (start end_ : option nat) (cur : cacheInterval)
    : outcome queryCache :=
  match start, end_ with
  | None, None => Done (mkCache (intervals c ++ [cur]))
  | Some s, None =>
    si ← deref c s;
    si' ← append si cur;
    Done (mkCache (<[s := si']> (intervals c)))
  | None, Some e =>
    ei ← deref c e;
    ei' ← prepend ei cur;
    Done (mkCache (<[e := ei']> (intervals c)))
  | Some s, Some e =>
    if (s =? e)%nat then Done c
    else
      si ← deref c s;
      ei ← deref c e;
      si' ← append si cur;
      si'' ← append si' ei;
      Done (removeInterval (mkCache (<[s := si'']> (intervals c))) e)
  end.

Definition get (c : queryCache) (tok : string) (objCnt : nat) (params : reqParams)
    : outcome (list cmn.BucketEntry * bool) :=
  match findInterval c tok with
  | Some p => ci ← deref c p; cacheInterval.get ci tok objCnt params
  | None => Done ([], false)
  end.

Definition set (c : queryCache) (tok : string) (es : list cmn.BucketEntry) (size : nat)
    : outcome queryCache :=
  let start := findInterval c tok in
  let cur := mkInterval tok es (length es <? size)%nat in
  let end_ :=
    match es !! (length es - 1)%nat with
    | Some lst => findInterval c (cmn.Name lst)
    | None => None
    end in
  merge c start end_ cur.

Definition invalidate (c : queryCache) : queryCache := mkCache [].

End queryCache.

Module queryBuffer.

Record queryBufferTarget := mkTarget {
  done : bool;
  entries : list cmn.BucketEntry
}.

Record queryBuffer := mkBuffer {
  currentBuff : list cmn.BucketEntry;
  leftovers : gmap string queryBufferTarget
}.

Definition hasEnough (b : queryBuffer) (tok : string) (size : nat) : outcome bool :=
  if (size =? 0)%nat then Done false
  else
    let idx := sort.Search (length (currentBuff b)) (name_after tok (currentBuff b)) in
    rest ← slice_from (currentBuff b) idx;
    Done (size <=? length rest)%nat.

Definition add (b : queryBuffer) (id : string) (es : list cmn.BucketEntry) (size : nat)
    : queryBuffer :=
  mkBuffer (currentBuff b) (<[id := mkTarget (length es <? size)%nat es]> (leftovers b)).

End queryBuffer.

(** Entries in the order of their names, and an interval whose entries are
    in order and all named after its token. *)
Fixpoint sorted (l : list cmn.BucketEntry) : bool :=
  match l with
  | [] => true
  | a :: l' => forallb (λ b, String.leb (cmn.Name a) (cmn.Name b)) l' && sorted l'
  end.

Definition after (tok : string) (e : cmn.BucketEntry) : bool := String.ltb tok (cmn.Name e).

Definition upto (tok : string) (e : cmn.BucketEntry) : bool := negb (after tok e).

Definition interval_wf (ci : cacheInterval.cacheInterval) : bool :=
  sorted (cacheInterval.entries ci)
  && forallb (after (cacheInterval.token ci)) (cacheInterval.entries ci).

Definition obj (name : string) : cmn.BucketEntry := cmn.mkEntry name 0.

Definition page_am : cacheInterval.cacheInterval :=
  cacheInterval.mkInterval "" [obj "a"; obj "c"; obj "m"] false.

Definition page_mz : cacheInterval.cacheInterval :=
  cacheInterval.mkInterval "m" [obj "p"; obj "z"] true.

Definition page_cp : cacheInterval.cacheInterval :=
  cacheInterval.mkInterval "c" [obj "m"; obj "p"] false.

(** What the first loop of [ListenSmapChanged] over the listeners to stop
    maintains for the listener [id]: it is registered under its uuid, and
    it is either still running ([b = false]) or finished at [now_] with the
    error of the departed node [sid] recorded ([b = true]). *)
Definition stopping (id sid : string) (now_ : Z) (n0 : notifs.notifs) (b : bool)
    (acc : notifs.notifs) : Prop :=
  uuid_wf acc ∧ notifs.m acc = notifs.m n0 ∧ notifs.smapVer acc = notifs.smapVer n0
  ∧ ∃ x, notifs.nls acc !! id = Some x
      ∧ if b then notifs.tfin x = now_ ∧ id ∈ notifs.fin acc
                  ∧ notifs.errs x !! sid = Some (notifs.ErrNodeNotFound sid)
        else notifs.tfin x = 0.

(** The number of nodes of a map, the descriptors it holds, and the conflict
    that [IsDuplicateURL] looks for: another id under the same URL. *)
Definition nodes (m : smapX) : Z := Z.of_nat (size (Tmap m)) + Z.of_nat (size (Pmap m)).

Definition node_of (m : smapX) (si : Snode) : Prop :=
  ∃ k, Tmap m !! k = Some si ∨ Pmap m !! k = Some si.

Definition url_conflict (osi nsi : Snode) : Prop :=
  ID osi ≠ ID nsi ∧ sameURL osi nsi = true.

(** A map of the cluster of [smapB] (same uuid) whose only node, target
    [t9], answers at the public URL of [t1]. *)
Definition t9 : Snode := mkSnode "t9" Target "http://t1:8081" "http://t9:9081" 0%N.
Definition smap_t9 : smapX :=
  mkSmap 3 "uuid-A" "t0" (<["t9" := t9]> ∅) ∅ None false.

(** A registry at housekeeping time: ["old"] finished at 1000 ns and
    ["recent"] at 399 s, both in [fin]; ["xact-1"] still runs and waits for
    [t1] and [t2], which both answer "finished" to the status broadcast. *)
Definition nl_old : notifs.notifListenerBase :=
  notifs.mkNLB (<["t1" := None]> ∅) ∅ "old" true 1 0 1000 false.
Definition nl_recent : notifs.notifListenerBase :=
  notifs.mkNLB (<["t1" := None]> ∅) ∅ "recent" true 1 0 399000000000 false.
Definition reg_hk : notifs.notifs :=
  notifs.mkNotifs (<["old" := nl_old]> (<["recent" := nl_recent]> (<["xact-1" := nl0]> ∅)))
                  {["xact-1"]} {["old"; "recent"]} [] 0.
Definition bcast_finished : string → list notifs.callResult := λ id,
  if String.eqb id "xact-1"
  then [notifs.mkResult "t1" false 0 true true false;
        notifs.mkResult "t2" false 0 true true false]
  else [].
Definition hk_time : Z := 400000000000.

(** * Verified properties *)

(** ** The versioned map: [putNode] *)

Section PutNode.

Lemma putNode_other_role (nsi : Snode) (flags : SnodeFlags) (m : smapX) :
  is_Some (roleMap (otherRole (DaemonType nsi)) m !! ID nsi) →
  putNode nsi flags m = Panic (duplicateID (ID nsi)).
Proof.
  intros [osi Hosi]. unfold putNode, IsProxy, IsTarget.
  destruct (DaemonType nsi) eqn:Hty; simpl in Hosi; simpl.
  - unfold GetProxy. destruct (Pmap m !! ID nsi) as [psi|] eqn:Hp; simpl.
    + unfold delProxy, GetProxy. rewrite Hp. simpl.
      unfold addProxy, containsID, GetTarget. simpl. by rewrite Hosi.
    + unfold addProxy, containsID, GetTarget. by rewrite Hosi.
  - unfold GetTarget. destruct (Tmap m !! ID nsi) as [tsi|] eqn:Ht; simpl.
    + unfold delTarget, GetTarget. rewrite Ht. simpl.
      unfold addTarget, containsID, GetTarget, GetProxy. simpl.
      rewrite lookup_delete_eq. by rewrite Hosi.
    + unfold addTarget, containsID, GetTarget, GetProxy. rewrite Ht. by rewrite Hosi.
Qed.

Lemma putNode_same_role (nsi : Snode) (flags : SnodeFlags) (m : smapX) :
  roleMap (otherRole (DaemonType nsi)) m !! ID nsi = None →
  ∃ m', putNode nsi flags m
        = Done (bool_decide (is_Some (roleMap (DaemonType nsi) m !! ID nsi)), m')
    ∧ roleMap (DaemonType nsi) m' = <[ID nsi := stored nsi flags]> (roleMap (DaemonType nsi) m)
    ∧ roleMap (otherRole (DaemonType nsi)) m' = roleMap (otherRole (DaemonType nsi)) m
    ∧ Version m' = (if bool_decide (is_Some (roleMap (DaemonType nsi) m !! ID nsi))
                    then incr64 (incr64 (Version m)) else incr64 (Version m)).
Proof.
  intros Hother. unfold putNode, IsProxy, IsTarget, stored.
  destruct (DaemonType nsi) eqn:Hty; simpl in Hother; simpl.
  - unfold GetProxy. destruct (Pmap m !! ID nsi) as [psi|] eqn:Hp; simpl.
    + unfold delProxy, GetProxy. rewrite Hp. simpl.
      unfold addProxy, containsID, GetTarget, GetProxy. simpl.
      rewrite Hother, lookup_delete_eq. simpl.
      eexists. split; [reflexivity|]. simpl.
      by rewrite alter_insert_eq, insert_delete_eq.
    + unfold addProxy, containsID, GetTarget, GetProxy. rewrite Hother, Hp. simpl.
      eexists. split; [reflexivity|]. simpl.
      by rewrite alter_insert_eq.
  - unfold GetTarget. destruct (Tmap m !! ID nsi) as [tsi|] eqn:Ht; simpl.
    + unfold delTarget, GetTarget. rewrite Ht. simpl.
      unfold addTarget, containsID, GetTarget, GetProxy. simpl.
      rewrite Hother, lookup_delete_eq. simpl.
      eexists. split; [reflexivity|]. simpl.
      by rewrite insert_delete_eq.
    + unfold addTarget, containsID, GetTarget, GetProxy. rewrite Hother, Ht. simpl.
      eexists. split; [reflexivity|]. by simpl.
Qed.

(** C7. [putNode(desc, flags)]: when the id is already present under the
    role of [desc], the old descriptor is removed first (the role's map ends
    up with [desc] in place of it), [exists] is returned true and the version
    is incremented twice (once by the removal, once by the addition); when
    the id is new, [exists] is false and the version is incremented once;
    when the id is present under the other role the call fails on the
    duplicate-daemon-ID check. *)
Theorem putNode_replace_bump_or_duplicate (nsi : Snode) (flags : SnodeFlags) (m : smapX) :
  (is_Some (roleMap (otherRole (DaemonType nsi)) m !! ID nsi) →
     putNode nsi flags m = Panic (duplicateID (ID nsi)))
  ∧ (roleMap (otherRole (DaemonType nsi)) m !! ID nsi = None →
     ∃ m', putNode nsi flags m
           = Done (bool_decide (is_Some (roleMap (DaemonType nsi) m !! ID nsi)), m')
       ∧ roleMap (DaemonType nsi) m'
           = <[ID nsi := stored nsi flags]> (roleMap (DaemonType nsi) m)
       ∧ roleMap (otherRole (DaemonType nsi)) m' = roleMap (otherRole (DaemonType nsi)) m
       ∧ Version m' = (if bool_decide (is_Some (roleMap (DaemonType nsi) m !! ID nsi))
                       then incr64 (incr64 (Version m)) else incr64 (Version m))).
Proof.
  split; [apply putNode_other_role | apply putNode_same_role].
Qed.

(** The three cases of C7 on the sample map: a proxy descriptor under a
    target's id is refused; re-adding target [t1] is a replacement, version
    10 becomes 12; a new proxy [p1] is an addition, version 10 becomes 11. *)
Lemma putNode_replace_bump_or_duplicate_witness :
  putNode (mkSnode "t1" Proxy "u" "v" 0%N) 0%N smap10 = Panic (duplicateID "t1")
  ∧ (∃ m', putNode t1 0%N smap10 = Done (true, m') ∧ Version m' = 12)
  ∧ (∃ m', putNode p1 SnodeNonElectable smap10 = Done (false, m') ∧ Version m' = 11).
Proof.
  split; [|split].
  - apply (proj1 (putNode_replace_bump_or_duplicate
                    (mkSnode "t1" Proxy "u" "v" 0%N) 0%N smap10)).
    vm_compute. eauto.
  - destruct (proj2 (putNode_replace_bump_or_duplicate t1 0%N smap10))
      as (m' & Hput & _ & _ & Hver); [vm_compute; reflexivity|].
    exists m'. split; [exact Hput | exact Hver].
  - destruct (proj2 (putNode_replace_bump_or_duplicate p1 SnodeNonElectable smap10))
      as (m' & Hput & _ & _ & Hver); [vm_compute; reflexivity|].
    exists m'. split; [exact Hput | exact Hver].
Defined.

(** C10. For a target descriptor the [flags] argument of [putNode] plays no
    role: any two flag arguments give the same outcome, and when the call
    succeeds the descriptor stored under the id is [desc] itself, with the
    flags it came with. *)
Theorem putNode_target_ignores_flags (nsi : Snode) (flags flags' : SnodeFlags) (m : smapX) :
  DaemonType nsi = Target →
  putNode nsi flags m = putNode nsi flags' m
  ∧ ∀ ex m', putNode nsi flags m = Done (ex, m') →
      Tmap m' !! ID nsi = Some nsi ∧ Flags <$> (Tmap m' !! ID nsi) = Some (Flags nsi).
Proof.
  intros Hty. split.
  - unfold putNode, IsProxy. rewrite Hty. reflexivity.
  - intros ex m' Hput.
    destruct (roleMap (otherRole (DaemonType nsi)) m !! ID nsi) as [osi|] eqn:Ho.
    + rewrite (putNode_other_role nsi flags m) in Hput by eauto. discriminate.
    + destruct (putNode_same_role nsi flags m Ho) as (m'' & Hput' & Hmap & _).
      rewrite Hput in Hput'. injection Hput' as _ ->.
      rewrite Hty in Hmap. simpl in Hmap. rewrite Hmap.
      unfold stored. rewrite Hty. by rewrite lookup_insert_eq.
Qed.

Lemma putNode_target_ignores_flags_witness :
  putNode t1 SnodeMaintenance (mkSmap 0 "" "" ∅ ∅ None false)
    = putNode t1 SnodeIC (mkSmap 0 "" "" ∅ ∅ None false)
  ∧ ∀ ex m', putNode t1 SnodeMaintenance (mkSmap 0 "" "" ∅ ∅ None false) = Done (ex, m') →
      Tmap m' !! ID t1 = Some t1 ∧ Flags <$> (Tmap m' !! ID t1) = Some (Flags t1).
Proof.
  apply (putNode_target_ignores_flags t1 SnodeMaintenance SnodeIC). reflexivity.
Defined.

End PutNode.


(** ** The versioned map: [merge] *)

Section Merge.

Variable range : NodeMap → list (string * Snode).
Hypothesis range_sound : ∀ (M : NodeMap) k v, (k, v) ∈ range M → M !! k = Some v.

Lemma iter_incr64_exact (k : nat) (v : Z) :
  - 2 ^ 63 ≤ v → v + Z.of_nat k ≤ int64_max →
  Nat.iter k incr64 v = v + Z.of_nat k.
Proof.
  unfold int64_max. induction k as [|k IH]; intros Hlo Hhi; simpl.
  - lia.
  - rewrite IH by lia. unfold incr64, wrap64.
    rewrite Z.mod_small by lia. lia.
Qed.

Lemma size_delete_present (M : NodeMap) (k : string) :
  is_Some (M !! k) → Z.of_nat (size (delete k M)) = Z.of_nat (size M) - 1.
Proof.
  intros Hk. rewrite map_size_delete_Some by done.
  pose proof (map_size_ne_0_lookup_2 M k Hk). lia.
Qed.

Lemma IsDuplicateURL_conflict (m : smapX) (nsi osi : Snode) :
  IsDuplicateURL range m nsi = Some osi → node_of m osi ∧ url_conflict osi nsi.
Proof using range_sound.
  unfold IsDuplicateURL. intros H. apply head_Some_elem_of in H.
  apply list_elem_of_filter in H as [Hc H]. split; [|exact Hc].
  apply elem_of_app in H as [H|H]; apply list_elem_of_fmap in H as ([k v] & -> & H);
    apply range_sound in H; exists k; [by left | by right].
Qed.

(** One call of [handleDuplicateURL]: [j] descriptors (none or one) leave the
    map, and the version is incremented [j] times; one leaves only under
    override, and only when a descriptor of the map conflicts with [nsi]. *)
Lemma handleDuplicateURL_removes (nsi : Snode) (del : bool) (m m' : smapX) err :
  handleDuplicateURL range nsi del m = Done (m', err) →
  ∃ j : nat, (j ≤ 1)%nat ∧ Version m' = Nat.iter j incr64 (Version m)
    ∧ nodes m' = nodes m - Z.of_nat j
    ∧ (del = false → j = 0%nat)
    ∧ (j = 1%nat → ∃ osi, node_of m osi ∧ url_conflict osi nsi)
    ∧ (∀ si, node_of m' si → node_of m si).
Proof using range_sound.
  unfold handleDuplicateURL. intros H.
  destruct (IsDuplicateURL range m nsi) as [osi|] eqn:Hd.
  - destruct del; simpl in H.
    + exists 1%nat. split; [lia|].
      pose proof (IsDuplicateURL_conflict _ _ _ Hd) as Hc.
      destruct (IsProxy osi); unfold delProxy, delTarget, assert, GetProxy, GetTarget in H;
        simpl in H; case_bool_decide as Hin; simpl in H; try discriminate;
        injection H as <- _; unfold nodes; simpl;
        (split; [reflexivity|]); (split; [rewrite size_delete_present by done; lia|]);
        (split; [discriminate|]); (split; [eauto|]);
        intros si [k [Hk|Hk]]; simpl in Hk;
        try (apply lookup_delete_Some in Hk as [_ Hk]); exists k; auto.
    + exists 0%nat. injection H as <- _. unfold nodes.
      split; [lia|]. split; [done|]. split; [lia|]. split; [done|]. split; [lia | done].
  - exists 0%nat. injection H as <- _. unfold nodes.
    split; [lia|]. split; [done|]. split; [lia|]. split; [done|]. split; [lia | done].
Qed.

(** The loops of [merge] over the nodes [l] of the source, all of which are
    in [U] like the nodes of [dst]: [k] descriptors leave [dst], each on a URL
    conflict with a node of [l], and the version is incremented [k] times. *)
Lemma merge_targets_removes (U : Snode → Prop) (override : bool)
    (l : list (string * Snode)) :
  ∀ dst added dst' added' err,
  merge_targets range l override dst added = Done (dst', added', err) →
  (∀ key si, (key, si) ∈ l → U si) → (∀ si, node_of dst si → U si) →
  ∃ k : nat, (k ≤ length l)%nat ∧ Version dst' = Nat.iter k incr64 (Version dst)
    ∧ nodes dst' = nodes dst + (added' - added) - Z.of_nat k
    ∧ added ≤ added'
    ∧ (override = false → k = 0%nat)
    ∧ ((∀ key nsi osi, (key, nsi) ∈ l → U osi → ¬ url_conflict osi nsi) → k = 0%nat)
    ∧ (∀ si, node_of dst' si → U si).
Proof using range_sound.
  induction l as [|[id si] rest IH]; intros dst added dst' added' err H Hl Hdst; simpl in H.
  - injection H as <- <- _. exists 0%nat. simpl.
    split; [lia|]. split; [done|]. split; [lia|]. split; [lia|]. auto.
  - destruct (handleDuplicateURL range si override dst) as [[dst1 e1]|] eqn:Hh;
      simpl in H; [|discriminate].
    destruct (handleDuplicateURL_removes _ _ _ _ _ Hh) as (j & Hj & Hv & Hn & Hov & Hc & Hsub).
    assert ((∀ key nsi osi, (key, nsi) ∈ (id, si) :: rest → U osi → ¬ url_conflict osi nsi)
            → j = 0%nat) as Hnc.
    { intros Hno. destruct j as [|[|j]]; [done| |lia].
      destruct Hc as (osi & Ho & Hco); [done|].
      destruct (Hno id si osi (list_elem_of_here _ _) (Hdst _ Ho) Hco). }
    destruct e1 as [e|].
    + injection H as <- <- _. exists j. simpl.
      split; [lia|]. split; [done|]. split; [lia|]. split; [lia|].
      split; [done|]. split; [done|]. intros x Hx. by apply Hdst, Hsub.
    + assert (∃ d a, merge_targets range rest override d a = Done (dst', added', err)
                     ∧ Version d = Version dst1 ∧ nodes d - a = nodes dst1 - added
                     ∧ added ≤ a
                     ∧ (∀ x, node_of d x → U x)) as (d & a & Hd & Hvd & Hnd & Ha & HdU).
      { assert (∀ x, node_of dst1 x → U x) as H1 by (intros x Hx; by apply Hdst, Hsub).
        destruct (Tmap dst1 !! id) eqn:Ht; [|destruct (Pmap dst1 !! id) eqn:Hp]; simpl in H.
        - exists dst1, added. split; [exact H|]. split; [done|]. split; [done|]. split; [lia | done].
        - exists dst1, added. split; [exact H|]. split; [done|]. split; [done|]. split; [lia | done].
        - eexists _, _. split; [exact H|]. split; [done|].
          split; [unfold nodes; simpl; rewrite map_size_insert_None by done; lia|].
          split; [lia|]. intros x [k [Hk|Hk]]; simpl in Hk.
          + apply lookup_insert_Some in Hk as [[_ <-]|[_ Hk]];
              [apply (Hl id), list_elem_of_here | apply H1; exists k; by left].
          + apply H1. exists k. by right. }
      destruct (IH _ _ _ _ _ Hd) as (k & Hk & Hvk & Hnk & Hak & Hovk & Hnck & HU);
        [intros key x Hx; apply (Hl key); by apply list_elem_of_further | exact HdU |].
      exists (k + j)%nat. split; [simpl; lia|]. split.
      * rewrite Nat.iter_add, <- Hv, <- Hvd. exact Hvk.
      * split; [lia|]. split; [lia|]. split.
        { intros Ho. rewrite Hov, Hovk by exact Ho. reflexivity. }
        split; [|exact HU].
        intros Hno. rewrite Hnc by exact Hno. rewrite Hnck; [done|].
        intros key nsi osi Hin. apply (Hno key). by apply list_elem_of_further.
Qed.

Lemma merge_proxies_removes (U : Snode → Prop) (override : bool)
    (l : list (string * Snode)) :
  ∀ dst added dst' added' err,
  merge_proxies range l override dst added = Done (dst', added', err) →
  (∀ key si, (key, si) ∈ l → U si) → (∀ si, node_of dst si → U si) →
  ∃ k : nat, (k ≤ length l)%nat ∧ Version dst' = Nat.iter k incr64 (Version dst)
    ∧ nodes dst' = nodes dst + (added' - added) - Z.of_nat k
    ∧ added ≤ added'
    ∧ (override = false → k = 0%nat)
    ∧ ((∀ key nsi osi, (key, nsi) ∈ l → U osi → ¬ url_conflict osi nsi) → k = 0%nat)
    ∧ (∀ si, node_of dst' si → U si).
Proof using range_sound.
  induction l as [|[id si] rest IH]; intros dst added dst' added' err H Hl Hdst; simpl in H.
  - injection H as <- <- _. exists 0%nat. simpl.
    split; [lia|]. split; [done|]. split; [lia|]. split; [lia|]. auto.
  - destruct (handleDuplicateURL range si override dst) as [[dst1 e1]|] eqn:Hh;
      simpl in H; [|discriminate].
    destruct (handleDuplicateURL_removes _ _ _ _ _ Hh) as (j & Hj & Hv & Hn & Hov & Hc & Hsub).
    assert ((∀ key nsi osi, (key, nsi) ∈ (id, si) :: rest → U osi → ¬ url_conflict osi nsi)
            → j = 0%nat) as Hnc.
    { intros Hno. destruct j as [|[|j]]; [done| |lia].
      destruct Hc as (osi & Ho & Hco); [done|].
      destruct (Hno id si osi (list_elem_of_here _ _) (Hdst _ Ho) Hco). }
    destruct e1 as [e|].
    + injection H as <- <- _. exists j. simpl.
      split; [lia|]. split; [done|]. split; [lia|]. split; [lia|].
      split; [done|]. split; [done|]. intros x Hx. by apply Hdst, Hsub.
    + assert (∃ d a, merge_proxies range rest override d a = Done (dst', added', err)
                     ∧ Version d = Version dst1 ∧ nodes d - a = nodes dst1 - added
                     ∧ added ≤ a
                     ∧ (∀ x, node_of d x → U x)) as (d & a & Hd & Hvd & Hnd & Ha & HdU).
      { assert (∀ x, node_of dst1 x → U x) as H1 by (intros x Hx; by apply Hdst, Hsub).
        destruct (Pmap dst1 !! id) eqn:Hp; [|destruct (Tmap dst1 !! id) eqn:Ht]; simpl in H.
        - exists dst1, added. split; [exact H|]. split; [done|]. split; [done|]. split; [lia | done].
        - exists dst1, added. split; [exact H|]. split; [done|]. split; [done|]. split; [lia | done].
        - eexists _, _. split; [exact H|]. split; [done|].
          split; [unfold nodes; simpl; rewrite map_size_insert_None by done; lia|].
          split; [lia|]. intros x [k [Hk|Hk]]; simpl in Hk.
          + apply H1. exists k. by left.
          + apply lookup_insert_Some in Hk as [[_ <-]|[_ Hk]];
              [apply (Hl id), list_elem_of_here | apply H1; exists k; by right]. }
      destruct (IH _ _ _ _ _ Hd) as (k & Hk & Hvk & Hnk & Hak & Hovk & Hnck & HU);
        [intros key x Hx; apply (Hl key); by apply list_elem_of_further | exact HdU |].
      exists (k + j)%nat. split; [simpl; lia|]. split.
      * rewrite Nat.iter_add, <- Hv, <- Hvd. exact Hvk.
      * split; [lia|]. split; [lia|]. split.
        { intros Ho. rewrite Hov, Hovk by exact Ho. reflexivity. }
        split; [|exact HU].
        intros Hno. rewrite Hnc by exact Hno. rewrite Hnck; [done|].
        intros key nsi osi Hin. apply (Hno key). by apply list_elem_of_further.
Qed.

(** C5 (as amended). Merging [A] into [B] never reads [A.version]. The
    version of the merged map is [B.version] incremented exactly once for
    every descriptor that the merge removes from [B]: [k] increments, where
    [k] is the number of nodes that [B] has lost, its size before plus the
    nodes added minus its size after. A descriptor is removed only by the
    override and only on a URL conflict with a node of [A]: [k] is 0 without
    override, and 0 when no node of [A] shares a URL with a descriptor of
    another id in [A] or [B]; and [k] is at most the number of nodes of
    [A]. As long as the increments do not overflow [int64] the version is at
    least [B.version]. *)
Theorem merge_version_from_dst_only (A B B' : smapX) (override : bool) (added : Z)
    (err : option smapX.error) :
  merge range A B override = Done (B', added, err) →
  (∀ v, merge range (withVersion v A) B override = merge range A B override)
  ∧ ∃ k : nat,
      nodes B' = nodes B + added - Z.of_nat k
      ∧ 0 ≤ added
      ∧ Version B' = Nat.iter k incr64 (Version B)
      ∧ (k ≤ length (range (Tmap A)) + length (range (Pmap A)))%nat
      ∧ (override = false → k = 0%nat ∧ Version B' = Version B)
      ∧ ((∀ nsi osi, node_of A nsi → node_of A osi ∨ node_of B osi →
            ¬ url_conflict osi nsi) → k = 0%nat ∧ Version B' = Version B)
      ∧ (- 2 ^ 63 ≤ Version B → Version B + Z.of_nat k ≤ int64_max →
         Version B ≤ Version B').
Proof using range_sound.
  intros H. split; [reflexivity|].
  set (U := λ x, node_of A x ∨ node_of B x).
  assert (∃ k : nat, (k ≤ length (range (Tmap A)) + length (range (Pmap A)))%nat
            ∧ Version B' = Nat.iter k incr64 (Version B)
            ∧ nodes B' = nodes B + added - Z.of_nat k ∧ 0 ≤ added
            ∧ (override = false → k = 0%nat)
            ∧ ((∀ nsi osi, node_of A nsi → U osi → ¬ url_conflict osi nsi) → k = 0%nat))
    as (k & Hk & Hv & Hn & Ha & Ho & Hnc).
  { unfold merge in H.
    assert (∀ key si, (key, si) ∈ range (Tmap A) → U si) as HlT.
    { intros key si Hin. left. exists key. left. by apply range_sound. }
    assert (∀ key si, (key, si) ∈ range (Pmap A) → U si) as HlP.
    { intros key si Hin. left. exists key. right. by apply range_sound. }
    destruct (merge_targets range (range (Tmap A)) override B 0)
      as [[[d1 a1] e1]|] eqn:Ht; simpl in H; [|discriminate].
    destruct (merge_targets_removes U _ _ _ _ _ _ _ Ht HlT)
      as (k1 & Hk1 & Hv1 & Hn1 & Ha1 & Ho1 & Hnc1 & HU1); [intros si Hsi; by right|].
    assert ((∀ nsi osi, node_of A nsi → U osi → ¬ url_conflict osi nsi) → k1 = 0%nat)
      as Hnc1'.
    { intros Hno. apply Hnc1. intros key nsi osi Hin. apply Hno.
      exists key. left. by apply range_sound. }
    destruct e1 as [e|].
    { injection H as <- <- _. exists k1. split; [lia|]. split; [done|].
      split; [lia|]. split; [lia|]. split; done. }
    destruct (merge_proxies range (range (Pmap A)) override d1 a1)
      as [[[d2 a2] e2]|] eqn:Hp; simpl in H; [|discriminate].
    destruct (merge_proxies_removes U _ _ _ _ _ _ _ Hp HlP HU1)
      as (k2 & Hk2 & Hv2 & Hn2 & Ha2 & Ho2 & Hnc2 & HU2).
    assert (Version B' = Version d2 ∧ nodes B' = nodes d2 ∧ added = a2) as (HB' & HnB' & ->).
    { destruct e2; [by injection H as <- <- _|].
      destruct (_ && _); by injection H as <- <- _. }
    exists (k2 + k1)%nat. split; [lia|]. split.
    { rewrite Nat.iter_add, <- Hv1, <- Hv2. exact HB'. }
    split; [lia|]. split; [lia|]. split.
    - intros Hov. rewrite Ho1, Ho2 by exact Hov. reflexivity.
    - intros Hno. rewrite Hnc1' by exact Hno. rewrite Hnc2; [done|].
      intros key nsi osi Hin. apply Hno. exists key. right. by apply range_sound. }
  exists k. split; [exact Hn|]. split; [exact Ha|]. split; [exact Hv|]. split; [exact Hk|].
  split; [|split].
  - intros Hov. rewrite Hv, (Ho Hov). done.
  - intros Hno. rewrite Hv, (Hnc Hno). done.
  - intros Hlo Hhi. rewrite Hv, iter_incr64_exact by assumption. lia.
Qed.

End Merge.

Lemma node_map_sound (M : NodeMap) (k : string) (v : Snode) :
  (k, v) ∈ map_to_list M → M !! k = Some v.
Proof. apply elem_of_map_to_list. Qed.

(** The override at work: target [t9] of [smap_t9] has the public URL of
    target [t1] of [smapB]; [t1] is removed and [t9] added, the size stays
    and the version goes from 1 to 2. *)
Lemma merge_version_from_dst_only_witness :
  ∃ B', UUID smap_t9 = UUID smapB
    ∧ merge map_to_list smap_t9 smapB true = Done (B', 1, None)
    ∧ Tmap B' !! "t1" = None
    ∧ nodes B' = nodes smapB + 1 - 1
    ∧ Version B' = incr64 (Version smapB).
Proof.
  assert (∃ B', merge map_to_list smap_t9 smapB true = Done (B', 1, None)
                ∧ Tmap B' !! "t1" = None ∧ nodes B' = 2) as (B' & H & Ht1 & HnB)
    by (eexists; split; [|split]; vm_compute; reflexivity).
  exists B'. split; [reflexivity|]. split; [exact H|]. split; [exact Ht1|].
  destruct (merge_version_from_dst_only map_to_list node_map_sound smap_t9 smapB B' true 1
              None H) as (_ & k & Hn & _ & Hv & _).
  assert (nodes smapB = 2) as Hb by (vm_compute; reflexivity).
  assert (k = 1%nat) as -> by (rewrite HnB, Hb in Hn; lia).
  split; [exact Hn | exact Hv].
Defined.

(** C5 as stated does not hold: [smapA] (version 5) and [smapB] (version 1)
    carry the same uuid, and merging [smapA] into [smapB] leaves version 1. *)
Lemma merge_version_not_max :
  UUID smapA = UUID smapB
  ∧ merge map_to_list smapA smapB false = Done (smapB, 0, None)
  ∧ Version smapB = 1
  ∧ Z.max (Version smapA) (Version smapB) = 5
  ∧ ¬ (Z.max (Version smapA) (Version smapB) ≤ Version smapB).
Proof.
  split; [reflexivity|]. split; [vm_compute; reflexivity|].
  split; [reflexivity|]. split; [reflexivity|].
  vm_compute. intros H. apply H. reflexivity.
Qed.

(** ** The change-listener bus *)

Section ListenerBus.

Import smapLis.

(** C9 (as amended). [notify] hands the version to the bus only while the
    worker runs; it returns at once when the worker does not run (nothing is
    sent) or when the queue holds fewer than 8 versions (the version is
    appended); when the worker runs and the queue holds 8 versions the sender
    is parked and nothing is dropped: as soon as the worker has received one
    version the send goes through. *)
Theorem notify_sends_or_parks (ver : Z) (sls : smapLis) :
  0 ≤ ver →
  (running sls = false → notify ver sls = Done (Returned sls))
  ∧ (running sls = true → (length (postCh sls) < postCh_cap)%nat →
       notify ver sls = Done (Returned (mkLis (postCh sls ++ [ver]) true)))
  ∧ (running sls = true → (postCh_cap ≤ length (postCh sls))%nat →
       notify ver sls = Done Blocks)
  ∧ (running sls = true → length (postCh sls) = postCh_cap →
       ∃ v rest, chan_recv (postCh sls) = Returned (v, rest)
         ∧ notify ver (mkLis rest true) = Done (Returned (mkLis (rest ++ [ver]) true))).
Proof.
  intros Hver. unfold notify, assert, chan_send.
  assert (Z.leb 0 ver = true) as -> by lia. simpl.
  repeat split.
  - by intros ->.
  - intros -> Hlen. by rewrite decide_True.
  - intros -> Hlen. rewrite decide_False by lia. reflexivity.
  - intros _ Hlen. destruct (postCh sls) as [|v rest]; [discriminate|].
    exists v, rest. split; [reflexivity|]. simpl.
    rewrite decide_True; [reflexivity|]. simpl in Hlen. lia.
Qed.

Lemma parked_send_within_capacity (buf : list Z) (v : Z) :
  (length (parked_send buf v) ≤ postCh_cap)%nat.
Proof.
  induction buf as [|x rest IH]; simpl; unfold chan_send.
  - unfold postCh_cap. lia.
  - case_decide as Hlen; [|exact IH].
    rewrite length_app. simpl in *. lia.
Qed.

(** The queue of the bus never holds more than its 8 slots when [notify] has
    returned, and a version that had to wait is the newest in the queue. *)
Lemma notify_returned_within_capacity (ver : Z) (sls sls' : smapLis) :
  (length (postCh sls) ≤ postCh_cap)%nat →
  notify_returned ver sls = Done sls' →
  (length (postCh sls') ≤ postCh_cap)%nat
  ∧ (running sls = true → last (postCh sls') = Some ver).
Proof.
  intros Hlen. unfold notify_returned, notify, assert.
  destruct (Z.leb 0 ver); simpl; [|discriminate].
  destruct (running sls) eqn:Hrun; simpl; [|intros [= <-]; done].
  unfold chan_send. case_decide as Hroom; simpl; intros [= <-]; simpl.
  - rewrite length_app, last_snoc. simpl. split; [lia | done].
  - split; [apply parked_send_within_capacity|]. intros _.
    clear Hlen Hroom. induction (postCh sls) as [|x rest IH]; simpl; unfold chan_send.
    + done.
    + case_decide; [by rewrite last_snoc | exact IH].
Qed.

End ListenerBus.

Lemma notify_sends_or_parks_witness :
  smapLis.notify 9 bus_full = Done smapLis.Blocks
  ∧ smapLis.notify 9 (smapLis.mkLis [1] true)
    = Done (smapLis.Returned (smapLis.mkLis [1; 9] true))
  ∧ smapLis.notify 9 smapLis.newSmapListeners
    = Done (smapLis.Returned smapLis.newSmapListeners).
Proof.
  assert (0 ≤ 9) as H9 by lia.
  split; [|split].
  - destruct (notify_sends_or_parks 9 bus_full H9) as (_ & _ & Hfull & _).
    apply Hfull; [reflexivity | vm_compute; lia].
  - destruct (notify_sends_or_parks 9 (smapLis.mkLis [1] true) H9) as (_ & Hroom & _).
    apply Hroom; [reflexivity | vm_compute; lia].
  - destruct (notify_sends_or_parks 9 smapLis.newSmapListeners H9) as (Hoff & _).
    apply Hoff. reflexivity.
Defined.

(** C9 as stated does not hold: with the worker running and 8 versions
    queued, [notify] neither returns nor drops the version; the sender is
    parked on the channel send. *)
Lemma notify_blocks_on_full_queue :
  smapLis.running bus_full = true
  ∧ length (smapLis.postCh bus_full) = smapLis.postCh_cap
  ∧ smapLis.notify 9 bus_full = Done smapLis.Blocks
  ∧ smapLis.notify 9 bus_full ≠ Done (smapLis.Returned bus_full).
Proof. repeat split; discriminate. Qed.

(** ** The map owner *)

Section Owner.

Import smapOwner.

Variable save_error : file → option string.

Lemma put_publishes (m : smapX) (r : smapOwner) :
  0 ≤ Version m →
  ∃ r', put m r = Done r' ∧ smap r' = Some m ∧ config r' = config r
        ∧ dsk r' = dsk r ∧ events r' = events r.
Proof.
  intros Hv. unfold put, smapLis.notify_returned, smapLis.notify, assert. simpl.
  assert (Z.leb 0 (Version m) = true) as -> by lia. simpl.
  destruct (smapLis.running (listeners r)); simpl.
  - destruct (smapLis.chan_send _ _ _); simpl; eexists; split; by eauto.
  - eexists; split; by eauto.
Qed.

Lemma persist_config_failure (newSmap : smapX) (r : smapOwner) (p : Snode) (cause : string) :
  Primary newSmap = Some p → save_error ConfigFile = Some cause →
  persist save_error newSmap r = Done (r, Some (ErrWriteConfig cause)).
Proof.
  intros Hp Hc. unfold persist. rewrite Hp, Hc.
  destruct r as [? ? [? ?] ? ?]. reflexivity.
Qed.

Lemma persist_config_written (newSmap : smapX) (r : smapOwner) (p : Snode) :
  Primary newSmap = Some p → save_error ConfigFile = None →
  ∃ r', persist save_error newSmap r = Done (r', None)
    ∧ smap r' = smap r
    ∧ config r' = mkConfig (PublicNet p) (Confdir (config r))
    ∧ config_file (dsk r') = Some (config r')
    ∧ smap_file (dsk r')
      = (match save_error SmapFile with
         | Some _ => smap_file (dsk r)
         | None => Some newSmap
         end)
    ∧ events r'
      = (match save_error SmapFile with
         | Some cause => events r ++ [LogError ("error writing Smap: " +:+ cause)]
         | None => events r
         end).
Proof.
  intros Hp Hc. unfold persist. rewrite Hp, Hc.
  destruct (save_error SmapFile); eexists; (split; [reflexivity|]); by simpl.
Qed.

Lemma isValid_true_primary (newSmap : option smapX) :
  isValid newSmap = Done true → ∃ new p, newSmap = Some new ∧ Primary new = Some p.
Proof.
  unfold isValid. intros H. destruct newSmap as [new|]; [|discriminate].
  destruct (Primary new) as [p|] eqn:Hp; [|discriminate].
  exists new, p. split; [reflexivity | exact Hp].
Qed.

(** C3 (as amended). [synchronize(newMap)] on an owner that holds [cur]:
    an invalid [newMap] is rejected; [newMap.version < cur.version] returns
    the downgrade error; an equal version returns no error; in these three
    cases the owner, the disk and the bus are left as they were. With a
    strictly greater version the persist step runs: when the write of the
    configuration file fails the error is returned and nothing is published;
    otherwise [newMap] is published ([.ais.smap] holds it when that write went
    through as well) and no error is returned. *)
Theorem synchronize_by_version (si : Snode) (newSmap : option smapX) (cur : smapX)
    (r : smapOwner) :
  smap r = Some cur →
  (isValid newSmap = Done false →
     synchronize save_error si newSmap r = Done (r, si, Some ErrInvalidSmap))
  ∧ (∀ new, newSmap = Some new → isValid newSmap = Done true →
      (Version new < Version cur →
         synchronize save_error si newSmap r
         = Done (r, si, Some (ErrDowngrade (Version cur) (Version new))))
      ∧ (Version new = Version cur →
         synchronize save_error si newSmap r = Done (r, si, None))
      ∧ (Version cur < Version new →
         (∀ cause, save_error ConfigFile = Some cause →
            synchronize save_error si newSmap r = Done (r, si, Some (ErrWriteConfig cause)))
         ∧ (save_error ConfigFile = None → 0 ≤ Version new →
            ∃ r' si', synchronize save_error si newSmap r = Done (r', si', None)
              ∧ smap r' = Some new
              ∧ config_file (dsk r') = Some (config r')
              ∧ (save_error SmapFile = None → smap_file (dsk r') = Some new)))).
Proof.
  intros Hcur. split.
  - intros Hinv. unfold synchronize. rewrite Hinv. reflexivity.
  - intros new -> Hval.
    destruct (isValid_true_primary _ Hval) as (new' & p & [= <-] & Hp).
    unfold synchronize. rewrite Hval, Hcur. simpl.
    repeat split.
    + intros Hlt. assert (Z.leb (Version new) (Version cur) = true) as -> by lia.
      assert (Z.ltb (Version new) (Version cur) = true) as -> by lia. reflexivity.
    + intros Heq. assert (Z.leb (Version new) (Version cur) = true) as -> by lia.
      assert (Z.ltb (Version new) (Version cur) = false) as -> by lia. reflexivity.
    + intros cause Hc.
      assert (Z.leb (Version new) (Version cur) = false) as -> by lia.
      rewrite (persist_config_failure _ _ _ _ Hp Hc). reflexivity.
    + intros Hc Hv.
      assert (Z.leb (Version new) (Version cur) = false) as -> by lia.
      destruct (persist_config_written new r p Hp Hc)
        as (r1 & -> & Hs1 & Hc1 & Hf1 & Hsf1 & He1). simpl.
      destruct (put_publishes new r1 Hv) as (r2 & -> & Hs2 & Hc2 & Hd2 & He2). simpl.
      rewrite <- Hd2 in Hsf1.
      destruct (GetNode new (ID si)); eexists _, _;
        (split; [reflexivity|]); (split; [exact Hs2|]);
        (split; [by rewrite Hd2, Hc2|]); intros Hsm; by rewrite Hsf1, Hsm.
Qed.

(** C4 (as amended). In [modify], once [pre] has succeeded: a failed write
    of the configuration file is fatal to the attempt: the error is returned
    and the owner, the configuration and the disk are as before; a failed
    write of the [.ais.smap] snapshot is not: it is logged, the clone is
    published and no error is returned. *)
Theorem modify_persist_failure (ctx : smapModifier) (r : smapOwner) (cur c c1 : smapX)
    (p : Snode) :
  smap r = Some cur → clone cur = Done c → pre ctx c = (c1, None) →
  Primary c1 = Some p → 0 ≤ Version c1 →
  (∀ cause, save_error ConfigFile = Some cause →
     modify save_error ctx r = Done (r, Some (ErrPersist (ErrWriteConfig cause))))
  ∧ (∀ cause, save_error ConfigFile = None → save_error SmapFile = Some cause →
     ∃ r', modify save_error ctx r = Done (r', None)
       ∧ smap r' = Some c1
       ∧ smap_file (dsk r') = smap_file (dsk r)
       ∧ LogError ("error writing Smap: " +:+ cause) ∈ events r').
Proof.
  intros Hcur Hclone Hpre Hp Hv. split.
  - intros cause Hc. unfold modify, _runPre, get. rewrite Hcur, Hclone. simpl.
    rewrite Hpre. rewrite (persist_config_failure _ _ _ _ Hp Hc). reflexivity.
  - intros cause Hc Hs. unfold modify, _runPre, get. rewrite Hcur, Hclone. simpl.
    rewrite Hpre.
    destruct (persist_config_written c1 r p Hp Hc)
      as (r1 & -> & Hs1 & Hc1 & Hf1 & Hsf1 & He1). simpl.
    rewrite Hs in Hsf1, He1.
    destruct (put_publishes c1 r1 Hv) as (r2 & -> & Hs2 & Hc2 & Hd2 & He2). simpl.
    assert (LogError ("error writing Smap: " +:+ cause) ∈ events r2) as Hin.
    { rewrite He2, He1. apply elem_of_app. right. apply list_elem_of_singleton. reflexivity. }
    destruct (post ctx), (final ctx); simpl; eexists; (split; [reflexivity|]); simpl;
      rewrite ?Hd2; (split; [exact Hs2|]); (split; [exact Hsf1|]);
      rewrite ?elem_of_app; auto.
Qed.

End Owner.

(** Scenario 6 and its neighbours on the sample owner (version 10): version 8
    is refused as a downgrade and version 10 is a no-op, the owner untouched;
    version 11 is published when the disk works. *)
Lemma synchronize_by_version_witness :
  smapOwner.synchronize disk_ok p0 (Some (withVersion 8 smap10)) owner10
    = Done (owner10, p0, Some (smapOwner.ErrDowngrade 10 8))
  ∧ smapOwner.synchronize disk_ok p0 (Some smap10) owner10 = Done (owner10, p0, None)
  ∧ ∃ r' si', smapOwner.synchronize disk_ok p0 (Some (withVersion 11 smap10)) owner10
              = Done (r', si', None)
      ∧ smapOwner.smap r' = Some (withVersion 11 smap10).
Proof.
  split; [|split].
  - destruct (synchronize_by_version disk_ok p0 (Some (withVersion 8 smap10)) smap10
                owner10 eq_refl) as [_ H].
    destruct (H _ eq_refl eq_refl) as (Hlt & _). apply Hlt. vm_compute. reflexivity.
  - destruct (synchronize_by_version disk_ok p0 (Some smap10) smap10
                owner10 eq_refl) as [_ H].
    destruct (H _ eq_refl eq_refl) as (_ & Heq & _). apply Heq. reflexivity.
  - destruct (synchronize_by_version disk_ok p0 (Some (withVersion 11 smap10)) smap10
                owner10 eq_refl) as [_ H].
    destruct (H _ eq_refl eq_refl) as (_ & _ & Hgt).
    destruct Hgt as [_ Hpub]; [vm_compute; reflexivity|].
    destruct Hpub as (r' & si' & Hsync & Hsmap & _); [reflexivity | vm_compute; discriminate|].
    exists r', si'. split; [exact Hsync | exact Hsmap].
Defined.

(** C3 as stated does not hold: version 11 arrives at an owner that holds
    version 10 while the configuration file cannot be written;
    [synchronize] returns the write error and version 10 stays published. *)
Lemma synchronize_newer_not_published :
  smapOwner.synchronize disk_config_fails p0 (Some (withVersion 11 smap10)) owner10
    = Done (owner10, p0, Some (smapOwner.ErrWriteConfig "EIO"))
  ∧ smapOwner.smap owner10 = Some smap10
  ∧ Version smap10 < Version (withVersion 11 smap10).
Proof. split; [vm_compute; reflexivity|]. split; [reflexivity|]. vm_compute. reflexivity. Qed.

Lemma modify_persist_failure_witness :
  (∀ cause, disk_smap_fails smapOwner.ConfigFile = Some cause →
     smapOwner.modify disk_smap_fails join_p1 owner10
     = Done (owner10, Some (smapOwner.ErrPersist (smapOwner.ErrWriteConfig cause))))
  ∧ (∀ cause, disk_smap_fails smapOwner.ConfigFile = None →
       disk_smap_fails smapOwner.SmapFile = Some cause →
     ∃ r', smapOwner.modify disk_smap_fails join_p1 owner10 = Done (r', None)
       ∧ smapOwner.smap r' = Some (withVersion 11 (withPmap (<["p1" := p1]> (Pmap smap10)) smap10))
       ∧ smapOwner.smap_file (smapOwner.dsk r') = smapOwner.smap_file (smapOwner.dsk owner10)
       ∧ smapOwner.LogError ("error writing Smap: " +:+ cause) ∈ smapOwner.events r').
Proof.
  apply (modify_persist_failure disk_smap_fails join_p1 owner10 smap10 smap10
           (withVersion 11 (withPmap (<["p1" := p1]> (Pmap smap10)) smap10)) p0).
  - reflexivity.
  - vm_compute. reflexivity.
  - vm_compute. reflexivity.
  - reflexivity.
  - vm_compute. discriminate.
Defined.

(** C4 as stated does not hold for the write of [.ais.smap]: when that
    write fails, [modify] returns no error and publishes the clone (version
    11, with proxy [p1]), while the snapshot on disk still holds version 10. *)
Lemma modify_publishes_despite_snapshot_failure :
  ∃ r', smapOwner.modify disk_smap_fails join_p1 owner10 = Done (r', None)
    ∧ Version <$> smapOwner.smap r' = Some 11
    ∧ Version <$> smapOwner.smap owner10 = Some 10
    ∧ Version <$> smapOwner.smap_file (smapOwner.dsk r') = Some 10.
Proof. eexists. split; [vm_compute; reflexivity|]. repeat split. Qed.

(** ** The information council *)

Section InformationCouncil.

Lemma IsSet_Clear_same (f mask : SnodeFlags) :
  mask ≠ 0%N → IsSet (Clear f mask) mask = false.
Proof.
  intros Hm. unfold IsSet, Clear. rewrite N.land_ldiff.
  apply N.eqb_neq. congruence.
Qed.

(** The coupled rule of [setNodeFlags]: setting any bit of the maintenance
    mask leaves the node without the IC flag. *)
Lemma setNodeFlags_maintenance_clears_IC (sid : string) (flags : SnodeFlags) (m m' : smapX) :
  IsAnySet flags SnodeMaintenanceMask = true →
  setNodeFlags sid flags m = Done m' →
  ∃ si si', GetNode m sid = Some si
    ∧ roleMap (DaemonType si) m' !! ID si = Some si'
    ∧ isIC si' = false.
Proof.
  intros Hany H. unfold setNodeFlags in H. rewrite Hany in H.
  destruct (GetNode m sid) as [si|]; [|discriminate].
  injection H as <-. exists si. eexists. split; [reflexivity|].
  unfold _applyFlags, IsTarget. simpl.
  destruct (DaemonType si); simpl; (split; [apply lookup_insert_eq|]);
    unfold isIC; simpl; by apply IsSet_Clear_same.
Qed.

(** C6 at the failing input. [smap_maint] has the primary [p0] in the IC and
    the proxy [p1] in maintenance, without the IC flag. [staffIC] returns a map
    in which [p1] carries both the maintenance and the IC flag; the loop of
    [_fillIC] does so whichever of the two proxies it visits first. *)
Theorem staffIC_enlists_proxy_in_maintenance :
  (isIC p1_maint = false ∧ IsAnySet (Flags p1_maint) SnodeMaintenanceMask = true)
  ∧ (∃ m', staffIC map_to_list smap_maint = Done m'
       ∧ Flags <$> (Pmap m' !! "p1") = Some (N.lor SnodeMaintenance SnodeIC))
  ∧ (∀ keys, keys = ["p0"; "p1"] ∨ keys = ["p1"; "p0"] →
       ∃ m', _fillIC_loop keys smap_maint = Done m'
         ∧ ∃ si, Pmap m' !! "p1" = Some si
             ∧ isIC si = true ∧ IsAnySet (Flags si) SnodeMaintenanceMask = true).
Proof.
  split; [split; reflexivity|]. split.
  - eexists. split; vm_compute; reflexivity.
  - intros keys [-> | ->]; eexists; (split; [vm_compute; reflexivity|]);
      eexists; (split; [vm_compute; reflexivity|]); split; reflexivity.
Qed.

Lemma staffIC_enlists_proxy_in_maintenance_witness :
  ∃ m', _fillIC_loop ["p1"; "p0"] smap_maint = Done m'
    ∧ ∃ si, Pmap m' !! "p1" = Some si
        ∧ isIC si = true ∧ IsAnySet (Flags si) SnodeMaintenanceMask = true.
Proof.
  destruct staffIC_enlists_proxy_in_maintenance as (_ & _ & H).
  apply (H ["p1"; "p0"]). right. reflexivity.
Defined.

End InformationCouncil.

(** ** The create-bucket transaction *)

Section CreateBucket.

Import txn.

Variable respond : string → phase → Z.
Variable range : NodeMap → list (string * Snode).
Hypothesis range_perm : ∀ m : NodeMap, range m ≡ₚ map_to_list m.

Lemma range_covers (m : NodeMap) (id : string) (tsi : Snode) :
  m !! id = Some tsi → tsi ∈ (range m).*2.
Proof using range_perm.
  intros Hl. apply elem_of_map_to_list in Hl. rewrite <- range_perm in Hl.
  apply (list_elem_of_fmap_2 snd) in Hl. exact Hl.
Qed.

Lemma first_err_failing (ph : phase) (targets : list Snode) (tsi : Snode) :
  tsi ∈ targets → ¬ (200 ≤ respond (ID tsi) ph < 300) →
  ∃ t, t ∈ targets ∧ ¬ (200 ≤ respond (ID t) ph < 300)
    ∧ first_err (call respond ph <$> targets) = Some (ErrHTTP (ID t) (respond (ID t) ph)).
Proof.
  induction targets as [|t0 rest IH]; intros Hin Hbad.
  - by apply elem_of_nil in Hin.
  - destruct (decide (200 ≤ respond (ID t0) ph < 300)) as [Hok|Hko].
    + apply elem_of_cons in Hin as [-> | Hin]; [contradiction|].
      destruct (IH Hin Hbad) as (t & Ht & Hbt & Hfe).
      exists t. split; [by apply elem_of_cons; right|]. split; [exact Hbt|].
      unfold first_err in *. simpl. unfold call at 1. simpl.
      assert (Z.leb 200 (respond (ID t0) ph) && Z.ltb (respond (ID t0) ph) 300 = true)
        as -> by (apply andb_true_intro; lia).
      exact Hfe.
    + exists t0. split; [by apply elem_of_cons; left|]. split; [exact Hko|].
      unfold first_err. simpl. unfold call at 1. simpl.
      assert (Z.leb 200 (respond (ID t0) ph) && Z.ltb (respond (ID t0) ph) 300 = false)
        as -> by (apply andb_false_iff; lia).
      reflexivity.
Qed.

(** C1. Create-bucket for a bucket that is not yet in the BMD, when some
    target of the cluster map answers begin with a non-2xx status: every
    target is sent begin, then every target is sent abort (whatever the
    targets answer to abort), the call returns the begin error of a
    target that failed, and the BMD (version and buckets) and the cluster
    map are those from before the call; nothing else is sent. *)
Theorem createBucket_begin_failure_aborts (uuid : string) (bck : Bck)
    (bckProps cloudProps : option BucketProps) (p : proxyrunner)
    (tid : string) (tsi : Snode) :
  Buckets (bmd p) !! bck = None →
  Tmap (smap p) !! tid = Some tsi →
  ¬ (200 ≤ respond (ID tsi) ActBegin < 300) →
  ∃ t p',
    createBucket respond range uuid bck bckProps cloudProps p
    = Done (p', Some (ErrHTTP (ID t) (respond (ID t) ActBegin)))
    ∧ t ∈ (range (Tmap (smap p))).*2
    ∧ ¬ (200 ≤ respond (ID t) ActBegin < 300)
    ∧ sent p' = sent p
                ++ ((λ t, Post (ID t) ActBegin uuid) <$> (range (Tmap (smap p))).*2)
                ++ ((λ t, Post (ID t) ActAbort uuid) <$> (range (Tmap (smap p))).*2)
    ∧ bmd p' = bmd p
    ∧ smap p' = smap p.
Proof using range_perm.
  intros Hnew Htsi Hbad.
  destruct (first_err_failing ActBegin _ tsi (range_covers _ _ _ Htsi) Hbad)
    as (t & Ht & Hbt & Hfe).
  exists t. eexists. unfold createBucket. rewrite Hnew. simpl.
  rewrite Hfe. simpl. split; [reflexivity|]. simpl.
  repeat split; try assumption. by rewrite <- app_assoc.
Qed.

End CreateBucket.

(** Scenario 2: [t2] answers 500 to begin. [t1] and [t2] each receive begin
    and then abort, the BMD stays at version 0 and the caller gets the
    error of [t2]. *)
Lemma createBucket_begin_failure_aborts_witness :
  ∃ t p',
    txn.createBucket t2_fails_begin map_to_list "U" foo None None proxy0
    = Done (p', Some (txn.ErrHTTP (ID t) (t2_fails_begin (ID t) txn.ActBegin)))
    ∧ t ∈ (map_to_list (Tmap (txn.smap proxy0))).*2
    ∧ ¬ (200 ≤ t2_fails_begin (ID t) txn.ActBegin < 300)
    ∧ txn.sent p' = txn.sent proxy0
        ++ ((λ t, txn.Post (ID t) txn.ActBegin "U") <$> (map_to_list (Tmap (txn.smap proxy0))).*2)
        ++ ((λ t, txn.Post (ID t) txn.ActAbort "U") <$> (map_to_list (Tmap (txn.smap proxy0))).*2)
    ∧ txn.bmd p' = txn.bmd proxy0
    ∧ txn.smap p' = txn.smap proxy0.
Proof.
  apply (createBucket_begin_failure_aborts t2_fails_begin map_to_list
           (λ m, reflexivity (map_to_list m)) "U" foo None None proxy0 "t2" t2).
  - reflexivity.
  - vm_compute. reflexivity.
  - vm_compute. intros [_ H]. discriminate H.
Defined.

(** The trace of Scenario 2, computed. *)
Example createBucket_scenario_2 :
  ∃ p', txn.createBucket t2_fails_begin map_to_list "U" foo None None proxy0
        = Done (p', Some (txn.ErrHTTP "t2" 500))
    ∧ txn.BMDVersion (txn.bmd p') = 0
    ∧ filter (λ e, e = txn.Post "t1" txn.ActBegin "U" ∨ e = txn.Post "t1" txn.ActAbort "U")
             (txn.sent p')
      = [txn.Post "t1" txn.ActBegin "U"; txn.Post "t1" txn.ActAbort "U"]
    ∧ filter (λ e, e = txn.Post "t2" txn.ActBegin "U" ∨ e = txn.Post "t2" txn.ActAbort "U")
             (txn.sent p')
      = [txn.Post "t2" txn.ActBegin "U"; txn.Post "t2" txn.ActAbort "U"].
Proof.
  eexists. split; [vm_compute; reflexivity|]. split; [reflexivity|].
  split; vm_compute; reflexivity.
Qed.

(** ** The notification registry: [callback] runs the user callback once *)

Section CallbackOnce.

Import notifs.

Lemma sum_list_with_insert {A} (g : A → nat) (l : list A) (i : nat) (x y : A) :
  l !! i = Some x →
  (sum_list_with g (<[i := y]> l) + g x = sum_list_with g l + g y)%nat.
Proof.
  revert i. induction l as [|z l IH]; intros [|i] Hl; simpl in *; try discriminate.
  - injection Hl as ->. lia.
  - specialize (IH i Hl). lia.
Qed.

Lemma sum_list_with_lookup_le {A} (g : A → nat) (l : list A) (i : nat) (x : A) :
  l !! i = Some x → (g x ≤ sum_list_with g l)%nat.
Proof.
  revert i. induction l as [|z l IH]; intros [|i] Hl; simpl in *; try discriminate.
  - injection Hl as ->. lia.
  - specialize (IH i Hl). lia.
Qed.

Lemma entering_inv (atts : list attempt) :
  Forall entering atts → callback_inv (atts, fresh_cb).
Proof.
  intros Hall.
  assert (sum_list_with wins atts = 0 ∧ sum_list_with invs atts = 0
          ∧ sum_list_with started atts = 0 ∧ sum_list_with exited atts = 0)%nat
    as (Hw & Hi & Hs & He).
  { induction Hall as [|a atts [Ha _] _ (IH1 & IH2 & IH3 & IH4)]; simpl; [auto|].
    rewrite IH1, IH2, IH3, IH4. unfold wins, invs, started, exited. rewrite Ha. auto. }
  split; simpl; try done.
  eapply Forall_impl; [exact Hall|]. by intros a [_ ?].
Qed.

Lemma counts_at (a : attempt) (p : pc) :
  at_ a = p →
  wins a = match p with AtInvoke | AtStore | AtFin | Exit => 1%nat | _ => 0%nat end
  ∧ invs a = match p with AtStore | AtFin | Exit => 1%nat | _ => 0%nat end
  ∧ started a = match p with AtCAS => 0%nat | _ => 1%nat end
  ∧ exited a = match p with Exit => 1%nat | _ => 0%nat end.
Proof. intros <-. done. Qed.

Lemma counts_moved (a : attempt) (to : pc) :
  wins (moved a to) = match to with AtInvoke | AtStore | AtFin | Exit => 1%nat | _ => 0%nat end
  ∧ invs (moved a to) = match to with AtStore | AtFin | Exit => 1%nat | _ => 0%nat end
  ∧ started (moved a to) = match to with AtCAS => 0%nat | _ => 1%nat end
  ∧ exited (moved a to) = match to with Exit => 1%nat | _ => 0%nat end.
Proof. by apply counts_at. Qed.

Lemma step_preserves_inv (x y : list attempt * cbstate) :
  step x y → callback_inv x → callback_inv y.
Proof.
  intros Hstep [Hnow Hf Ht Hw Hi Hidle Hfin].
  destruct Hstep as [i a a' atts s s' Hai Hcs]. simpl in *.
  pose proof (sum_list_with_insert wins atts i a a' Hai) as Sw.
  pose proof (sum_list_with_insert invs atts i a a' Hai) as Si.
  pose proof (sum_list_with_insert started atts i a a' Hai) as Ss.
  pose proof (sum_list_with_insert exited atts i a a' Hai) as Se.
  pose proof (sum_list_with_lookup_le started atts i a Hai) as Ls.
  assert (0 < now a) as Hna by (eapply (proj1 (Forall_lookup _ _) Hnow); eauto).
  assert (cb_tfin s = 0 ∧ sum_list_with started atts = 0%nat ∨ cb_tfin s ≠ 0) as Hcase.
  { destruct (decide (cb_tfin s = 0)) as [Hz|Hnz]; [left; split; auto | by right]. }
  unfold callback_step in Hcs.
  destruct (at_ a) eqn:Hat; try discriminate;
    destruct (counts_at a _ Hat) as (Ew & Ei & Es & Ee);
    rewrite Ew in Sw; rewrite Ei in Si; rewrite Es in Ss, Ls; rewrite Ee in Se;
    clear Ew Ei Es Ee;
    [destruct (Z.eqb_spec (cb_tfin s) 0) as [Hz|Hnz]| | |];
    injection Hcs as <- <-;
    match goal with
    | |- context [moved a ?to] =>
      destruct (counts_moved a to) as (Ew & Ei & Es & Ee);
      rewrite Ew in Sw; rewrite Ei in Si; rewrite Es in Ss; rewrite Ee in Se
    end;
    rewrite ?Hf; simpl in *;
    (split; simpl;
     [ apply Forall_insert; assumption
     | done
     | lia
     | destruct Hcase as [[Hz' Hid]|Hnz']; repeat case_decide; lia
     | rewrite ?length_app; simpl; lia
     | intros Hx; destruct Hcase as [[Hz' Hid]|Hnz']; lia
     | intros Hx; try discriminate; specialize (Hfin Hx); lia ]).
Qed.

Lemma steps_preserve_inv (x y : list attempt * cbstate) :
  rtc step x y → callback_inv x → callback_inv y.
Proof.
  induction 1 as [|x y z Hxy _ IH]; [done|].
  intros Hx. apply IH. by eapply step_preserves_inv.
Qed.

Lemma steps_length (x y : list attempt * cbstate) :
  rtc step x y → length y.1 = length x.1.
Proof.
  induction 1 as [|x y z Hxy _ IH]; [done|].
  rewrite IH. destruct Hxy. simpl. apply length_insert.
Qed.

Lemma returned_sums (atts : list attempt) :
  Forall (λ a, returned a = true) atts →
  sum_list_with wins atts = sum_list_with invs atts
  ∧ sum_list_with wins atts = sum_list_with exited atts
  ∧ (atts ≠ [] → (0 < sum_list_with started atts)%nat).
Proof.
  induction 1 as [|a atts Ha _ (IH1 & IH2 & IH3)]; simpl; [done|].
  unfold returned in Ha.
  destruct (at_ a) eqn:Hat; try discriminate;
    destruct (counts_at a _ Hat) as (-> & -> & -> & ->); repeat split; lia.
Qed.

Lemma remaining_zero (atts : list attempt) :
  sum_list_with remaining atts = 0%nat → Forall (λ a, returned a = true) atts.
Proof.
  induction atts as [|a atts IH]; simpl; [by constructor|].
  intros Hsum. constructor; [|apply IH; lia].
  assert (remaining a = 0%nat) as Hr by lia.
  unfold remaining in Hr. unfold returned. destruct (at_ a); simpl in *; try lia; done.
Qed.

Lemma remaining_pos (atts : list attempt) :
  (0 < sum_list_with remaining atts)%nat →
  ∃ i a, atts !! i = Some a ∧ (0 < remaining a)%nat.
Proof.
  induction atts as [|a atts IH]; simpl; [lia|].
  intros Hsum. destruct (decide (0 < remaining a)%nat) as [Ha|Ha].
  - exists 0%nat, a. done.
  - destruct IH as (i & b & Hb & Hr); [lia|]. by exists (S i), b.
Qed.

(** Every attempt that has not returned can take a step, and the steps
    still to take decrease: the attempts can always be run to the end. *)
Lemma attempts_complete (k : nat) :
  ∀ atts s, (sum_list_with remaining atts ≤ k)%nat →
  ∃ atts' s', rtc step (atts, s) (atts', s') ∧ Forall (λ a, returned a = true) atts'.
Proof.
  induction k as [|k IH]; intros atts s Hk.
  - exists atts, s. split; [done|]. apply remaining_zero. lia.
  - destruct (decide (sum_list_with remaining atts = 0)%nat) as [Hz|Hnz].
    { exists atts, s. split; [done|]. by apply remaining_zero. }
    destruct (remaining_pos atts) as (i & a & Hai & Hr); [lia|].
    assert (∃ a' s', callback_step a s = Some (a', s') ∧ (remaining a' < remaining a)%nat)
      as (a' & s' & Hcs & Hlt).
    { unfold callback_step, remaining in *. destruct (at_ a) eqn:Hat; simpl in Hr; try lia.
      - destruct (Z.eqb (cb_tfin s) 0); eexists _, _; (split; [reflexivity|]); simpl; lia.
      - eexists _, _; (split; [reflexivity|]); simpl; lia.
      - eexists _, _; (split; [reflexivity|]); simpl; lia.
      - eexists _, _; (split; [reflexivity|]); simpl; lia. }
    pose proof (sum_list_with_insert remaining atts i a a' Hai) as Sr.
    destruct (IH (<[i := a']> atts) s') as (atts'' & s'' & Hrtc & Hall); [lia|].
    exists atts'', s''. split; [|exact Hall].
    eapply rtc_l; [|exact Hrtc]. by econstructor.
Qed.

(** C2. On a listener whose callback is set, take any number (at least one)
    of terminal events, each entering [callback] with a positive clock
    reading, and let their calls interleave in any way. At every moment
    the user callback has been invoked at most once; from every moment
    the calls can run to their return; and once all have returned the
    callback has been invoked exactly once, the listener carries a
    positive finish time and is in [fin]. *)
Theorem callback_invoked_exactly_once (atts atts' : list attempt) (s' : cbstate) :
  atts ≠ [] → Forall entering atts →
  rtc step (atts, fresh_cb) (atts', s') →
  (length (cb_invoked s') ≤ 1)%nat
  ∧ (Forall (λ a, returned a = true) atts' →
     length (cb_invoked s') = 1%nat ∧ 0 < cb_tfin s' ∧ cb_fin s' = true)
  ∧ (∃ atts'' s'', rtc step (atts', s') (atts'', s'')
       ∧ Forall (λ a, returned a = true) atts'').
Proof.
  intros Hne Hent Hrun.
  pose proof (steps_preserve_inv _ _ Hrun (entering_inv _ Hent))
    as [Hnow Hf Ht Hw Hi Hidle Hfin]. simpl in *.
  pose proof (steps_length _ _ Hrun) as Hlen. simpl in Hlen.
  split; [|split].
  - assert (sum_list_with invs atts' ≤ sum_list_with wins atts')%nat.
    { clear. induction atts' as [|a l IH]; simpl; [lia|].
      unfold invs at 1, wins at 1. destruct (at_ a); lia. }
    destruct (decide (cb_tfin s' = 0)); lia.
  - intros Hall. destruct (returned_sums _ Hall) as (Hwi & Hwe & Hst).
    assert (atts' ≠ []) as Hne' by (intros ->; destruct atts; [done|discriminate]).
    specialize (Hst Hne').
    destruct (decide (cb_tfin s' = 0)) as [Hz|Hnz]; [specialize (Hidle Hz); lia|].
    split; [lia|]. split; [lia|].
    destruct (cb_fin s'); [done|]. specialize (Hfin eq_refl). lia.
  - by apply (attempts_complete (sum_list_with remaining atts')).
Qed.

End CallbackOnce.

Lemma callback_invoked_exactly_once_witness :
  (length (notifs.cb_invoked after_two_events) ≤ 1)%nat
  ∧ (Forall (λ a, notifs.returned a = true) two_events_returned →
     length (notifs.cb_invoked after_two_events) = 1%nat
     ∧ 0 < notifs.cb_tfin after_two_events ∧ notifs.cb_fin after_two_events = true)
  ∧ (∃ atts'' s'', rtc notifs.step (two_events_returned, after_two_events) (atts'', s'')
       ∧ Forall (λ a, notifs.returned a = true) atts'').
Proof.
  apply (callback_invoked_exactly_once two_events two_events_returned after_two_events).
  - discriminate.
  - repeat constructor.
  - eapply rtc_l; [eapply (notifs.step_attempt 0); reflexivity|]. simpl.
    eapply rtc_l; [eapply (notifs.step_attempt 1); reflexivity|]. simpl.
    eapply rtc_l; [eapply (notifs.step_attempt 0); reflexivity|]. simpl.
    eapply rtc_l; [eapply (notifs.step_attempt 0); reflexivity|]. simpl.
    eapply rtc_l; [eapply (notifs.step_attempt 0); reflexivity|]. simpl.
    apply rtc_refl.
Defined.

(** ** The notification registry: every path to [callback] *)

Section RegistryPaths.

Import notifs.

Variable range_running : gset string → list string.
Variable range_srcs : gmap string (option Snode) → list (string * option Snode).

Lemma foldl_ind_r' {A B} (P : A → Prop) (g : A → B → A) (a : A) (l : list B) :
  P a → (∀ acc x, P acc → P (g acc x)) → P (foldl g a l).
Proof.
  intros Ha Hg. revert a Ha. induction l as [|x l IH]; intros a Ha; simpl; [done|].
  apply IH. by apply Hg.
Qed.

Lemma core_addErr (sid : string) (e : error) (nl : notifListenerBase) :
  core (addErr sid e nl) = core nl.
Proof. reflexivity. Qed.

Lemma core_handleMsg (nl : notifListenerBase) (t : string) (e : option error) :
  core (handleMsg nl t e).1 = core nl.
Proof.
  unfold handleMsg. destruct (notifiers nl !! t) as [[tsi|]|]; try reflexivity.
  by destruct e.
Qed.

Lemma core_hkXact (nl : notifListenerBase) (res : callResult) :
  core (hkXact nl res).1.1.1 = core nl.
Proof.
  unfold hkXact. destruct (res_decoded res), (res_finished res), (res_aborted res);
    simpl; try reflexivity.
  pose proof (core_handleMsg nl (res_si res) None) as H.
  by destruct (handleMsg nl (res_si res) None) as [? [[? ?] ?]].
Qed.

Lemma inv_store (nl nl' : notifListenerBase) (n : notifs) :
  invoked_once_inv n → nls n !! uuid nl = Some nl → core nl' = core nl →
  invoked_once_inv (store nl' n) ∧ nls (store nl' n) !! uuid nl' = Some nl'.
Proof.
  intros Hinv Hl [= Hu Ht Hf]. split; [|simpl; apply lookup_insert_eq].
  intros id x Hx. simpl in Hx. rewrite Hu in Hx.
  destruct (decide (uuid nl = id)) as [<-|Hne].
  - rewrite lookup_insert_eq in Hx. injection Hx as <-.
    destruct (Hinv _ _ Hl) as (_ & H0 & Hc). rewrite Hu, Ht, Hf. done.
  - rewrite lookup_insert_ne in Hx by done. by apply Hinv.
Qed.

Lemma callback_run_from_entry (c : terminal) (now_ t : Z) (f0 in_fin : bool) :
  callback_run 4 (mkAttempt c now_ AtCAS) (mkCb t f0 [] in_fin)
  = if Z.eqb t 0 then mkCb now_ f0 (if f0 then [c] else []) true
    else mkCb t f0 [] in_fin.
Proof.
  unfold callback_run, callback_step. simpl.
  destruct (Z.eqb t 0), f0; reflexivity.
Qed.

Lemma inv_callback (c : terminal) (now_ : Z) (nl : notifListenerBase) (n : notifs) :
  invoked_once_inv n → nls n !! uuid nl = Some nl → 0 < now_ →
  invoked_once_inv (callback c now_ nl n).
Proof.
  intros Hinv Hl Hnow id x Hx.
  destruct (Hinv _ _ Hl) as (_ & H0 & Hc).
  unfold callback in *. rewrite callback_run_from_entry in *.
  unfold invocations in *. simpl in *.
  rewrite filter_app, length_app.
  destruct (decide (uuid nl = id)) as [<-|Hne].
  - rewrite lookup_insert_eq in Hx. injection Hx as <-. simpl.
    split; [done|].
    destruct (Z.eqb_spec (tfin nl) 0) as [Hz|Hnz]; simpl.
    + rewrite Hz in Hc. rewrite bool_decide_true in Hc by done.
      rewrite bool_decide_false by lia. split; [lia|].
      destruct (f nl); simpl; rewrite Hc; [|done].
      rewrite filter_cons_True by done. done.
    + split; [done|]. rewrite Hc. simpl. lia.
  - rewrite lookup_insert_ne in Hx by done.
    destruct (Hinv _ _ Hx) as (Hu & Hx0 & Hxc). split; [done|]. split; [done|].
    unfold invocations in Hxc. rewrite Hxc.
    match goal with
    | |- context [filter ?P (?g <$> ?l)] =>
      assert (filter P (g <$> l) = []) as ->
    end.
    { destruct (Z.eqb (tfin nl) 0); simpl; [|done].
      destruct (f nl); simpl; [|done].
      rewrite filter_cons_False by (simpl; congruence). done. }
    simpl. lia.
Qed.

Lemma inv_frame (n : notifs) (m' fin' : gset string) (v : Z) :
  invoked_once_inv n → invoked_once_inv (mkNotifs (nls n) m' fin' (invoked n) v).
Proof. intros H id x Hx. exact (H id x Hx). Qed.

Lemma inv_del (nl : notifListenerBase) (n : notifs) :
  invoked_once_inv n → invoked_once_inv (del nl n).
Proof. apply inv_frame. Qed.

(** Storing a listener that was only touched outside of what [callback]
    looks at, then perhaps calling [callback] and deleting it from the
    running map. *)
Lemma inv_store_callback_del (c : terminal) (now_ : Z) (nl nl' : notifListenerBase)
    (done_ : bool) (n : notifs) :
  invoked_once_inv n → nls n !! uuid nl = Some nl → core nl' = core nl → 0 < now_ →
  invoked_once_inv (if done_ then del nl' (callback c now_ nl' (store nl' n)) else store nl' n).
Proof.
  intros Hinv Hl Hcore Hnow.
  destruct (inv_store nl nl' n Hinv Hl Hcore) as [Hs Hl'].
  destruct done_; [|exact Hs]. apply inv_del. by apply inv_callback.
Qed.

Lemma inv_handler (now_ : Z) (r : request) (n n' : notifs) (resp : response) :
  invoked_once_inv n → 0 < now_ →
  handler now_ r n = Done (n', resp) → invoked_once_inv n'.
Proof.
  intros Hinv Hnow H. unfold handler in H.
  destruct (negb (String.eqb (method r) "POST")); [by injection H as <- _|].
  destruct (negb (Z.eqb (msgTy r) notifXact)); [by injection H as <- _|].
  destruct (entry (msgUUID r) n) as [nl|] eqn:Hentry; [|by injection H as <- _].
  destruct (finished nl); [by injection H as <- _|].
  destruct (Z.eqb (ty nl) (msgTy r)); simpl in H; [|discriminate].
  assert (nls n !! msgUUID r = Some nl) as Hl.
  { unfold entry in Hentry. repeat case_bool_decide; done. }
  destruct (Hinv _ _ Hl) as (Hu & _). rewrite <- Hu in Hl.
  pose proof (core_handleMsg nl (tid r) (msgErr r)) as Hcore.
  destruct (handleMsg nl (tid r) (msgErr r)) as [nl1 [[err st] d]]. simpl in Hcore.
  pose proof (inv_store_callback_del PushCompleted now_ nl nl1 d n Hinv Hl Hcore Hnow) as Hres.
  destruct err; injection H as <- _; exact Hres.
Qed.

Lemma inv_housekeep_results (now_ : Z) (id : string) (results : list callResult) :
  0 < now_ → ∀ n, invoked_once_inv n → invoked_once_inv (housekeep_results now_ id results n).
Proof.
  intros Hnow. induction results as [|res rest IH]; intros n Hinv; simpl; [done|].
  destruct (nls n !! id) as [nl|] eqn:Hl; [|done].
  destruct (Hinv _ _ Hl) as (Hu & _). rewrite <- Hu in Hl.
  assert (∀ nl1 (err : option error) (d : bool) c, core nl1 = core nl →
            invoked_once_inv (if d then del nl1 (callback c now_ nl1 (store nl1 n))
                              else housekeep_results now_ id rest (store nl1 n))) as Hstep.
  { intros nl1 err d c Hcore.
    pose proof (inv_store_callback_del c now_ nl nl1 d n Hinv Hl Hcore Hnow) as Hres.
    destruct d; [exact Hres | by apply IH]. }
  destruct (negb (res_err res)).
  - pose proof (core_hkXact nl res) as Hcore.
    destruct (hkXact nl res) as [[[nl1 err] d] c]. by apply (Hstep nl1 err d c).
  - destruct (Z.eqb (res_status res) StatusNotFound).
    + by apply (Hstep _ (Some (ErrNotFoundAt (res_si res))) true PullNotFound).
    + by apply (Hstep nl None false PullNotFound).
Qed.

Lemma inv_housekeep (bcastGet : string → list callResult) (now_ : Z) (n : notifs) :
  0 < now_ → invoked_once_inv n →
  invoked_once_inv (housekeep bcastGet range_running now_ n).
Proof.
  intros Hnow Hinv. unfold housekeep.
  apply (foldl_ind_r' invoked_once_inv).
  - by apply inv_frame.
  - intros acc id Hacc. by apply inv_housekeep_results.
Qed.

Lemma inv_ListenSmapChanged (started : bool) (now_ : Z) (smap : smapX) (n : notifs) :
  0 < now_ → invoked_once_inv n →
  invoked_once_inv (ListenSmapChanged range_running range_srcs started now_ smap n).
Proof.
  intros Hnow Hinv. unfold ListenSmapChanged.
  destruct (negb started); [done|].
  destruct (Z.leb (Version smap) (smapVer n)); [done|].
  apply (foldl_ind_r' invoked_once_inv).
  - apply (foldl_ind_r' invoked_once_inv).
    + by apply inv_frame.
    + intros acc [id sid] Hacc. destruct (nls acc !! id) as [nl|] eqn:Hl; [|done].
      destruct (Hacc _ _ Hl) as (Hu & _). rewrite <- Hu in Hl.
      destruct (inv_store nl (addErr sid (ErrNodeNotFound sid) nl) acc Hacc Hl eq_refl)
        as [Hs Hl'].
      by apply inv_callback.
  - intros acc [id sid] Hacc. destruct (nls acc !! id); [by apply inv_del | done].
Qed.

(** Whatever reports, housekeeping rounds and cluster-map changes reach the
    registry, with positive clock readings: no listener has its callback
    invoked twice, and a listener that has finished and has a callback has
    had it invoked exactly once. *)
Theorem registry_invokes_each_callback_once (ops : list registry_op) (n n' : notifs) :
  invoked_once_inv n → Forall (λ o, 0 < op_now o) ops →
  exec_all range_running range_srcs ops n = Done n' →
  invoked_once_inv n'
  ∧ ∀ id nl, nls n' !! id = Some nl →
      (invocations id n' ≤ 1)%nat
      ∧ (finished nl = true → f nl = true → invocations id n' = 1%nat).
Proof.
  intros Hinv Hops Hrun.
  assert (invoked_once_inv n') as Hinv'.
  { revert n Hinv Hrun. induction Hops as [|o ops Ho _ IH]; intros n Hinv Hrun; simpl in Hrun.
    - by injection Hrun as <-.
    - destruct (exec range_running range_srcs o n) as [n1|] eqn:He; [|discriminate].
      simpl in Hrun. apply (IH n1); [|exact Hrun].
      destruct o as [t r|t b|t sm]; simpl in He, Ho.
      + destruct (handler t r n) as [[n2 resp]|] eqn:Hh; [|discriminate].
        injection He as <-. by eapply inv_handler.
      + injection He as <-. by apply inv_housekeep.
      + injection He as <-. by apply inv_ListenSmapChanged. }
  split; [exact Hinv'|]. intros id nl Hl.
  destruct (Hinv' _ _ Hl) as (_ & H0 & Hc). rewrite Hc. split.
  - case_bool_decide; [lia|]. destruct (f nl); lia.
  - unfold finished, finTime. intros Hfin ->.
    rewrite bool_decide_false; [done|]. lia.
Qed.

End RegistryPaths.

(** ** The notification registry: reports that are replayed *)

Section ReplayedReport.

Import notifs.

Lemma handleMsg_duplicate (nl : notifListenerBase) (t : string) (e : option error) :
  srcs nl !! t = Some None →
  handleMsg nl t e = (nl, (Some (ErrDuplicate t), 0, false)).
Proof. intros H. unfold handleMsg, notifiers. by rewrite H. Qed.

Lemma handleMsg_accepted (nl nl' : notifListenerBase) (t : string) (e : option error)
    (st : Z) (d : bool) :
  handleMsg nl t e = (nl', (None, st, d)) →
  srcs nl' !! t = Some None ∧ uuid nl' = uuid nl ∧ ty nl' = ty nl ∧ tfin nl' = tfin nl
  ∧ (rc_counts_reports nl → rc_counts_reports nl').
Proof.
  unfold handleMsg, notifiers. destruct (srcs nl !! t) as [[tsi|]|] eqn:Hs; try discriminate.
  intros [= <- _ _]. destruct e as [e|]; simpl; rewrite lookup_insert_eq;
    (repeat split; try done); unfold rc_counts_reports; simpl; intros ->;
    (rewrite map_filter_insert_True by done);
    (rewrite map_size_insert_None by (apply map_lookup_filter_None; right;
       intros x Hx; rewrite Hs in Hx; injection Hx as <-; simpl; discriminate));
    lia.
Qed.

Lemma rc_within_sources (nl : notifListenerBase) :
  rc_counts_reports nl → rc nl ≤ Z.of_nat (size (srcs nl)).
Proof.
  unfold rc_counts_reports. intros ->. apply inj_le.
  apply map_subseteq_size, map_filter_subseteq.
Qed.

Lemma store_same (nl : notifListenerBase) (n : notifs) :
  nls n !! uuid nl = Some nl → store nl n = n.
Proof.
  intros H. unfold store. rewrite insert_id by exact H. by destruct n.
Qed.

(** A report from a source whose slot is already nil (or for a listener
    that is finished, or gone) is answered with an error and changes nothing. *)
Lemma handler_replay (now_ : Z) (r : request) (n : notifs) :
  String.eqb (method r) "POST" = true → Z.eqb (msgTy r) notifXact = true →
  (∀ nl, entry (msgUUID r) n = Some nl →
     nls n !! uuid nl = Some nl ∧ srcs nl !! tid r = Some None ∧ ty nl = msgTy r) →
  ∃ st e, handler now_ r n = Done (n, Invalid st e).
Proof.
  intros Hm Hty Hnl. unfold handler. rewrite Hm, Hty. simpl.
  destruct (entry (msgUUID r) n) as [nl|]; [|by eauto].
  destruct (Hnl nl eq_refl) as (Hstored & Hslot & Htynl).
  destruct (finished nl); [by eauto|].
  rewrite Htynl, Z.eqb_refl. simpl.
  rewrite (handleMsg_duplicate _ _ _ Hslot). simpl.
  rewrite (store_same _ _ Hstored). eauto.
Qed.

(** C8 (as amended). In a well-formed registry, once a completion report has
    been accepted, the same report sent again, at any later time, leaves the
    registry exactly as it is: no refcount moves, no slot, error or finish
    time changes, no callback runs. It is not silent: the handler answers it
    with an error. The registry stays well formed, so every refcount is at
    most the number of expected sources. *)
Theorem replayed_report_is_refused_without_effect (now_ : Z) (r : request) (n n1 : notifs) :
  registry_wf n →
  handler now_ r n = Done (n1, Replied200) →
  (∀ now', ∃ st e, handler now' r n1 = Done (n1, Invalid st e))
  ∧ registry_wf n1
  ∧ (∀ id nl, nls n1 !! id = Some nl → rc nl ≤ Z.of_nat (size (srcs nl))).
Proof.
  intros Hwf H.
  assert (registry_wf n1 →
          ∀ id nl, nls n1 !! id = Some nl → rc nl ≤ Z.of_nat (size (srcs nl))) as Hrc.
  { intros Hwf1 id nl Hl. apply rc_within_sources. by apply (Hwf1 id nl). }
  unfold handler in H.
  destruct (String.eqb (method r) "POST") eqn:Hm; simpl in H; [|discriminate].
  destruct (Z.eqb (msgTy r) notifXact) eqn:Hty; simpl in H; [|discriminate].
  destruct (entry (msgUUID r) n) as [nl|] eqn:Hentry; [|discriminate].
  destruct (finished nl) eqn:Hfinished; [discriminate|].
  destruct (Z.eqb (ty nl) (msgTy r)) eqn:Htynl; simpl in H; [|discriminate].
  apply Z.eqb_eq in Htynl.
  destruct (handleMsg nl (tid r) (msgErr r)) as [nl' [[err st] d]] eqn:Hh.
  destruct err as [e|]; [discriminate|].
  destruct (handleMsg_accepted _ _ _ _ _ _ Hh) as (Hslot & Huuid & Hty' & Htfin & Hcount).
  assert (nls n !! msgUUID r = Some nl) as Hlook.
  { unfold entry in Hentry. repeat case_bool_decide; done. }
  destruct (Hwf _ _ Hlook) as [Hid Hcnt]. specialize (Hcount Hcnt).
  assert (uuid nl' = msgUUID r) as Hid' by congruence.
  assert (∃ t, nls n1 = <[msgUUID r := withTfin t nl']> (nls n)
               ∧ (m n1 = m n ∧ fin n1 = fin n ∨ msgUUID r ∉ m n1)) as (t & Hnls & Hsets).
  { destruct d; injection H as <-; simpl; rewrite Hid'.
    - eexists. rewrite insert_insert_eq. split; [reflexivity|]. right.
      intros [_ Hn]%elem_of_difference. apply Hn. by apply elem_of_singleton.
    - exists (tfin nl'). split; [|by left]. by destruct nl'. }
  assert (registry_wf n1) as Hwf1.
  { intros id x Hx. rewrite Hnls in Hx.
    destruct (decide (msgUUID r = id)) as [<-|Hne].
    - rewrite lookup_insert_eq in Hx. injection Hx as <-. done.
    - rewrite lookup_insert_ne in Hx by done. by apply Hwf. }
  split; [|split; [exact Hwf1 | by apply Hrc]].
  intros now'. apply handler_replay; [exact Hm | exact Hty |].
  intros x Hx.
  assert (nls n1 !! msgUUID r = Some x) as Hx'.
  { unfold entry in Hx. repeat case_bool_decide; done. }
  rewrite Hnls, lookup_insert_eq in Hx'. injection Hx' as <-. simpl.
  rewrite Hid', Hnls, lookup_insert_eq.
  split; [reflexivity|]. split; [exact Hslot | congruence].
Qed.

End ReplayedReport.

Lemma reg0_wf : registry_wf reg0.
Proof.
  intros id nl Hl. unfold reg0 in Hl. simpl in Hl.
  apply lookup_insert_Some in Hl as [[<- <-]|[_ Hl]]; [|by rewrite lookup_empty in Hl].
  split; [reflexivity|]. vm_compute. reflexivity.
Qed.

(** Scenario 4, first half: [t1] reports for the listener of [t1] and [t2];
    the refcount becomes 1 and a replay of the report is refused, the
    registry unchanged. *)
Lemma replayed_report_is_refused_without_effect_witness :
  notifs.handler 1000 report_t1 reg0 = Done (reg1, notifs.Replied200)
  ∧ (∀ now', ∃ st e, notifs.handler now' report_t1 reg1 = Done (reg1, notifs.Invalid st e))
  ∧ registry_wf reg1
  ∧ (∀ id nl, notifs.nls reg1 !! id = Some nl →
       notifs.rc nl ≤ Z.of_nat (size (notifs.srcs nl))).
Proof.
  assert (notifs.handler 1000 report_t1 reg0 = Done (reg1, notifs.Replied200)) as H
    by (vm_compute; reflexivity).
  split; [exact H|].
  exact (replayed_report_is_refused_without_effect 1000 report_t1 reg0 reg1 reg0_wf H).
Defined.

(** C8 as stated does not hold: the replay is not silent. [t1] has already
    reported in [reg1]; its report sent again is answered with the error
    "duplicate ... from node t1" (the registry is unchanged). *)
Lemma replayed_report_not_silent :
  notifs.srcs nl1 !! "t1" = Some None
  ∧ notifs.handler 2000 report_t1 reg1
    = Done (reg1, notifs.Invalid 0 (notifs.ErrDuplicate "t1"))
  ∧ notifs.handleMsg nl1 "t1" None = (nl1, (Some (notifs.ErrDuplicate "t1"), 0, false)).
Proof. repeat split; vm_compute; reflexivity. Qed.

(** * Further properties of the code *)

(** ** Create-bucket and destroy-bucket *)

Section CreateDestroy.

Import txn.

Variable respond : string → phase → Z.
Variable range : NodeMap → list (string * Snode).

Lemma first_err_all_ok (ph : phase) (targets : list Snode) :
  (∀ t, t ∈ targets → 200 ≤ respond (ID t) ph < 300) →
  first_err (call respond ph <$> targets) = None.
Proof.
  induction targets as [|t0 rest IH]; intros Hall; [reflexivity|].
  unfold first_err in *. simpl. unfold call at 1. simpl.
  assert (Z.leb 200 (respond (ID t0) ph) && Z.ltb (respond (ID t0) ph) 300 = true) as ->.
  { specialize (Hall t0 (list_elem_of_here _ _)). apply andb_true_intro. lia. }
  apply IH. intros t Ht. apply Hall. by apply list_elem_of_further.
Qed.


Lemma first_err_none_all_ok (ph : phase) (targets : list Snode) :
  first_err (call respond ph <$> targets) = None →
  ∀ t, t ∈ targets → 200 ≤ respond (ID t) ph < 300.
Proof.
  induction targets as [|t0 rest IH]; intros H t Ht; [by apply elem_of_nil in Ht|].
  unfold first_err in *. simpl in H. unfold call at 1 in H. simpl in H.
  destruct (Z.leb 200 (respond (ID t0) ph) && Z.ltb (respond (ID t0) ph) 300) eqn:Hok;
    [|discriminate].
  apply elem_of_cons in Ht as [-> | Ht]; [|by apply IH].
  apply andb_prop in Hok. lia.
Qed.


Lemma createBucket_success_state (uuid : string) (bck : Bck)
    (bckProps cloudProps : option BucketProps) (p p' : proxyrunner) :
  createBucket respond range uuid bck bckProps cloudProps p = Done (p', None) →
  Buckets (bmd p) !! bck = None
  ∧ Buckets (bmd p') = <[bck := chosenProps bckProps cloudProps]> (Buckets (bmd p))
  ∧ BMDVersion (bmd p') = incr64 (BMDVersion (bmd p)).
Proof.
  unfold createBucket.
  destruct (Buckets (bmd p) !! bck) as [props|] eqn:Hb; [discriminate|]. simpl.
  destruct (first_err (call respond ActBegin <$> (range (Tmap (smap p))).*2)) as [e|];
    [discriminate|].
  unfold add. simpl. rewrite Hb. simpl.
  destruct (first_err (call respond ActCommit <$> (range (Tmap (smap p))).*2)) as [e|];
    [discriminate|].
  intros [= <-]. done.
Qed.

(** When create-bucket returns no error, the bucket was not in the BMD and
    is now, with the chosen properties; the BMD version has advanced once;
    every target answered 2xx to begin and to commit; and what was sent is
    begin to every target, one metasync of the new version, commit to every
    target: no abort. *)
Theorem createBucket_success_commits (uuid : string) (bck : Bck)
    (bckProps cloudProps : option BucketProps) (p p' : proxyrunner) :
  createBucket respond range uuid bck bckProps cloudProps p = Done (p', None) →
  Buckets (bmd p) !! bck = None
  ∧ Buckets (bmd p') = <[bck := chosenProps bckProps cloudProps]> (Buckets (bmd p))
  ∧ BMDVersion (bmd p') = incr64 (BMDVersion (bmd p))
  ∧ (∀ t ph, t ∈ (range (Tmap (smap p))).*2 → ph = ActBegin ∨ ph = ActCommit →
       200 ≤ respond (ID t) ph < 300)
  ∧ sent p' = sent p
              ++ ((λ t, Post (ID t) ActBegin uuid) <$> (range (Tmap (smap p))).*2)
              ++ [Metasync (incr64 (BMDVersion (bmd p)))]
              ++ ((λ t, Post (ID t) ActCommit uuid) <$> (range (Tmap (smap p))).*2).
Proof.
  unfold createBucket.
  destruct (Buckets (bmd p) !! bck) as [props|] eqn:Hb; [discriminate|]. simpl.
  destruct (first_err (call respond ActBegin <$> (range (Tmap (smap p))).*2)) as [e|] eqn:Hbegin;
    [discriminate|].
  unfold add. simpl. rewrite Hb. simpl.
  destruct (first_err (call respond ActCommit <$> (range (Tmap (smap p))).*2)) as [e|] eqn:Hcommit;
    [discriminate|].
  intros [= <-]. simpl. split; [done|]. split; [done|]. split; [done|]. split.
  - intros t ph Ht [-> | ->]; by eapply first_err_none_all_ok.
  - by rewrite <- !app_assoc.
Qed.

(** The converse: when the bucket is new and every target answers 2xx to
    begin and to commit (in particular when there is no target at all),
    create-bucket returns no error. *)
Theorem createBucket_succeeds_when_all_ok (uuid : string) (bck : Bck)
    (bckProps cloudProps : option BucketProps) (p : proxyrunner) :
  Buckets (bmd p) !! bck = None →
  (∀ t ph, t ∈ (range (Tmap (smap p))).*2 → 200 ≤ respond (ID t) ph < 300) →
  ∃ p', createBucket respond range uuid bck bckProps cloudProps p = Done (p', None).
Proof.
  intros Hb Hok. unfold createBucket. rewrite Hb. simpl.
  rewrite first_err_all_ok by (intros; by apply Hok).
  unfold add. simpl. rewrite Hb. simpl.
  rewrite first_err_all_ok by (intros; by apply Hok).
  eauto.
Qed.

(** Destroy-bucket undoes a successful create-bucket: the buckets of the
    BMD are those from before the creation, and the version has advanced
    twice; destroying a bucket that is not there is refused and changes
    nothing. *)
Theorem destroyBucket_after_createBucket (uuid : string) (bck : Bck)
    (bckProps cloudProps : option BucketProps) (p p1 : proxyrunner) :
  createBucket respond range uuid bck bckProps cloudProps p = Done (p1, None) →
  bucket_ops.destroyBucket bck p = Done (p, Some (bucket_ops.ErrBucketDoesNotExist bck))
  ∧ ∃ p2, bucket_ops.destroyBucket bck p1 = Done (p2, None)
      ∧ Buckets (bmd p2) = Buckets (bmd p)
      ∧ BMDVersion (bmd p2) = incr64 (incr64 (BMDVersion (bmd p)))
      ∧ sent p2 = sent p1 ++ [Metasync (incr64 (incr64 (BMDVersion (bmd p))))]
      ∧ bucket_ops.destroyBucket bck p2
        = Done (p2, Some (bucket_ops.ErrBucketDoesNotExist bck)).
Proof.
  intros Hc.
  destruct (createBucket_success_state _ _ _ _ _ _ Hc) as (Hb & Hbs & Hv).
  split; [unfold bucket_ops.destroyBucket; by rewrite Hb|].
  unfold bucket_ops.destroyBucket, del. rewrite Hbs, lookup_insert_eq. simpl.
  eexists. split; [reflexivity|]. simpl.
  rewrite delete_insert_eq, Hv, (delete_id _ _ Hb).
  repeat split; try done. by rewrite Hb.
Qed.

End CreateDestroy.

Lemma createBucket_success_commits_witness :
  ∃ p', txn.createBucket all_ok map_to_list "U" foo None None proxy0 = Done (p', None)
    ∧ txn.Buckets (txn.bmd p') = <[foo := txn.DefaultBucketProps]> ∅
    ∧ txn.BMDVersion (txn.bmd p') = 1.
Proof.
  assert (∃ p', txn.createBucket all_ok map_to_list "U" foo None None proxy0 = Done (p', None))
    as [p' Hc] by (eexists; vm_compute; reflexivity).
  exists p'. split; [exact Hc|].
  destruct (createBucket_success_commits all_ok map_to_list "U" foo None None proxy0 p' Hc)
    as (_ & Hbs & Hv & _). split; [exact Hbs | exact Hv].
Defined.

Lemma createBucket_succeeds_when_all_ok_witness :
  ∃ p', txn.createBucket all_ok map_to_list "U" foo None None
          (txn.mkProxy (mkSmap 1 "" "" ∅ (<["p0" := p0]> ∅) (Some p0) true) (txn.mkBMD 0 ∅) [])
        = Done (p', None).
Proof.
  apply createBucket_succeeds_when_all_ok; [reflexivity|].
  intros; unfold all_ok; lia.
Defined.

Lemma destroyBucket_after_createBucket_witness :
  ∃ p1 p2, txn.createBucket all_ok map_to_list "U" foo None None proxy0 = Done (p1, None)
    ∧ bucket_ops.destroyBucket foo p1 = Done (p2, None)
    ∧ txn.Buckets (txn.bmd p2) = txn.Buckets (txn.bmd proxy0)
    ∧ txn.BMDVersion (txn.bmd p2) = 2.
Proof.
  assert (∃ p1, txn.createBucket all_ok map_to_list "U" foo None None proxy0 = Done (p1, None))
    as [p1 Hc] by (eexists; vm_compute; reflexivity).
  destruct (destroyBucket_after_createBucket all_ok map_to_list "U" foo None None proxy0 p1 Hc)
    as (_ & p2 & Hd & Hbs & Hv & _).
  exists p1, p2. repeat split; try assumption.
Defined.


(** ** The map owner: the steps of [modify], monotone versions *)

Section OwnerMore.

Import smapOwner.

Variable save_error : file → option string.

(** Whenever [modify] returns an error, because [pre] failed or because the
    configuration file could not be written, nothing has changed: the
    published map, the configuration, the disk, the bus and the log are as
    before, and neither [post] nor [final] has been called. *)
Theorem modify_error_changes_nothing (ctx : smapModifier) (r r' : smapOwner) (e : error) :
  modify save_error ctx r = Done (r', Some e) → r' = r.
Proof.
  unfold modify, _runPre, get. intros H.
  destruct (smap r) as [cur|]; [|discriminate].
  destruct (clone cur) as [c|]; simpl in H; [|discriminate].
  destruct (pre ctx c) as [c1 [pe|]]; simpl in H; [by injection H as <- _|].
  unfold persist in H. destruct (Primary c1) as [p|]; [|discriminate].
  destruct (save_error ConfigFile).
  { simpl in H. injection H as <- _. by destruct r as [? ? [? ?] ? ?]. }
  destruct (save_error SmapFile); simpl in H;
    match type of H with
    | context [put ?c ?r0] => destruct (put c r0); simpl in H; [|discriminate]
    end;
    destruct (final ctx); discriminate.
Qed.

(** When [pre] succeeds, both files can be written and the bus has room for
    one more version (or its worker does not run), [modify] returns no
    error without waiting; the clone is published, the configuration and the
    configuration file carry the public URL of the clone's primary, the
    snapshot file holds the clone, the clone's version is appended to the
    queue of the bus when its worker runs, and [post] is called before
    [final], each once if set. *)
Theorem modify_persists_then_publishes (ctx : smapModifier) (r : smapOwner)
    (cur c c1 : smapX) (p : Snode) :
  smap r = Some cur → clone cur = Done c → pre ctx c = (c1, None) →
  Primary c1 = Some p → 0 ≤ Version c1 →
  save_error ConfigFile = None → save_error SmapFile = None →
  (smapLis.running (listeners r) = true →
     (length (smapLis.postCh (listeners r)) < smapLis.postCh_cap)%nat) →
  ∃ r', modify save_error ctx r = Done (r', None)
    ∧ smap r' = Some c1
    ∧ config r' = mkConfig (PublicNet p) (Confdir (config r))
    ∧ dsk r' = mkDisk (Some (config r')) (Some c1)
    ∧ smapLis.notify (Version c1) (listeners r) = Done (smapLis.Returned (listeners r'))
    ∧ smapLis.postCh (listeners r')
      = (if smapLis.running (listeners r)
         then smapLis.postCh (listeners r) ++ [Version c1]
         else smapLis.postCh (listeners r))
    ∧ events r' = events r
                  ++ (if post ctx then [CalledPost c1] else [])
                  ++ (if final ctx then [CalledFinal c1] else []).
Proof.
  intros Hcur Hclone Hpre Hp Hv Hc Hs Hroom. unfold modify, _runPre, get.
  rewrite Hcur, Hclone. simpl. rewrite Hpre.
  unfold persist. rewrite Hp, Hc, Hs. simpl.
  unfold put, smapLis.notify_returned, smapLis.notify, assert. simpl.
  assert (Z.leb 0 (Version c1) = true) as -> by lia. simpl.
  destruct (smapLis.running (listeners r)) eqn:Hrun; simpl.
  - specialize (Hroom eq_refl). unfold smapLis.chan_send.
    rewrite decide_True by exact Hroom. simpl.
    destruct (post ctx), (final ctx); simpl; eexists; (split; [reflexivity|]); simpl;
      rewrite ?app_nil_r, <- ?app_assoc; done.
  - destruct (post ctx), (final ctx); simpl; eexists; (split; [reflexivity|]); simpl;
      rewrite ?app_nil_r, <- ?app_assoc; destruct (listeners r); simpl in *; subst; done.
Qed.

(** [synchronize] never lowers the published version, whatever the disk
    does: after the call the owner holds either the map it held or the new
    map, and the latter only with a strictly greater version and no error. *)
Theorem synchronize_version_monotone (si si' : Snode) (newSmap : option smapX)
    (cur : smapX) (r r' : smapOwner) (e : option error) :
  smap r = Some cur →
  synchronize save_error si newSmap r = Done (r', si', e) →
  ∃ cur', smap r' = Some cur' ∧ Version cur ≤ Version cur'
    ∧ (cur' = cur ∨ newSmap = Some cur' ∧ e = None ∧ Version cur < Version cur').
Proof.
  intros Hcur H. unfold synchronize in H.
  destruct (isValid newSmap) as [valid|] eqn:Hval; simpl in H; [|discriminate].
  destruct valid, newSmap as [new|]; try (injection H as <- _ _; exists cur; auto with lia).
  rewrite Hcur in H.
  destruct (Z.leb (Version new) (Version cur)) eqn:Hle.
  { destruct (Z.ltb (Version new) (Version cur)); injection H as <- _ _;
      exists cur; auto with lia. }
  apply Z.leb_gt in Hle.
  unfold persist in H. destruct (Primary new) as [p|]; [|discriminate].
  destruct (save_error ConfigFile).
  { simpl in H. injection H as <- _ _. exists cur. simpl. auto with lia. }
  assert (∀ r1, smap r1 = Some cur →
            (r2 ← put new r1;
             match GetNode new (ID si) with
             | Some self => Done (r2, withFlags (Flags self) si, None)
             | None => Done (r2, si, None)
             end) = Done (r', si', e) →
            smap r' = Some new ∧ e = None) as Hput.
  { intros r1 _ Hr. unfold put, smapLis.notify_returned, smapLis.notify, assert in Hr.
    simpl in Hr. destruct (Z.leb 0 (Version new)); simpl in Hr; [|discriminate].
    destruct (smapLis.running (listeners r1)); simpl in Hr;
      [destruct (smapLis.chan_send _ _ _); simpl in Hr|];
      destruct (GetNode new (ID si)); injection Hr as <- _ <-; done. }
  destruct (save_error SmapFile); simpl in H;
    (apply Hput in H; [|done]); destruct H as [Hs ->];
    exists new; (split; [exact Hs|]); (split; [lia|]); right; auto.
Qed.

End OwnerMore.

Lemma modify_error_changes_nothing_witness :
  owner10 = owner10
  ∧ smapOwner.modify disk_ok
      (smapOwner.mkModifier (λ c, (c, Some "node is not a member")) true true) owner10
    = Done (owner10, Some (smapOwner.ErrPre "node is not a member")).
Proof.
  assert (smapOwner.modify disk_ok
      (smapOwner.mkModifier (λ c, (c, Some "node is not a member")) true true) owner10
    = Done (owner10, Some (smapOwner.ErrPre "node is not a member"))) as H
    by (vm_compute; reflexivity).
  split; [exact (modify_error_changes_nothing disk_ok _ owner10 owner10 _ H) | exact H].
Defined.

Lemma modify_persists_then_publishes_witness :
  ∃ r', smapOwner.modify disk_ok join_p1 owner10 = Done (r', None)
    ∧ Version <$> smapOwner.smap r' = Some 11
    ∧ smapLis.postCh (smapOwner.listeners r') = [11].
Proof.
  destruct (modify_persists_then_publishes disk_ok join_p1 owner10 smap10 smap10
              (withVersion 11 (withPmap (<["p1" := p1]> (Pmap smap10)) smap10)) p0)
    as (r' & Hm & Hs & _ & _ & _ & Hbus & _);
    [reflexivity | vm_compute; reflexivity | vm_compute; reflexivity | reflexivity
    | vm_compute; discriminate | reflexivity | reflexivity
    | intros _; vm_compute; lia |].
  exists r'. split; [exact Hm|]. split; [by rewrite Hs | exact Hbus].
Defined.

Lemma synchronize_version_monotone_witness :
  ∃ cur', smapOwner.smap owner10 = Some cur' ∧ Version smap10 ≤ Version cur'
    ∧ (cur' = smap10
       ∨ Some (withVersion 8 smap10) = Some cur'
         ∧ Some (smapOwner.ErrDowngrade 10 8) = None ∧ Version smap10 < Version cur').
Proof.
  apply (synchronize_version_monotone disk_ok p0 p0 (Some (withVersion 8 smap10))
           smap10 owner10 owner10 (Some (smapOwner.ErrDowngrade 10 8)));
    [reflexivity | vm_compute; reflexivity].
Defined.

(** ** The notification registry: reports, housekeeping, membership *)

Section RegistryMore.

Import notifs.

Lemma handleMsg_refused (nl nl' : notifListenerBase) (t : string) (e : option error)
    (err : error) (st : Z) (d : bool) :
  handleMsg nl t e = (nl', (Some err, st, d)) → nl' = nl ∧ d = false.
Proof.
  unfold handleMsg. destruct (notifiers nl !! t) as [[tsi|]|]; intros [=]; done.
Qed.

(** A report that the handler answers with an error, whatever the reason
    (wrong method or type, unknown uuid, finished listener, unknown or
    duplicate source), leaves a well-formed registry exactly as it was. *)
Theorem handler_error_changes_nothing (now_ : Z) (r : request) (n n' : notifs)
    (st : Z) (e : error) :
  registry_wf n → handler now_ r n = Done (n', Invalid st e) → n' = n.
Proof.
  intros Hwf H. unfold handler in H.
  destruct (negb (String.eqb (method r) "POST")); [by injection H as <-|].
  destruct (negb (Z.eqb (msgTy r) notifXact)); [by injection H as <-|].
  destruct (entry (msgUUID r) n) as [nl|] eqn:Hentry; [|by injection H as <-].
  destruct (finished nl); [by injection H as <-|].
  destruct (Z.eqb (ty nl) (msgTy r)); simpl in H; [|discriminate].
  assert (nls n !! msgUUID r = Some nl) as Hl.
  { unfold entry in Hentry. repeat case_bool_decide; done. }
  destruct (Hwf _ _ Hl) as [Hu _]. rewrite <- Hu in Hl.
  destruct (handleMsg nl (tid r) (msgErr r)) as [nl1 [[err st1] d]] eqn:Hh.
  destruct err as [err|]; [|discriminate].
  destruct (handleMsg_refused _ _ _ _ _ _ _ Hh) as [-> ->].
  injection H as <- _ _. by apply store_same.
Qed.

(** An accepted report sets the slot of its source to nil, counts it and
    records the error the source carried; it says [done] exactly when no
    source is left to report. *)
Theorem handleMsg_done_when_all_reported (nl nl' : notifListenerBase) (t : string)
    (e : option error) (st : Z) (d : bool) :
  rc_counts_reports nl →
  handleMsg nl t e = (nl', (None, st, d)) →
  srcs nl' = <[t := None]> (srcs nl)
  ∧ rc nl' = rc nl + 1
  ∧ errs nl' = match e with
               | Some x => <[t := x]> (errs nl)
               | None => errs nl
               end
  ∧ (d = true ↔ ∀ k v, srcs nl' !! k = Some v → v = None).
Proof.
  intros Hcnt Hh.
  destruct (handleMsg_accepted _ _ _ _ _ _ Hh) as (_ & _ & _ & _ & Hcnt').
  specialize (Hcnt' Hcnt). unfold rc_counts_reports in Hcnt'.
  unfold handleMsg, notifiers in Hh.
  destruct (srcs nl !! t) as [[tsi|]|] eqn:Hs; try discriminate.
  assert (d = Z.leb (Z.of_nat (size (srcs nl'))) (rc nl')) as Hd.
  { destruct e; simpl in Hh; by injection Hh as <- _ <-. }
  split; [destruct e; simpl in Hh; by injection Hh as <- _ _|].
  split; [destruct e; simpl in Hh; by injection Hh as <- _ _|].
  split; [destruct e; simpl in Hh; by injection Hh as <- _ _|].
  rewrite Hd, Hcnt'. clear Hd Hh. split.
  - intros Hle%Z.leb_le k v Hk.
    assert (filter (λ kv : string * option Snode, kv.2 = None) (srcs nl') = srcs nl') as Hf.
    { apply map_subseteq_size_eq; [apply map_filter_subseteq | lia]. }
    rewrite <- Hf in Hk. by apply map_lookup_filter_Some in Hk as [_ Hv].
  - intros Hall. apply Z.leb_le. rewrite map_filter_id; [lia|]. exact Hall.
Qed.

Lemma uuid_wf_store (nl : notifListenerBase) (n : notifs) :
  uuid_wf n → uuid_wf (store nl n).
Proof.
  intros Hwf id x Hx. simpl in Hx.
  apply lookup_insert_Some in Hx as [[<- <-]|[_ Hx]]; [done | by apply Hwf].
Qed.

Lemma callback_frame (c : terminal) (now_ : Z) (nl : notifListenerBase) (n : notifs) :
  (uuid_wf n → uuid_wf (callback c now_ nl n))
  ∧ m (callback c now_ nl n) = m n
  ∧ fin n ⊆ fin (callback c now_ nl n)
  ∧ fin (callback c now_ nl n) ⊆ {[uuid nl]} ∪ fin n.
Proof.
  unfold callback. rewrite callback_run_from_entry. simpl. split; [|split; [done|]].
  - intros Hwf id x Hx. simpl in Hx.
    apply lookup_insert_Some in Hx as [[<- <-]|[_ Hx]]; [done | by apply Hwf].
  - destruct (Z.eqb (tfin nl) 0); simpl; [|case_bool_decide]; set_solver.
Qed.

Lemma housekeep_results_frame (now_ : Z) (id : string) (results : list callResult) :
  ∀ n, uuid_wf n →
    uuid_wf (housekeep_results now_ id results n)
    ∧ fin n ⊆ fin (housekeep_results now_ id results n)
    ∧ fin (housekeep_results now_ id results n) ⊆ {[id]} ∪ fin n.
Proof.
  induction results as [|res rest IH]; intros n Hwf; simpl; [set_solver|].
  destruct (nls n !! id) as [nl|] eqn:Hl; [|set_solver].
  pose proof (Hwf _ _ Hl) as Hu.
  assert (∀ nl1 (d : bool) c, uuid nl1 = id →
            let n' := if d then del nl1 (callback c now_ nl1 (store nl1 n))
                      else housekeep_results now_ id rest (store nl1 n) in
            uuid_wf n' ∧ fin n ⊆ fin n' ∧ fin n' ⊆ {[id]} ∪ fin n) as Hstep.
  { intros nl1 d c Hu1. destruct d; simpl.
    - destruct (callback_frame c now_ nl1 (store nl1 n)) as (Hw & _ & Hsub & Hsup).
      rewrite Hu1 in Hsup. simpl in *. split; [|done].
      intros k x Hx. apply (Hw (uuid_wf_store nl1 n Hwf) k x Hx).
    - apply (IH (store nl1 n)). by apply uuid_wf_store. }
  destruct (negb (res_err res)).
  - pose proof (core_hkXact nl res) as Hcore.
    destruct (hkXact nl res) as [[[nl1 err] d] c]. simpl in Hcore.
    apply (Hstep nl1 d c). injection Hcore as -> _ _. exact Hu.
  - destruct (Z.eqb (res_status res) StatusNotFound).
    + by apply (Hstep _ true PullNotFound).
    + by apply (Hstep nl false PullNotFound).
Qed.

End RegistryMore.

Section Housekeeping.

Import notifs.

Variable range_running : gset string → list string.
Hypothesis range_running_sound : ∀ (s : gset string) x, x ∈ range_running s → x ∈ s.

(** Garbage collection by housekeeping. A finished listener that the
    retention test keeps is still in [fin] after the round; one that the test
    drops, and that is not running any more, is gone from [fin]; and nothing
    enters [fin] but listeners that were running. For clock readings within
    [int64] the test keeps a listener exactly while no more than
    [3 * 2 min] have passed since it finished. *)
Theorem housekeep_collects_expired (bcastGet : string → list callResult) (now_ : Z)
    (n : notifs) :
  uuid_wf n →
  (∀ id, id ∈ fin n → kept now_ n id = true →
     id ∈ fin (housekeep bcastGet range_running now_ n))
  ∧ (∀ id, id ∈ fin n → kept now_ n id = false → id ∉ m n →
     id ∉ fin (housekeep bcastGet range_running now_ n))
  ∧ (∀ id, id ∈ fin (housekeep bcastGet range_running now_ n) → id ∈ fin n ∨ id ∈ m n)
  ∧ (∀ id nl, nls n !! id = Some nl → 0 ≤ finTime nl ≤ now_ → now_ ≤ int64_max →
     (kept now_ n id = true ↔ now_ - finTime nl ≤ 360000000000)).
Proof using range_running_sound.
  intros Hwf. unfold housekeep.
  set (n1 := mkNotifs (nls n) (m n) (filter (λ id, kept now_ n id = true) (fin n))
                      (invoked n) (smapVer n)).
  assert (∀ ids acc, uuid_wf acc →
            let r := foldl (λ acc id, housekeep_results now_ id (bcastGet id) acc) acc ids in
            fin acc ⊆ fin r ∧ (∀ x, x ∈ fin r → x ∈ fin acc ∨ x ∈ ids)) as Hfold.
  { induction ids as [|id ids IH]; intros acc Hacc; simpl; [set_solver|].
    destruct (housekeep_results_frame now_ id (bcastGet id) acc Hacc) as (Hw & Hsub & Hsup).
    destruct (IH _ Hw) as [IH1 IH2]. split; [set_solver|].
    intros x Hx. destruct (IH2 x Hx) as [Hx'|Hx']; [|set_solver].
    apply Hsup in Hx'. set_solver. }
  destruct (Hfold (range_running (m n1)) n1 Hwf) as [H1 H2]. simpl in H1, H2.
  repeat split.
  - intros id Hid Hk. apply H1. simpl. apply elem_of_filter. done.
  - intros id Hid Hk Hm Hin. destruct (H2 id Hin) as [Hx|Hx].
    + simpl in Hx. apply elem_of_filter in Hx as [Hx _]. congruence.
    + apply range_running_sound in Hx. done.
  - intros id Hin. destruct (H2 id Hin) as [Hx|Hx].
    + simpl in Hx. apply elem_of_filter in Hx as [_ Hx]. by left.
    + apply range_running_sound in Hx. by right.
  - unfold kept. rewrite H. unfold notifsRemoveMult, notifsHousekeepT, wrap64.
    rewrite Z.mod_small by (unfold int64_max in *; lia).
    intros Hk%negb_true_iff%Z.ltb_ge. lia.
  - unfold kept. rewrite H. unfold notifsRemoveMult, notifsHousekeepT, wrap64.
    rewrite Z.mod_small by (unfold int64_max in *; lia).
    intros Hk. apply negb_true_iff, Z.ltb_ge. lia.
Qed.

End Housekeeping.

Section MembershipChange.

Import notifs.

Variable range_running : gset string → list string.
Variable range_srcs : gmap string (option Snode) → list (string * option Snode).
Hypothesis range_running_sound : ∀ (s : gset string) x, x ∈ range_running s → x ∈ s.
Hypothesis range_srcs_sound :
  ∀ (srcs0 : gmap string (option Snode)) kv, kv ∈ range_srcs srcs0 → srcs0 !! kv.1 = Some kv.2.

Lemma omap_none_nil {A B} (g : A → option B) (l : list A) :
  (∀ x, x ∈ l → g x = None) → omap g l = [].
Proof.
  induction l as [|x l IH]; intros Hg; [reflexivity|]. simpl.
  rewrite (Hg x (list_elem_of_here _ _)). apply IH.
  intros y Hy. apply Hg. by apply list_elem_of_further.
Qed.

(** A change of the cluster map that removes no notifier a running listener
    still waits for only records the new version: no listener fails, no
    callback runs, the running and finished maps stay as they are. *)
Theorem ListenSmapChanged_without_departure (now_ : Z) (smap : smapX) (n : notifs) :
  smapVer n < Version smap →
  (∀ id nl sid tsi, id ∈ m n → nls n !! id = Some nl →
     srcs nl !! sid = Some (Some tsi) → is_Some (GetNode smap sid)) →
  ListenSmapChanged range_running range_srcs true now_ smap n
  = mkNotifs (nls n) (m n) (fin n) (invoked n) (Version smap).
Proof using range_running_sound range_srcs_sound.
  intros Hver Hmembers. unfold ListenSmapChanged. simpl.
  assert (Z.leb (Version smap) (smapVer n) = false) as -> by lia.
  assert (omap (λ id, nl ← nls n !! id; sid ← departed range_srcs smap nl; Some (id, sid))
               (range_running (m n)) = []) as ->; [|reflexivity].
  apply omap_none_nil. intros id Hid%range_running_sound.
  destruct (nls n !! id) as [nl|] eqn:Hl; simpl; [|reflexivity].
  assert (departed range_srcs smap nl = None) as ->; [|reflexivity].
  unfold departed, notifiers.
  destruct (filter _ (range_srcs (srcs nl))) as [|kv l] eqn:Hf; [reflexivity|].
  assert (kv ∈ filter (λ kv, is_Some kv.2 ∧ GetNode smap kv.1 = None)
                      (range_srcs (srcs nl))) as Hkv
    by (rewrite Hf; apply list_elem_of_here).
  apply list_elem_of_filter in Hkv as [[[tsi Htsi] Hgone] Hkv].
  apply range_srcs_sound in Hkv. rewrite Htsi in Hkv.
  destruct (Hmembers id nl kv.1 tsi Hid Hl Hkv) as [x Hx].
  congruence.
Qed.

End MembershipChange.

Lemma elements_sound (s : gset string) (x : string) : x ∈ elements s → x ∈ s.
Proof. apply elem_of_elements. Qed.

Lemma map_to_list_sound (srcs0 : gmap string (option Snode)) (kv : string * option Snode) :
  kv ∈ map_to_list srcs0 → srcs0 !! kv.1 = Some kv.2.
Proof. destruct kv. apply elem_of_map_to_list. Qed.

Lemma reg0_invoked_once : invoked_once_inv reg0.
Proof.
  intros id nl Hl. unfold reg0 in Hl. simpl in Hl.
  apply lookup_insert_Some in Hl as [[<- <-]|[_ Hl]]; [|by rewrite lookup_empty in Hl].
  split; [reflexivity|]. split; [reflexivity|]. reflexivity.
Qed.

(** Scenario 4 through the registry: [t1] reports, then [t2] leaves the
    cluster map. The callback of the listener has run once, for the
    departure of a node. *)
Lemma registry_invokes_each_callback_once_witness :
  ∃ n', exec_all elements map_to_list scenario_4 reg0 = Done n'
    ∧ notifs.invoked n' = [("xact-1", notifs.NodeLeft)]
    ∧ invoked_once_inv n'
    ∧ ∀ id nl, notifs.nls n' !! id = Some nl →
        (invocations id n' ≤ 1)%nat
        ∧ (notifs.finished nl = true → notifs.f nl = true → invocations id n' = 1%nat).
Proof.
  assert (∃ n', exec_all elements map_to_list scenario_4 reg0 = Done n'
                ∧ notifs.invoked n' = [("xact-1", notifs.NodeLeft)]) as (n' & Hrun & Hinv).
  { eexists. split; vm_compute; reflexivity. }
  exists n'. split; [exact Hrun|]. split; [exact Hinv|].
  apply (registry_invokes_each_callback_once elements map_to_list scenario_4 reg0 n'
           reg0_invoked_once); [|exact Hrun].
  repeat constructor.
Defined.

Lemma handler_error_changes_nothing_witness :
  reg1 = reg1
  ∧ notifs.handler 2000 (notifs.mkRequest "POST" "t9" notifs.notifXact "xact-1" None) reg1
    = Done (reg1, notifs.Invalid 404 (notifs.ErrUnknownNode "t9")).
Proof.
  assert (notifs.handler 2000 (notifs.mkRequest "POST" "t9" notifs.notifXact "xact-1" None) reg1
    = Done (reg1, notifs.Invalid 404 (notifs.ErrUnknownNode "t9"))) as H
    by (vm_compute; reflexivity).
  split; [|exact H].
  refine (handler_error_changes_nothing 2000 _ reg1 reg1 _ _ _ H).
  intros id nl Hl. unfold reg1 in Hl. simpl in Hl.
  apply lookup_insert_Some in Hl as [[<- <-]|[_ Hl]]; [|by rewrite lookup_empty in Hl].
  split; [reflexivity|]. vm_compute. reflexivity.
Defined.

Lemma handleMsg_done_when_all_reported_witness :
  ∃ nl', notifs.handleMsg nl1 "t2" None = (nl', (None, 0, true))
    ∧ notifs.rc nl' = 2
    ∧ (true = true ↔ ∀ k v, notifs.srcs nl' !! k = Some v → v = None).
Proof.
  assert (∃ nl', notifs.handleMsg nl1 "t2" None = (nl', (None, 0, true))) as [nl' H]
    by (eexists; vm_compute; reflexivity).
  exists nl'. split; [exact H|].
  destruct (handleMsg_done_when_all_reported nl1 nl' "t2" None 0 true) as (_ & Hrc & _ & Hd);
    [vm_compute; reflexivity | exact H |].
  split; [exact Hrc | exact Hd].
Defined.

Lemma reg_hk_uuid_wf : uuid_wf reg_hk.
Proof.
  intros id nl Hl. unfold reg_hk in Hl. simpl in Hl.
  repeat (apply lookup_insert_Some in Hl as [[<- <-]|[_ Hl]]; [reflexivity|]).
  by rewrite lookup_empty in Hl.
Qed.

(** A round at 400 s: ["recent"], finished 1 s ago, stays in [fin];
    ["old"], finished more than 6 min ago, is collected; ["xact-1"], which
    was running and whose two targets answer "finished", enters [fin]. *)
Lemma housekeep_collects_expired_witness :
  "recent" ∈ notifs.fin (notifs.housekeep bcast_finished elements hk_time reg_hk)
  ∧ "old" ∉ notifs.fin (notifs.housekeep bcast_finished elements hk_time reg_hk)
  ∧ ("xact-1" ∈ notifs.fin (notifs.housekeep bcast_finished elements hk_time reg_hk)
     ∧ "xact-1" ∉ notifs.fin reg_hk ∧ "xact-1" ∈ notifs.m reg_hk)
  ∧ (notifs.kept hk_time reg_hk "recent" = true ↔ hk_time - 399000000000 ≤ 360000000000)
  ∧ (notifs.kept hk_time reg_hk "old" = true ↔ hk_time - 1000 ≤ 360000000000).
Proof.
  destruct (housekeep_collects_expired elements elements_sound bcast_finished hk_time reg_hk
              reg_hk_uuid_wf) as (Hkeep & Hdrop & Hfrom & Hage).
  assert ("xact-1" ∈ notifs.fin (notifs.housekeep bcast_finished elements hk_time reg_hk))
    as Hx by (apply (bool_decide_unpack _); vm_compute; exact I).
  assert ("xact-1" ∉ notifs.fin reg_hk) as Hnx
    by (apply (bool_decide_unpack _); vm_compute; exact I).
  split; [|split; [|split; [|split]]].
  - apply Hkeep; [apply (bool_decide_unpack _); vm_compute; exact I | vm_compute; reflexivity].
  - apply Hdrop; [| vm_compute; reflexivity |]; apply (bool_decide_unpack _); vm_compute; exact I.
  - split; [exact Hx|]. split; [exact Hnx|].
    destruct (Hfrom "xact-1" Hx) as [Hf|Hm]; [destruct (Hnx Hf) | exact Hm].
  - apply (Hage "recent" nl_recent); [reflexivity | vm_compute; split; discriminate |
                                      vm_compute; discriminate].
  - apply (Hage "old" nl_old); [reflexivity | vm_compute; split; discriminate |
                                vm_compute; discriminate].
Defined.

Lemma ListenSmapChanged_without_departure_witness :
  notifs.ListenSmapChanged elements map_to_list true 2000 (withVersion 11 smap10) reg0
  = notifs.mkNotifs (notifs.nls reg0) (notifs.m reg0) (notifs.fin reg0)
                    (notifs.invoked reg0) 11.
Proof.
  apply (ListenSmapChanged_without_departure elements map_to_list elements_sound
           map_to_list_sound 2000 (withVersion 11 smap10) reg0).
  - vm_compute. reflexivity.
  - intros id nl sid tsi Hid Hl Hs. unfold reg0 in Hl. simpl in Hl.
    apply lookup_insert_Some in Hl as [[_ <-]|[_ Hl]]; [|by rewrite lookup_empty in Hl].
    change (notifs.srcs nl0) with (Some <$> Tmap smap10) in Hs.
    rewrite lookup_fmap in Hs.
    unfold GetNode, GetTarget.
    change (Tmap (withVersion 11 smap10)) with (Tmap smap10).
    destruct (Tmap smap10 !! sid) as [x|] eqn:Hx; [eauto | discriminate].
Defined.

(** ** The versioned map: node flags and the information council *)

Section NodeFlags.

Lemma testbit_mask (n : N) :
  N.testbit SnodeMaintenanceMask n = (N.eqb n 2 || N.eqb n 3)%bool.
Proof.
  destruct n as [|[[p|p|]|[p|p|]|]]; reflexivity.
Qed.

Lemma IsAnySet_mask_bit (flags : SnodeFlags) :
  IsAnySet flags SnodeMaintenanceMask = true →
  N.testbit flags 2 = true ∨ N.testbit flags 3 = true.
Proof.
  unfold IsAnySet. intros H%negb_true_iff%N.eqb_neq.
  destruct (N.testbit flags 2) eqn:H2; [by left|].
  destruct (N.testbit flags 3) eqn:H3; [by right|].
  exfalso. apply H. apply N.bits_inj_0. intros n.
  rewrite N.land_spec, testbit_mask.
  destruct (N.eqb_spec n 2) as [->|]; [by rewrite H2|].
  destruct (N.eqb_spec n 3) as [->|]; [by rewrite H3|].
  apply andb_false_r.
Qed.

Lemma IsAnySet_after_set (f flags : SnodeFlags) :
  IsAnySet flags SnodeMaintenanceMask = true →
  IsAnySet (Clear (Set_ f flags) SnodeIC) SnodeMaintenanceMask = true.
Proof.
  intros H. unfold IsAnySet. apply negb_true_iff, N.eqb_neq. intros H0.
  assert (∀ n, N.testbit (N.land (Clear (Set_ f flags) SnodeIC) SnodeMaintenanceMask) n = false)
    as Hbits by (intros n; rewrite H0; apply N.bits_0).
  unfold Clear, Set_ in Hbits.
  destruct (IsAnySet_mask_bit flags H) as [Hb|Hb].
  - specialize (Hbits 2%N). rewrite N.land_spec, N.ldiff_spec, N.lor_spec, Hb in Hbits.
    rewrite orb_true_r in Hbits. discriminate.
  - specialize (Hbits 3%N). rewrite N.land_spec, N.ldiff_spec, N.lor_spec, Hb in Hbits.
    rewrite orb_true_r in Hbits. discriminate.
Qed.

(** Putting a node into maintenance or decommissioning takes it out of the
    information council: after [setNodeFlags] with any bit of the maintenance
    mask, the node's descriptor (in the map of its role) has a maintenance bit
    set and the IC flag clear, whatever its flags were and even when the mask
    given asks for the IC flag as well; the version is incremented. On an id
    that is in neither map, [setNodeFlags] and [clearNodeFlags] fail their
    assertion. *)
Theorem setNodeFlags_maintenance_leaves_IC (sid : string) (flags : SnodeFlags) (m : smapX) :
  (∀ si, GetNode m sid = Some si → IsAnySet flags SnodeMaintenanceMask = true →
     ∃ m' si', setNodeFlags sid flags m = Done m'
       ∧ roleMap (DaemonType si) m' !! ID si = Some si'
       ∧ isIC si' = false
       ∧ IsAnySet (Flags si') SnodeMaintenanceMask = true
       ∧ Version m' = incr64 (Version m))
  ∧ (GetNode m sid = None →
     setNodeFlags sid flags m = Panic "assertion failed"
     ∧ clearNodeFlags sid flags m = Panic "assertion failed").
Proof.
  split.
  - intros si Hsi Hany. unfold setNodeFlags. rewrite Hsi, Hany.
    eexists _, _. split; [reflexivity|].
    unfold _applyFlags, IsTarget. simpl.
    destruct (DaemonType si); simpl; (split; [apply lookup_insert_eq|]);
      unfold isIC; simpl; (split; [by apply IsSet_Clear_same|]);
      (split; [by apply IsAnySet_after_set | reflexivity]).
  - intros Hnone. unfold setNodeFlags, clearNodeFlags. by rewrite Hnone.
Qed.

End NodeFlags.

Lemma setNodeFlags_maintenance_leaves_IC_witness :
  ∃ m' si', setNodeFlags "p0" (N.lor SnodeDecomission SnodeIC) smap10 = Done m'
    ∧ roleMap (DaemonType p0) m' !! ID p0 = Some si'
    ∧ isIC si' = false
    ∧ IsAnySet (Flags si') SnodeMaintenanceMask = true
    ∧ Version m' = incr64 (Version smap10).
Proof.
  destruct (setNodeFlags_maintenance_leaves_IC "p0" (N.lor SnodeDecomission SnodeIC) smap10)
    as [H _].
  apply (H p0); vm_compute; reflexivity.
Defined.

Section InformationCouncilMore.

Variable range : NodeMap → list (string * Snode).

Lemma isIC_enlisted (si : Snode) : isIC (withFlags (Set_ (Flags si) SnodeIC) si) = true.
Proof.
  unfold isIC, IsSet, Set_. simpl. apply N.eqb_eq. apply N.bits_inj. intros n.
  rewrite N.land_spec, N.lor_spec. destruct (N.testbit (Flags si) n), (N.testbit SnodeIC n); done.
Qed.

Lemma setNodeFlags_IC_proxy (m : smapX) (id : string) (si : Snode) :
  smap_wf m → Pmap m !! id = Some si →
  setNodeFlags id SnodeIC m
  = Done (with_proxy id (withFlags (Set_ (Flags si) SnodeIC) si)
            (writeThrough si (withFlags (Set_ (Flags si) SnodeIC) si) m)).
Proof.
  intros (Hp & Ht & Hd) Hl. unfold setNodeFlags, GetNode, GetTarget, GetProxy.
  rewrite (Hd id) by eauto. rewrite Hl.
  destruct (Hp _ _ Hl) as [Hid Hty].
  unfold _applyFlags, IsTarget, with_proxy, ID in *. simpl. rewrite Hty, Hid. reflexivity.
Qed.

Lemma writeThrough_other (si si' : Snode) (m : smapX) :
  primaryIs (DaemonType si) (ID si) m = false → writeThrough si si' m = m.
Proof. intros H. unfold writeThrough. rewrite H. by destruct m. Qed.

Lemma clearNodeFlags_IC_proxy (m : smapX) (id : string) (si pp : Snode) :
  smap_wf m → Pmap m !! id = Some si → Primary m = Some pp → id ≠ ID pp →
  clearNodeFlags id SnodeIC m
  = Done (with_proxy id (withFlags (Clear (Flags si) SnodeIC) si) m).
Proof.
  intros (Hp & Ht & Hd) Hl Hprim Hne. unfold clearNodeFlags, GetNode, GetTarget, GetProxy.
  rewrite (Hd id) by eauto. rewrite Hl.
  destruct (Hp _ _ Hl) as [Hid Hty].
  unfold _applyFlags. rewrite writeThrough_other.
  - unfold IsTarget, with_proxy, ID in *. simpl. rewrite Hty, Hid. reflexivity.
  - unfold primaryIs. rewrite Hprim. rewrite bool_decide_eq_false_2; [by rewrite andb_false_r|].
    intros [_ Hi]. unfold ID in *. congruence.
Qed.

Lemma wf_with_proxy (m : smapX) (id : string) (si : Snode) (f : SnodeFlags) :
  smap_wf m → Pmap m !! id = Some si → smap_wf (with_proxy id (withFlags f si) m).
Proof.
  intros (Hp & Ht & Hd) Hl. split; [|split]; simpl.
  - intros k x Hx. apply lookup_insert_Some in Hx as [[<- <-]|[_ Hx]]; [|by apply Hp].
    apply (Hp _ _ Hl).
  - exact Ht.
  - intros k [x Hx]. apply lookup_insert_Some in Hx as [[<- <-]|[_ Hx]]; apply Hd; eauto.
Qed.

Lemma ICCount_with_proxy (m : smapX) (id : string) (si si' : Snode) :
  Pmap m !! id = Some si →
  ICCount (with_proxy id si' m)
  = ICCount m - (if isIC si then 1 else 0) + (if isIC si' then 1 else 0).
Proof.
  intros Hl. unfold ICCount, with_proxy. simpl.
  rewrite map_filter_insert. case_decide as Hnew; simpl in Hnew.
  - rewrite Hnew, map_size_insert.
    destruct (isIC si) eqn:Hold.
    + rewrite (map_lookup_filter_Some_2 _ _ id si) by done. simpl. lia.
    + assert (filter (λ kv : string * Snode, isIC kv.2 = true) (Pmap m) !! id = None) as ->.
      { apply map_lookup_filter_None. right. intros x Hx. simpl. congruence. }
      lia.
  - apply not_true_is_false in Hnew. rewrite Hnew, map_filter_delete, map_size_delete.
    destruct (isIC si) eqn:Hold.
    + rewrite (map_lookup_filter_Some_2 _ _ id si) by done.
      pose proof (map_size_ne_0_lookup_2 (filter (λ kv : string * Snode, isIC kv.2 = true) (Pmap m))
                    id) as Hne.
      rewrite (map_lookup_filter_Some_2 _ _ id si) in Hne by done.
      specialize (Hne (ltac:(eauto))). lia.
    + assert (filter (λ kv : string * Snode, isIC kv.2 = true) (Pmap m) !! id = None) as ->.
      { apply map_lookup_filter_None. right. intros x Hx. simpl. congruence. }
      simpl. lia.
Qed.

Lemma ic_grown_refl (m : smapX) : smap_wf m → ic_grown m m.
Proof.
  intros Hwf. split; [done|]. split; [done|]. split; [done|].
  intros k. destruct (Pmap m !! k) as [si|]; [|done]. exists si. split; [done | by left].
Qed.

Lemma ic_grown_enlist (m cur : smapX) (id : string) (sc : Snode) :
  ic_grown m cur → Pmap cur !! id = Some sc → isIC sc = false → NonElectable sc = false →
  ic_grown m (with_proxy id (withFlags (Set_ (Flags sc) SnodeIC) sc)
                (writeThrough sc (withFlags (Set_ (Flags sc) SnodeIC) sc) cur)).
Proof.
  intros (Hwf & Ht & (Hpid & Hpin & Hpe) & Hall) Hl Hnic Hel.
  destruct (proj1 Hwf _ _ Hl) as [Hid Hty].
  split; [by apply (wf_with_proxy (writeThrough sc _ cur))|]. split; [done|].
  split.
  { simpl. split; [|split; [done|]].
    - rewrite <- Hpid. unfold primaryIs. rewrite Hty, Hid.
      destruct (PrimaryInMap cur); simpl; [|done].
      destruct (Primary cur) as [p|]; [|done].
      case_bool_decide as Hp; [|done]. simpl. f_equal. destruct Hp as [_ Hp].
      unfold ID in *. simpl. congruence.
    - intros Hm. destruct (Hpe Hm) as (Hin & p & Hp & Hlp).
      unfold primary_is_entry. simpl.
      split; [done|]. unfold primaryIs. rewrite Hin, Hp, Hty, Hid. simpl.
      destruct (decide (ID p = id)) as [Hpi|Hpi].
      + rewrite Hpi, Hl in Hlp. injection Hlp as ->.
        rewrite bool_decide_eq_true_2 by done.
        eexists. split; [done|]. simpl. unfold ID in *. simpl.
        rewrite Hid. apply lookup_insert_eq.
      + rewrite bool_decide_eq_false_2 by (intros [_ ?]; done).
        exists p. split; [done|]. by rewrite lookup_insert_ne. }
  intros k. specialize (Hall k). simpl.
  destruct (decide (id = k)) as [<-|Hne].
  - rewrite lookup_insert_eq. destruct (Pmap m !! id) as [s0|]; [|congruence].
    destruct Hall as (si' & Hsi' & [->|[_ ->]]).
    + rewrite Hl in Hsi'. injection Hsi' as <-. eexists. split; [done|]. by right.
    + rewrite Hl in Hsi'. injection Hsi' as ->. by rewrite isIC_enlisted in Hnic.
  - by rewrite lookup_insert_ne.
Qed.

Lemma fillIC_loop_grows (m : smapX) (keys : list string) :
  ∀ cur, ic_grown m cur → ICCount cur < DefaultICSize →
  ∃ m', _fillIC_loop keys cur = Done m' ∧ ic_grown m m' ∧ ICCount m' ≤ DefaultICSize.
Proof.
  induction keys as [|id keys IH]; intros cur Hg Hcnt; simpl.
  { exists cur. split; [done|]. split; [done | lia]. }
  destruct (Pmap cur !! id) as [sc|] eqn:Hl; [|by apply IH].
  destruct (IsSet (Flags sc) SnodeNonElectable) eqn:Hel; [by apply IH|].
  unfold addIC, IsIC, GetProxy.
  destruct Hg as (Hwf & Hrest). destruct (proj1 Hwf _ _ Hl) as [Hid _].
  rewrite Hid, Hl. destruct (isIC sc) eqn:Hic; simpl.
  - assert (Z.leb DefaultICSize (ICCount cur) = false) as -> by lia.
    by apply IH.
  - rewrite (setNodeFlags_IC_proxy cur id sc Hwf Hl). simpl.
    set (sc' := withFlags (Set_ (Flags sc) SnodeIC) sc).
    pose proof (ICCount_with_proxy (writeThrough sc sc' cur) id sc sc' Hl) as Hc.
    rewrite Hic in Hc. replace (isIC sc') with true in Hc by (symmetry; apply isIC_enlisted).
    change (ICCount (writeThrough sc sc' cur)) with (ICCount cur) in Hc.
    assert (ic_grown m (with_proxy id sc' (writeThrough sc sc' cur))) as Hg'
      by (by apply ic_grown_enlist).
    destruct (Z.leb DefaultICSize (ICCount (with_proxy id sc' (writeThrough sc sc' cur))))
      eqn:Hfull.
    + eexists. split; [done|]. split; [done | lia].
    + apply IH; [done | lia].
Qed.

Lemma fillIC_grows_IC (m : smapX) :
  smap_wf m →
  ∃ m', _fillIC range m = Done m' ∧ ic_grown m m'
    ∧ (ICCount m ≤ DefaultICSize → ICCount m' ≤ DefaultICSize)
    ∧ (DefaultICSize ≤ ICCount m → m' = m).
Proof.
  intros Hwf. unfold _fillIC. destruct (Z.leb DefaultICSize (ICCount m)) eqn:Hle.
  - exists m. split; [done|]. split; [by apply ic_grown_refl|]. split; [done|done].
  - destruct (fillIC_loop_grows m (range (Pmap m)).*1 m (ic_grown_refl m Hwf))
      as (m' & Hl & Hg & Hc); [lia|].
    exists m'. split; [done|]. split; [done|]. split; [done | lia].
Qed.

Lemma ic_grown_keeps_member (m m' : smapX) (k : string) (si : Snode) :
  ic_grown m m' → Pmap m !! k = Some si → isIC si = true →
  ∃ si', Pmap m' !! k = Some si' ∧ isIC si' = true.
Proof.
  intros (_ & _ & _ & Hall) Hl Hic. specialize (Hall k). rewrite Hl in Hall.
  destruct Hall as (si' & Hsi' & [->|[_ ->]]); eexists; (split; [exact Hsi'|]);
    [done | apply isIC_enlisted].
Qed.

(** [_fillIC] on a well-formed map never fails and only ever adds the IC
    flag to electable proxies: the targets, the node that is primary and the
    set of proxies stay as they are, a non-electable proxy keeps its
    descriptor, a member of the IC stays one; when the primary is the proxy
    entry of its id (as in a clone) it still is afterwards, so that an IC flag
    given to that entry is the primary's too; the IC is not filled beyond
    [DefaultICSize], and a map whose IC is full already is returned as it
    is. *)
Theorem fillIC_enlists_electable_only (m : smapX) :
  smap_wf m →
  ∃ m', _fillIC range m = Done m'
    ∧ ic_grown m m'
    ∧ (∀ k si, Pmap m !! k = Some si → NonElectable si = true → Pmap m' !! k = Some si)
    ∧ (∀ k si, Pmap m !! k = Some si → isIC si = true →
         ∃ si', Pmap m' !! k = Some si' ∧ isIC si' = true)
    ∧ (ICCount m ≤ DefaultICSize → ICCount m' ≤ DefaultICSize)
    ∧ (DefaultICSize ≤ ICCount m → m' = m).
Proof.
  intros Hwf. destruct (fillIC_grows_IC m Hwf) as (m' & Hf & Hg & Hc & Hfull).
  exists m'. split; [done|]. split; [done|].
  split; [|split; [|split; done]].
  - intros k si Hl Hne. destruct Hg as (_ & _ & _ & Hall).
    specialize (Hall k). rewrite Hl in Hall.
    destruct Hall as (si' & Hsi' & [->|[Hel _]]); [done | congruence].
  - intros k si Hl Hic. by apply (ic_grown_keeps_member m m' k si).
Qed.


End InformationCouncilMore.

Section StaffIC.

Variable range : NodeMap → list (string * Snode).
Hypothesis range_perm : ∀ m : NodeMap, range m ≡ₚ map_to_list m.

Lemma range_entries (M : NodeMap) (sid : string) (si : Snode) :
  (sid, si) ∈ range M ↔ M !! sid = Some si.
Proof using range_perm. rewrite range_perm. apply elem_of_map_to_list. Qed.

Lemma exists_other_IC (M : NodeMap) (idp : string) :
  (2 ≤ size (filter (λ kv : string * Snode, isIC kv.2 = true) M))%nat →
  ∃ k x, k ≠ idp ∧ M !! k = Some x ∧ isIC x = true.
Proof.
  intros Hsize.
  set (F := filter (λ kv : string * Snode, isIC kv.2 = true) M) in *.
  assert (delete idp F ≠ ∅) as Hne.
  { apply map_size_non_empty_iff. rewrite map_size_delete.
    destruct (F !! idp); simpl; lia. }
  apply map_choose in Hne as (k & x & Hk).
  apply lookup_delete_Some in Hk as [Hne Hk].
  apply map_lookup_filter_Some in Hk as [Hk Hic]. exists k, x. done.
Qed.

Lemma evictIC_loop_evicts (m : smapX) (pp : Snode) (entries : list (string * Snode)) :
  smap_wf m → Primary m = Some pp →
  (∀ sid si, (sid, si) ∈ entries → Pmap m !! sid = Some si) →
  (∃ sid si, (sid, si) ∈ entries ∧ sid ≠ ID pp ∧ isIC si = true) →
  ∃ sid si, sid ≠ ID pp ∧ Pmap m !! sid = Some si ∧ isIC si = true
    ∧ evictIC_loop entries m
      = Done (with_proxy sid (withFlags (Clear (Flags si) SnodeIC) si) m).
Proof.
  intros Hwf Hprim. induction entries as [|[sid si] entries IH]; intros Hin Hex.
  { destruct Hex as (? & ? & Hx & _). by apply elem_of_nil in Hx. }
  simpl. rewrite Hprim.
  pose proof (Hin sid si (list_elem_of_here _ _)) as Hl.
  destruct (String.eqb_spec sid (ID pp)) as [Heq|Hne]; simpl.
  - apply IH; [intros; apply Hin; by apply list_elem_of_further|].
    destruct Hex as (s & x & Hx & Hs & Hic).
    apply elem_of_cons in Hx as [[= -> ->]|Hx]; [done | eauto].
  - destruct (isIC si) eqn:Hic; simpl.
    + exists sid, si. split; [done|]. split; [done|]. split; [done|].
      by apply (clearNodeFlags_IC_proxy m sid si pp).
    + apply IH; [intros; apply Hin; by apply list_elem_of_further|].
      destruct Hex as (s & x & Hx & Hs & Hic').
      apply elem_of_cons in Hx as [[= -> ->]|Hx]; [congruence | eauto].
Qed.

Lemma evictIC_within_size (m : smapX) :
  ICCount m ≤ DefaultICSize → evictIC range m = Done m.
Proof. intros H. unfold evictIC. by rewrite (proj2 (Z.leb_le _ _) H). Qed.

Lemma evictIC_over_size (m : smapX) (pp : Snode) :
  smap_wf m → Primary m = Some pp → DefaultICSize < ICCount m →
  ∃ sid si, sid ≠ ID pp ∧ Pmap m !! sid = Some si ∧ isIC si = true
    ∧ evictIC range m = Done (with_proxy sid (withFlags (Clear (Flags si) SnodeIC) si) m).
Proof using range_perm.
  intros Hwf Hprim Hgt. unfold evictIC.
  rewrite (proj2 (Z.leb_gt _ _) Hgt).
  destruct (evictIC_loop_evicts m pp (range (Pmap m)) Hwf Hprim)
    as (sid & si & Hne & Hl & Hic & Hloop).
  - intros s x Hx. by apply range_entries.
  - destruct (exists_other_IC (Pmap m) (ID pp)) as (k & x & Hk & Hlk & Hx).
    { unfold ICCount, DefaultICSize in Hgt. lia. }
    exists k, x. split; [by apply range_entries | done].
  - eauto 8.
Qed.

Lemma ICCount_evicted (m : smapX) (sid : string) (si : Snode) :
  Pmap m !! sid = Some si → isIC si = true →
  ICCount (with_proxy sid (withFlags (Clear (Flags si) SnodeIC) si) m) = ICCount m - 1.
Proof.
  intros Hl Hic. rewrite (ICCount_with_proxy m sid si _ Hl), Hic.
  assert (isIC (withFlags (Clear (Flags si) SnodeIC) si) = false) as ->
    by (by apply IsSet_Clear_same). lia.
Qed.

(** [evictIC] on a well-formed map with a primary: an IC within
    [DefaultICSize] is left alone; a larger one loses exactly one member,
    who is a proxy other than the primary; only the IC flag of that proxy
    changes (and the version). *)
Theorem evictIC_evicts_one_non_primary (m : smapX) (pp : Snode) :
  smap_wf m → Primary m = Some pp →
  ∃ m', evictIC range m = Done m'
    ∧ smap_wf m'
    ∧ (ICCount m ≤ DefaultICSize → m' = m)
    ∧ (DefaultICSize < ICCount m →
       ICCount m' = ICCount m - 1
       ∧ ∃ sid si, sid ≠ ID pp ∧ Pmap m !! sid = Some si ∧ isIC si = true
           ∧ m' = with_proxy sid (withFlags (Clear (Flags si) SnodeIC) si) m).
Proof using range_perm.
  intros Hwf Hprim. destruct (Z.le_gt_cases (ICCount m) DefaultICSize) as [Hle|Hgt].
  - exists m. split; [by apply evictIC_within_size|]. split; [done|]. split; [done | lia].
  - destruct (evictIC_over_size m pp Hwf Hprim) as (sid & si & Hne & Hl & Hic & Hev); [lia|].
    eexists. split; [exact Hev|]. split; [by apply wf_with_proxy|]. split; [lia|].
    intros _. split; [by apply ICCount_evicted | eauto 8].
Qed.

(** [staffIC] on a well-formed map whose primary is one of its proxies and
    whose IC is within [DefaultICSize]: it never fails; afterwards the
    primary is in the IC, the IC is still within [DefaultICSize], and the map
    is still well formed, with the same targets and the same proxy ids. *)
Theorem staffIC_primary_in_bounded_IC (m : smapX) (p pp : Snode) :
  smap_wf m → Primary m = Some p → Pmap m !! ID p = Some pp →
  ICCount m ≤ DefaultICSize →
  ∃ m', staffIC range m = Done m'
    ∧ smap_wf m'
    ∧ IsIC m' p = true
    ∧ ICCount m' ≤ DefaultICSize
    ∧ Tmap m' = Tmap m
    ∧ (∀ k, is_Some (Pmap m' !! k) ↔ is_Some (Pmap m !! k)).
Proof using range_perm.
  intros Hwf Hprim Hpp Hcnt. unfold staffIC. rewrite Hprim.
  (* the primary joins *)
  assert (∃ m1 pp1, addIC p m = Done m1 ∧ smap_wf m1 ∧ Pmap m1 !! ID p = Some pp1
                    ∧ isIC pp1 = true ∧ ICCount m1 ≤ DefaultICSize + 1
                    ∧ Tmap m1 = Tmap m
                    ∧ (∀ k, is_Some (Pmap m1 !! k) ↔ is_Some (Pmap m !! k)))
    as (m1 & pp1 & -> & Hwf1 & Hpp1 & Hic1 & Hcnt1 & Ht1 & Hdom1).
  { unfold addIC, IsIC, GetProxy. rewrite Hpp. destruct (isIC pp) eqn:Hic.
    - exists m, pp. split; [done|]. split; [done|]. split; [done|]. split; [done|].
      split; [lia|]. split; done.
    - rewrite (setNodeFlags_IC_proxy m (ID p) pp Hwf Hpp).
      eexists _, _. split; [reflexivity|].
      split; [by apply (wf_with_proxy (writeThrough pp _ m))|].
      split; [simpl; apply lookup_insert_eq|]. split; [apply isIC_enlisted|].
      split.
      { rewrite (ICCount_with_proxy (writeThrough pp _ m) _ pp _ Hpp), Hic, isIC_enlisted.
        change (ICCount (writeThrough pp (withFlags (Set_ (Flags pp) SnodeIC) pp) m))
          with (ICCount m). lia. }
      split; [done|]. intros k. simpl. rewrite lookup_insert_is_Some.
      destruct (decide (ID p = k)) as [<-|]; naive_solver. }
  simpl.
  (* the primary is looked up again, the IC is filled *)
  set (m2 := withPrimary (GetNode m1 (ID p)) m1).
  assert (smap_wf m2) as Hwf2 by exact Hwf1.
  assert (Primary m2 = Some pp1) as Hprim2.
  { unfold m2, GetNode, GetTarget, GetProxy. simpl.
    rewrite (proj2 (proj2 Hwf1) (ID p)) by eauto. exact Hpp1. }
  destruct (fillIC_grows_IC range m2 Hwf2) as (m3 & -> & Hg3 & Hc3 & Hfull3).
  pose proof (λ k si, ic_grown_keeps_member m2 m3 k si Hg3) as Hkeep.
  destruct Hg3 as (Hwf3 & Ht3 & (Hpid3 & _ & _) & Hall).
  simpl.
  assert (∃ q, Primary m3 = Some q ∧ ID q = ID pp1) as (q & Hprim3 & Hq).
  { rewrite Hprim2 in Hpid3. destruct (Primary m3) as [q|]; [|done].
    injection Hpid3 as Hq. eauto. }
  assert (ICCount m3 ≤ DefaultICSize + 1) as Hcnt3.
  { destruct (Z.le_gt_cases (ICCount m2) DefaultICSize) as [Hle|Hgt].
    - specialize (Hc3 Hle). lia.
    - rewrite Hfull3 by lia. exact Hcnt1. }
  destruct (Hkeep (ID p) pp1 Hpp1 Hic1) as (pp3 & Hpp3 & Hic3).
  assert (ID pp1 = ID p) as Hid1 by (apply (proj1 Hwf1 _ _ Hpp1)).
  (* one member too many is evicted, never the primary *)
  assert (∀ k, is_Some (Pmap m3 !! k) ↔ is_Some (Pmap m !! k)) as Hdom3.
  { intros k. rewrite <- Hdom1. specialize (Hall k). simpl in Hall.
    destruct (Pmap m1 !! k) as [x|].
    - destruct Hall as (x' & -> & _). split; eauto.
    - rewrite Hall. done. }
  destruct (Z.le_gt_cases (ICCount m3) DefaultICSize) as [Hle|Hgt].
  - rewrite (evictIC_within_size m3 Hle). exists m3.
    split; [reflexivity|]. split; [exact Hwf3|]. unfold IsIC, GetProxy. rewrite Hpp3.
    split; [done|]. split; [done|]. split; [by rewrite Ht3|]. exact Hdom3.
  - destruct (evictIC_over_size m3 q Hwf3 Hprim3) as (sid & si & Hne & Hl & Hic & ->);
      [lia|].
    pose proof (ICCount_evicted m3 sid si Hl Hic) as Hc4.
    eexists. split; [reflexivity|]. split; [by apply wf_with_proxy|].
    unfold IsIC, GetProxy. simpl. rewrite Hq, Hid1 in Hne.
    rewrite lookup_insert_ne by done. rewrite Hpp3.
    split; [done|]. split; [lia|]. split; [by rewrite Ht3|].
    intros k. rewrite lookup_insert_is_Some, <- Hdom3.
    destruct (decide (sid = k)) as [<-|]; naive_solver.
Qed.

End StaffIC.

Lemma smap_four_ic_wf : smap_wf smap_four_ic.
Proof.
  split; [|split].
  - intros k si Hl. unfold smap_four_ic in Hl. simpl in Hl.
    repeat (apply lookup_insert_Some in Hl as [[<- <-]|[_ Hl]]; [done|]).
    by rewrite lookup_empty in Hl.
  - intros k si Hl. unfold smap_four_ic in Hl. simpl in Hl.
    repeat (apply lookup_insert_Some in Hl as [[<- <-]|[_ Hl]]; [done|]).
    by rewrite lookup_empty in Hl.
  - intros k [si Hl]. unfold smap_four_ic in *. simpl in *.
    repeat (apply lookup_insert_Some in Hl as [[<- <-]|[_ Hl]]; [done|]).
    by rewrite lookup_empty in Hl.
Qed.

Lemma smap_maint_wf : smap_wf smap_maint.
Proof.
  split; [|split].
  - intros k si Hl. unfold smap_maint in Hl. simpl in Hl.
    repeat (apply lookup_insert_Some in Hl as [[<- <-]|[_ Hl]]; [done|]).
    by rewrite lookup_empty in Hl.
  - intros k si Hl. unfold smap_maint in Hl. simpl in Hl.
    repeat (apply lookup_insert_Some in Hl as [[<- <-]|[_ Hl]]; [done|]).
    by rewrite lookup_empty in Hl.
  - intros k [si Hl]. unfold smap_maint in *. simpl in *.
    repeat (apply lookup_insert_Some in Hl as [[<- <-]|[_ Hl]]; [done|]).
    by rewrite lookup_empty in Hl.
Qed.

Lemma smap_primary_p1_wf : smap_wf smap_primary_p1.
Proof.
  split; [|split].
  - intros k si Hl. unfold smap_primary_p1 in Hl. simpl in Hl.
    repeat (apply lookup_insert_Some in Hl as [[<- <-]|[_ Hl]]; [done|]).
    by rewrite lookup_empty in Hl.
  - intros k si Hl. unfold smap_primary_p1 in Hl. simpl in Hl.
    repeat (apply lookup_insert_Some in Hl as [[<- <-]|[_ Hl]]; [done|]).
    by rewrite lookup_empty in Hl.
  - intros k [si Hl]. unfold smap_primary_p1 in *. simpl in *.
    repeat (apply lookup_insert_Some in Hl as [[<- <-]|[_ Hl]]; [done|]).
    by rewrite lookup_empty in Hl.
Qed.

Lemma fillIC_enlists_electable_only_witness :
  ∃ m', _fillIC map_to_list smap_primary_p1 = Done m'
    ∧ Pmap m' !! "p4" = Some p4_ne
    ∧ primary_is_entry m'
    ∧ Primary m' = Some (withFlags SnodeIC p1)
    ∧ ICCount m' ≤ DefaultICSize.
Proof.
  destruct (fillIC_enlists_electable_only map_to_list smap_primary_p1 smap_primary_p1_wf)
    as (m' & Hf & (_ & _ & (_ & _ & He) & _) & Hne & _ & Hc & _).
  exists m'. split; [exact Hf|]. split; [by apply Hne|].
  split; [apply He; split; [reflexivity|]; by exists p1|].
  split; [|apply Hc; vm_compute; discriminate].
  revert Hf. vm_compute. by intros [= <-].
Defined.

Lemma evictIC_evicts_one_non_primary_witness :
  ∃ m', evictIC map_to_list smap_four_ic = Done m'
    ∧ ICCount m' = ICCount smap_four_ic - 1
    ∧ ∃ sid si, sid ≠ ID p0 ∧ Pmap smap_four_ic !! sid = Some si ∧ isIC si = true
        ∧ m' = with_proxy sid (withFlags (Clear (Flags si) SnodeIC) si) smap_four_ic.
Proof.
  destruct (evictIC_evicts_one_non_primary map_to_list (λ m, reflexivity (map_to_list m))
              smap_four_ic p0 smap_four_ic_wf eq_refl) as (m' & He & _ & _ & Hev).
  exists m'. split; [exact He|]. apply Hev. vm_compute. reflexivity.
Defined.

Lemma staffIC_primary_in_bounded_IC_witness :
  ∃ m', staffIC map_to_list smap_maint = Done m'
    ∧ smap_wf m'
    ∧ IsIC m' p0 = true
    ∧ ICCount m' ≤ DefaultICSize
    ∧ Tmap m' = Tmap smap_maint
    ∧ (∀ k, is_Some (Pmap m' !! k) ↔ is_Some (Pmap smap_maint !! k)).
Proof.
  apply (staffIC_primary_in_bounded_IC map_to_list (λ m, reflexivity (map_to_list m))
           smap_maint p0 p0 smap_maint_wf); [reflexivity | reflexivity |].
  vm_compute. discriminate.
Defined.

(** ** The versioned map: [merge] without conflicts, [validateUUID] *)

Section MergeMore.

Variable range : NodeMap → list (string * Snode).
Hypothesis range_perm : ∀ m : NodeMap, range m ≡ₚ map_to_list m.

Lemma handleDuplicateURL_no_override (si : Snode) (d d1 : smapX) :
  handleDuplicateURL range si false d = Done (d1, None) → d1 = d.
Proof.
  unfold handleDuplicateURL. destruct (IsDuplicateURL range d si); simpl; intros [=]; done.
Qed.

Lemma containsID_kept (d d' : smapX) (id : string) :
  (∀ k x, Tmap d !! k = Some x → Tmap d' !! k = Some x) →
  (∀ k x, Pmap d !! k = Some x → Pmap d' !! k = Some x) →
  containsID d id = true → containsID d' id = true.
Proof.
  unfold containsID, GetTarget, GetProxy. intros Ht Hp.
  destruct (Tmap d !! id) as [x|] eqn:Hx; [by rewrite (Ht _ _ Hx)|].
  destruct (Pmap d !! id) as [y|] eqn:Hy; [|discriminate].
  rewrite (Hp _ _ Hy). by destruct (Tmap d' !! id).
Qed.

Lemma merge_targets_no_override (l : list (string * Snode)) :
  ∀ dst added dst' added',
  merge_targets range l false dst added = Done (dst', added', None) →
  Pmap dst' = Pmap dst ∧ Version dst' = Version dst ∧ UUID dst' = UUID dst
  ∧ CreationTime dst' = CreationTime dst ∧ Primary dst' = Primary dst
  ∧ (∀ k x, Tmap dst !! k = Some x → Tmap dst' !! k = Some x)
  ∧ (∀ k x, (k, x) ∈ l → containsID dst' k = true)
  ∧ (∀ k x, Tmap dst' !! k = Some x → Tmap dst !! k = Some x ∨ (k, x) ∈ l)
  ∧ added' - added = Z.of_nat (size (Tmap dst')) - Z.of_nat (size (Tmap dst)).
Proof.
  induction l as [|[id si] rest IH]; intros dst added dst' added' H; simpl in H.
  { injection H as <- <-. repeat split; try done; [|auto|lia].
    intros k x Hx. by apply elem_of_nil in Hx. }
  destruct (handleDuplicateURL range si false dst) as [[d1 e1]|] eqn:Hh; simpl in H;
    [|discriminate].
  destruct e1 as [e|]; [discriminate|].
  apply handleDuplicateURL_no_override in Hh as ->.
  destruct (Tmap dst !! id) as [x0|] eqn:Ht.
  - destruct (IH _ _ _ _ H) as (HP & HV & HU & HC & HPr & Hkeep & Hin & Hnew & Hadd).
    repeat split; try done.
    + intros k x Hx. apply elem_of_cons in Hx as [[= -> ->]|Hx]; [|by eapply Hin].
      unfold containsID, GetTarget. by rewrite (Hkeep _ _ Ht).
    + intros k x Hx. destruct (Hnew _ _ Hx); [by left|right; by apply list_elem_of_further].
  - destruct (Pmap dst !! id) as [y0|] eqn:Hp.
    + destruct (IH _ _ _ _ H) as (HP & HV & HU & HC & HPr & Hkeep & Hin & Hnew & Hadd).
      repeat split; try done.
      * intros k x Hx. apply elem_of_cons in Hx as [[= -> ->]|Hx]; [|by eapply Hin].
        unfold containsID, GetTarget, GetProxy. rewrite HP, Hp. by destruct (Tmap dst' !! id).
      * intros k x Hx. destruct (Hnew _ _ Hx); [by left|right; by apply list_elem_of_further].
    + destruct (IH _ _ _ _ H) as (HP & HV & HU & HC & HPr & Hkeep & Hin & Hnew & Hadd).
      simpl in *. rewrite map_size_insert_None in Hadd by done.
      repeat split; try done.
      * intros k x Hx. apply Hkeep. rewrite lookup_insert_ne; [done|]. congruence.
      * intros k x Hx. apply elem_of_cons in Hx as [[= -> ->]|Hx]; [|by eapply Hin].
        unfold containsID, GetTarget. by rewrite (Hkeep id si (lookup_insert_eq _ _ _)).
      * intros k x Hx. destruct (Hnew _ _ Hx) as [Hx'|Hx'];
          [|right; by apply list_elem_of_further].
        apply lookup_insert_Some in Hx' as [[<- <-]|[_ Hx']]; [right; apply list_elem_of_here|].
        by left.
      * lia.
Qed.

Lemma merge_proxies_no_override (l : list (string * Snode)) :
  ∀ dst added dst' added',
  merge_proxies range l false dst added = Done (dst', added', None) →
  Tmap dst' = Tmap dst ∧ Version dst' = Version dst ∧ UUID dst' = UUID dst
  ∧ CreationTime dst' = CreationTime dst ∧ Primary dst' = Primary dst
  ∧ (∀ k x, Pmap dst !! k = Some x → Pmap dst' !! k = Some x)
  ∧ (∀ k x, (k, x) ∈ l → containsID dst' k = true)
  ∧ (∀ k x, Pmap dst' !! k = Some x → Pmap dst !! k = Some x ∨ (k, x) ∈ l)
  ∧ added' - added = Z.of_nat (size (Pmap dst')) - Z.of_nat (size (Pmap dst)).
Proof.
  induction l as [|[id si] rest IH]; intros dst added dst' added' H; simpl in H.
  { injection H as <- <-. repeat split; try done; [|auto|lia].
    intros k x Hx. by apply elem_of_nil in Hx. }
  destruct (handleDuplicateURL range si false dst) as [[d1 e1]|] eqn:Hh; simpl in H;
    [|discriminate].
  destruct e1 as [e|]; [discriminate|].
  apply handleDuplicateURL_no_override in Hh as ->.
  destruct (Pmap dst !! id) as [x0|] eqn:Hp.
  - destruct (IH _ _ _ _ H) as (HT & HV & HU & HC & HPr & Hkeep & Hin & Hnew & Hadd).
    repeat split; try done.
    + intros k x Hx. apply elem_of_cons in Hx as [[= -> ->]|Hx]; [|by eapply Hin].
      unfold containsID, GetTarget, GetProxy. rewrite (Hkeep _ _ Hp).
      by destruct (Tmap dst' !! id).
    + intros k x Hx. destruct (Hnew _ _ Hx); [by left|right; by apply list_elem_of_further].
  - destruct (Tmap dst !! id) as [y0|] eqn:Ht.
    + destruct (IH _ _ _ _ H) as (HT & HV & HU & HC & HPr & Hkeep & Hin & Hnew & Hadd).
      repeat split; try done.
      * intros k x Hx. apply elem_of_cons in Hx as [[= -> ->]|Hx]; [|by eapply Hin].
        unfold containsID, GetTarget. by rewrite HT, Ht.
      * intros k x Hx. destruct (Hnew _ _ Hx); [by left|right; by apply list_elem_of_further].
    + destruct (IH _ _ _ _ H) as (HT & HV & HU & HC & HPr & Hkeep & Hin & Hnew & Hadd).
      simpl in *. rewrite map_size_insert_None in Hadd by done.
      repeat split; try done.
      * intros k x Hx. apply Hkeep. rewrite lookup_insert_ne; [done|]. congruence.
      * intros k x Hx. apply elem_of_cons in Hx as [[= -> ->]|Hx]; [|by eapply Hin].
        unfold containsID, GetTarget, GetProxy.
        rewrite (Hkeep id si (lookup_insert_eq _ _ _)). by destruct (Tmap dst' !! id).
      * intros k x Hx. destruct (Hnew _ _ Hx) as [Hx'|Hx'];
          [|right; by apply list_elem_of_further].
        apply lookup_insert_Some in Hx' as [[<- <-]|[_ Hx']]; [right; apply list_elem_of_here|].
        by left.
      * lia.
Qed.

(** A merge without override that returns no error is a union that favours
    the destination: every node of [dst] is kept with its descriptor, every
    id of [m] is an id of the result, every node of the result comes from
    [dst] or from [m], [added] is the number of nodes gained, the version and
    the primary are those of [dst], and the uuid and creation time of [m] are
    adopted exactly when [dst] has no uuid and [m] has one. *)
Theorem merge_is_union_favouring_dst (m dst dst' : smapX) (added : Z) :
  merge range m dst false = Done (dst', added, None) →
  (∀ r k x, roleMap r dst !! k = Some x → roleMap r dst' !! k = Some x)
  ∧ (∀ r k x, roleMap r m !! k = Some x → containsID dst' k = true)
  ∧ (∀ r k x, roleMap r dst' !! k = Some x →
       roleMap r dst !! k = Some x ∨ roleMap r m !! k = Some x)
  ∧ added = Z.of_nat (size (Tmap dst')) + Z.of_nat (size (Pmap dst'))
            - Z.of_nat (size (Tmap dst)) - Z.of_nat (size (Pmap dst))
  ∧ Version dst' = Version dst ∧ Primary dst' = Primary dst
  ∧ (UUID dst', CreationTime dst')
    = (if negb (String.eqb (UUID m) "") && String.eqb (UUID dst) ""
       then (UUID m, CreationTime m) else (UUID dst, CreationTime dst)).
Proof using range_perm.
  unfold merge. intros H.
  destruct (merge_targets range (range (Tmap m)) false dst 0) as [[[d1 a1] e1]|] eqn:Ht;
    simpl in H; [|discriminate].
  destruct e1 as [e|]; [discriminate|].
  destruct (merge_proxies range (range (Pmap m)) false d1 a1) as [[[d2 a2] e2]|] eqn:Hp;
    simpl in H; [|discriminate].
  destruct e2 as [e|]; [discriminate|].
  destruct (merge_targets_no_override _ _ _ _ _ Ht)
    as (HP1 & HV1 & HU1 & HC1 & HPr1 & Hk1 & Hin1 & Hn1 & Ha1).
  destruct (merge_proxies_no_override _ _ _ _ _ Hp)
    as (HT2 & HV2 & HU2 & HC2 & HPr2 & Hk2 & Hin2 & Hn2 & Ha2).
  assert (Tmap dst' = Tmap d2 ∧ Pmap dst' = Pmap d2 ∧ Version dst' = Version d2
          ∧ Primary dst' = Primary d2 ∧ added = a2
          ∧ (UUID dst', CreationTime dst')
            = (if negb (String.eqb (UUID m) "") && String.eqb (UUID d2) ""
               then (UUID m, CreationTime m) else (UUID d2, CreationTime d2)))
    as (HT & HP & HV & HPr & -> & HU).
  { destruct (negb (String.eqb (UUID m) "") && String.eqb (UUID d2) "");
      injection H as <- <-; done. }
  assert (∀ r k x, roleMap r dst !! k = Some x → roleMap r dst' !! k = Some x) as Hkeep.
  { intros [] k x Hx; simpl in *.
    - rewrite HP. apply Hk2. by rewrite HP1.
    - rewrite HT, HT2. by apply Hk1. }
  split; [exact Hkeep|]. split; [|split; [|split; [|split; [|split]]]].
  - intros [] k x Hx; simpl in Hx.
    + apply (containsID_kept d2); [by rewrite HT | by rewrite HP|].
      eapply Hin2. rewrite range_perm. by apply elem_of_map_to_list.
    + apply (containsID_kept d1).
      * intros k' x' Hx'. by rewrite HT, HT2.
      * intros k' x' Hx'. rewrite HP. by apply Hk2.
      * eapply Hin1. rewrite range_perm. by apply elem_of_map_to_list.
  - intros [] k x Hx; simpl in *.
    + rewrite HP in Hx. destruct (Hn2 _ _ Hx) as [Hx'|Hx']; [left; by rewrite <- HP1|].
      right. rewrite range_perm in Hx'. by apply elem_of_map_to_list.
    + rewrite HT, HT2 in Hx. destruct (Hn1 _ _ Hx) as [Hx'|Hx']; [by left|].
      right. rewrite range_perm in Hx'. by apply elem_of_map_to_list.
  - rewrite HT, HP, HT2. rewrite HP1 in Ha2. lia.
  - congruence.
  - congruence.
  - rewrite HU, HU2, HU1, HC2, HC1. reflexivity.
Qed.

End MergeMore.

Section MergeOverride.

Variable range : NodeMap → list (string * Snode).

Lemma handleDuplicateURL_override (si : Snode) (d d1 : smapX) (e : option smapX.error) :
  handleDuplicateURL range si true d = Done (d1, e) → e = None.
Proof.
  unfold handleDuplicateURL. destruct (IsDuplicateURL range d si) as [osi|]; simpl.
  - destruct (IsProxy osi); [destruct (delProxy _ d) | destruct (delTarget _ d)];
      simpl; intros [=]; done.
  - intros [=]. done.
Qed.

(** With override, a merge never reports a duplicate URL: whenever it
    returns, it returns no error. *)
Theorem merge_override_reports_no_duplicate (m dst dst' : smapX) (added : Z)
    (e : option smapX.error) :
  merge range m dst true = Done (dst', added, e) → e = None.
Proof.
  assert (∀ l d a d' a' e', merge_targets range l true d a = Done (d', a', e') → e' = None)
    as Ht.
  { induction l as [|[id si] rest IH]; intros d a d' a' e' H; simpl in H;
      [by injection H as _ _ <-|].
    destruct (handleDuplicateURL range si true d) as [[d1 e1]|] eqn:Hh; simpl in H;
      [|discriminate].
    rewrite (handleDuplicateURL_override _ _ _ _ Hh) in H.
    destruct (Tmap d1 !! id), (Pmap d1 !! id); by eapply IH. }
  assert (∀ l d a d' a' e', merge_proxies range l true d a = Done (d', a', e') → e' = None)
    as Hp.
  { induction l as [|[id si] rest IH]; intros d a d' a' e' H; simpl in H;
      [by injection H as _ _ <-|].
    destruct (handleDuplicateURL range si true d) as [[d1 e1]|] eqn:Hh; simpl in H;
      [|discriminate].
    rewrite (handleDuplicateURL_override _ _ _ _ Hh) in H.
    destruct (Pmap d1 !! id), (Tmap d1 !! id); by eapply IH. }
  unfold merge. intros H.
  destruct (merge_targets range (range (Tmap m)) true dst 0) as [[[d1 a1] e1]|] eqn:H1;
    simpl in H; [|discriminate].
  rewrite (Ht _ _ _ _ _ _ H1) in H.
  destruct (merge_proxies range (range (Pmap m)) true d1 a1) as [[[d2 a2] e2]|] eqn:H2;
    simpl in H; [|discriminate].
  rewrite (Hp _ _ _ _ _ _ H2) in H.
  destruct (negb (String.eqb (UUID m) "") && String.eqb (UUID d2) ""); by injection H as _ _ <-.
Qed.

(** [validateUUID] refuses a new map exactly when it is there, its version
    is not 0, both maps carry a uuid and the two uuids differ; in particular
    a map at version 0 and a map without uuid are always accepted. *)
Theorem validateUUID_refuses_iff (m : smapX) (newSmap : option smapX) :
  validateUUID m newSmap = Some ErrSmapUUIDDiffer
  ↔ ∃ n, newSmap = Some n ∧ Version n ≠ 0 ∧ UUID m ≠ "" ∧ UUID n ≠ "" ∧ UUID m ≠ UUID n.
Proof.
  unfold validateUUID. destruct newSmap as [n|]; [|split; [discriminate | by intros (? & ? & _)]].
  destruct (Z.eqb_spec (Version n) 0) as [Hv|Hv];
    [split; [discriminate | intros (? & [= <-] & ? & _); done]|].
  destruct (String.eqb_spec (UUID m) "") as [Hm|Hm]; simpl;
    [split; [discriminate | intros (? & [= <-] & ? & ? & _); done]|].
  destruct (String.eqb_spec (UUID n) "") as [Hn|Hn]; simpl;
    [split; [discriminate | intros (? & [= <-] & ? & ? & ? & _); done]|].
  destruct (String.eqb_spec (UUID m) (UUID n)) as [He|He];
    [split; [discriminate | intros (? & [= <-] & ? & ? & ? & ?); done]|].
  split; [|done]. intros _. exists n. done.
Qed.

End MergeOverride.

Lemma merge_is_union_favouring_dst_witness :
  ∃ dst', merge map_to_list smapB smapA false = Done (dst', 1, None)
    ∧ (∀ r k x, roleMap r smapA !! k = Some x → roleMap r dst' !! k = Some x)
    ∧ Tmap dst' !! "t1" = Some t1
    ∧ Version dst' = 5.
Proof.
  assert (∃ dst', merge map_to_list smapB smapA false = Done (dst', 1, None)) as [dst' H]
    by (eexists; vm_compute; reflexivity).
  exists dst'. split; [exact H|].
  destruct (merge_is_union_favouring_dst map_to_list (λ m, reflexivity (map_to_list m))
              smapB smapA dst' 1 H) as (Hkeep & _ & Hnew & _ & Hv & _).
  split; [exact Hkeep|]. split; [|exact Hv].
  revert H. vm_compute. intros [= <-]. reflexivity.
Defined.

Lemma merge_override_reports_no_duplicate_witness :
  ∃ dst' added, merge map_to_list
      (mkSmap 3 "" "" (<["t9" := mkSnode "t9" Target "http://t1:8081" "http://t9:9081" 0%N]> ∅)
              ∅ None false) smapB true = Done (dst', added, None)
    ∧ Tmap dst' !! "t1" = None.
Proof.
  assert (∃ dst' added e, merge map_to_list
      (mkSmap 3 "" "" (<["t9" := mkSnode "t9" Target "http://t1:8081" "http://t9:9081" 0%N]> ∅)
              ∅ None false) smapB true = Done (dst', added, e) ∧ Tmap dst' !! "t1" = None)
    as (dst' & added & e & H & Ht1) by (eexists _, _, _; split; vm_compute; reflexivity).
  exists dst', added. split; [|exact Ht1].
  by rewrite <- (merge_override_reports_no_duplicate map_to_list _ _ _ _ _ H).
Defined.

(** ** Object listing: binary search, cached intervals, paging *)

Section StringOrder.

Lemma ascii_compare_refl (x : Ascii.ascii) : Ascii.compare x x = Eq.
Proof. unfold Ascii.compare. apply N.compare_refl. Qed.

Lemma string_compare_refl (a : string) : String.compare a a = Eq.
Proof. induction a as [|x a IH]; simpl; [done|]. by rewrite ascii_compare_refl. Qed.

Lemma string_lt_le_trans (a : string) :
  ∀ b c, String.compare a b = Lt → String.compare b c ≠ Gt → String.compare a c = Lt.
Proof.
  induction a as [|x a IH]; intros [|y b] [|z c]; simpl; try done.
  destruct (Ascii.compare x y) eqn:Hxy; try done;
    destruct (Ascii.compare y z) eqn:Hyz; try done.
  - apply Ascii.compare_eq_iff in Hxy as ->. apply Ascii.compare_eq_iff in Hyz as ->.
    rewrite ascii_compare_refl. apply IH.
  - apply Ascii.compare_eq_iff in Hxy as ->. by rewrite Hyz.
  - apply Ascii.compare_eq_iff in Hyz as ->. by rewrite Hxy.
  - unfold Ascii.compare in *.
    pose proof (proj1 (N.compare_lt_iff _ _) Hxy). pose proof (proj1 (N.compare_lt_iff _ _) Hyz).
    assert (N.compare (Ascii.N_of_ascii x) (Ascii.N_of_ascii z) = Lt) as ->
      by (apply N.compare_lt_iff; lia).
    done.
Qed.

Lemma string_le_lt_trans (a : string) :
  ∀ b c, String.compare a b ≠ Gt → String.compare b c = Lt → String.compare a c = Lt.
Proof.
  induction a as [|x a IH]; intros [|y b] [|z c]; simpl; try done.
  destruct (Ascii.compare x y) eqn:Hxy; try done;
    destruct (Ascii.compare y z) eqn:Hyz; try done.
  - apply Ascii.compare_eq_iff in Hxy as ->. apply Ascii.compare_eq_iff in Hyz as ->.
    rewrite ascii_compare_refl. apply IH.
  - apply Ascii.compare_eq_iff in Hxy as ->. by rewrite Hyz.
  - apply Ascii.compare_eq_iff in Hyz as ->. by rewrite Hxy.
  - unfold Ascii.compare in *.
    pose proof (proj1 (N.compare_lt_iff _ _) Hxy). pose proof (proj1 (N.compare_lt_iff _ _) Hyz).
    assert (N.compare (Ascii.N_of_ascii x) (Ascii.N_of_ascii z) = Lt) as ->
      by (apply N.compare_lt_iff; lia).
    done.
Qed.

Lemma ltb_leb_trans (a b c : string) :
  String.ltb a b = true → String.leb b c = true → String.ltb a c = true.
Proof.
  unfold String.ltb, String.leb. intros Hab Hbc.
  rewrite (string_lt_le_trans a b c); [done| |].
  - by destruct (String.compare a b).
  - by destruct (String.compare b c).
Qed.

Lemma leb_ltb_trans (a b c : string) :
  String.leb a b = true → String.ltb b c = true → String.ltb a c = true.
Proof.
  unfold String.ltb, String.leb. intros Hab Hbc.
  rewrite (string_le_lt_trans a b c); [done| |].
  - by destruct (String.compare a b).
  - by destruct (String.compare b c).
Qed.

Lemma ltb_leb (a b : string) : String.ltb a b = true → String.leb a b = true.
Proof. unfold String.ltb, String.leb. by destruct (String.compare a b). Qed.

Lemma leb_refl (a : string) : String.leb a a = true.
Proof. unfold String.leb. by rewrite string_compare_refl. Qed.

Lemma ltb_false_leb (a b : string) : String.ltb a b = false → String.leb b a = true.
Proof.
  unfold String.ltb, String.leb. rewrite (String.compare_antisym a b).
  by destruct (String.compare b a).
Qed.

Lemma ltb_irrefl (a : string) : String.ltb a a = false.
Proof. unfold String.ltb. by rewrite string_compare_refl. Qed.

End StringOrder.

Section BinarySearch.

Lemma Search_loop_S (fuel : nat) (f : nat → bool) (i j : nat) :
  sort.Search_loop (S fuel) f i j
  = if (i <? j)%nat then
      if negb (f ((i + j) / 2)%nat) then sort.Search_loop fuel f ((i + j) / 2 + 1) j
      else sort.Search_loop fuel f i ((i + j) / 2)
    else i.
Proof. reflexivity. Qed.

Lemma midpoint (i j : nat) : (i < j)%nat → (i ≤ (i + j) / 2 < j)%nat.
Proof.
  intros Hij. split; [apply Nat.div_le_lower_bound; lia | apply Nat.Div0.div_lt_upper_bound; lia].
Qed.

Lemma Search_loop_ext (fuel : nat) (f g : nat → bool) :
  ∀ i j, (∀ k, (i ≤ k < j)%nat → f k = g k) →
  sort.Search_loop fuel f i j = sort.Search_loop fuel g i j.
Proof.
  induction fuel as [|fuel IH]; intros i j Hfg; [done|]. rewrite !Search_loop_S.
  destruct (Nat.ltb_spec i j) as [Hij|Hij]; [|done].
  pose proof (midpoint i j Hij) as Hh.
  set (h := ((i + j) / 2)%nat) in *.
  rewrite <- (Hfg h Hh). destruct (f h); cbn [negb]; apply IH; intros k Hk; apply Hfg; lia.
Qed.

(** The loop of [sort.Search] ends within [j - i] turns, inside [i, j]; when
    [f] is false before [i], true from [j], and never goes back from true to
    false below [hi], the result is the boundary between false and true. *)
Lemma Search_loop_fuel (fuel : nat) (f : nat → bool) (hi : nat) :
  (∀ a b, (a ≤ b < hi)%nat → f a = true → f b = true) →
  ∀ i j, (j - i ≤ fuel)%nat → (i ≤ j ≤ hi)%nat →
  (∀ k, (k < i)%nat → f k = false) →
  (∀ k, (j ≤ k < hi)%nat → f k = true) →
  let r := sort.Search_loop fuel f i j in
  (i ≤ r ≤ j)%nat ∧ (∀ k, (k < r)%nat → f k = false) ∧ (∀ k, (r ≤ k < hi)%nat → f k = true).
Proof.
  intros Hmono. induction fuel as [|fuel IH]; intros i j Hfuel Hij Hlo Hhi.
  { simpl. assert (i = j) as -> by lia. split; [lia|]. split; [exact Hlo | exact Hhi]. }
  rewrite Search_loop_S.
  destruct (Nat.ltb_spec i j) as [Hlt|Hge].
  2:{ simpl. assert (i = j) as -> by lia. split; [lia|]. split; [exact Hlo | exact Hhi]. }
  pose proof (midpoint i j Hlt) as Hh.
  set (h := ((i + j) / 2)%nat) in *.
  destruct (f h) eqn:Hfh; cbn [negb].
  - destruct (IH i h) as (Hr & Hf & Ht); [lia | lia | exact Hlo | |].
    + intros k Hk. apply (Hmono h k); [lia | exact Hfh].
    + split; [lia|]. split; [exact Hf | exact Ht].
  - destruct (IH (h + 1)%nat j) as (Hr & Hf & Ht); [lia | lia | | exact Hhi |].
    + intros k Hk. destruct (f k) eqn:Hfk; [|done].
      rewrite (Hmono k h) in Hfh; [done | lia | exact Hfk].
    + split; [lia|]. split; [exact Hf | exact Ht].
Qed.

Lemma Search_le (n : nat) (f : nat → bool) : (sort.Search n f ≤ n)%nat.
Proof.
  unfold sort.Search. generalize n at 1 as fuel. intros fuel.
  assert (∀ i j, (i ≤ j)%nat → (i ≤ sort.Search_loop fuel f i j ≤ j)%nat) as H.
  { induction fuel as [|fuel IH]; intros i j Hij; [simpl; lia|]. rewrite Search_loop_S.
    destruct (Nat.ltb_spec i j) as [Hlt|Hge]; [|lia].
    pose proof (midpoint i j Hlt) as Hh.
    set (h := ((i + j) / 2)%nat) in *.
    destruct (f h); cbn [negb].
    - specialize (IH i h). lia.
    - specialize (IH (h + 1)%nat j). lia. }
  specialize (H 0%nat n). lia.
Qed.

End BinarySearch.

Section SortedEntries.

Lemma filter_all {A : Type} (P : A → bool) (l : list A) :
  (∀ x, x ∈ l → P x = true) → List.filter P l = l.
Proof.
  induction l as [|x l IH]; intros H; simpl; [done|].
  rewrite (H x (list_elem_of_here _ _)). f_equal. apply IH. intros y Hy.
  apply H. by apply list_elem_of_further.
Qed.

Lemma filter_none {A : Type} (P : A → bool) (l : list A) :
  (∀ x, x ∈ l → P x = false) → List.filter P l = [].
Proof.
  induction l as [|x l IH]; intros H; simpl; [done|].
  rewrite (H x (list_elem_of_here _ _)). apply IH. intros y Hy.
  apply H. by apply list_elem_of_further.
Qed.

Lemma forallb_elem_of {A : Type} (P : A → bool) (l : list A) :
  forallb P l = true ↔ ∀ x, x ∈ l → P x = true.
Proof.
  rewrite forallb_forall. split; intros H x Hx; apply H; by apply list_elem_of_In.
Qed.

Lemma sorted_lookup (l : list cmn.BucketEntry) :
  sorted l = true →
  ∀ i j a b, (i ≤ j)%nat → l !! i = Some a → l !! j = Some b →
  String.leb (cmn.Name a) (cmn.Name b) = true.
Proof.
  induction l as [|x l IH]; intros Hs i j a b Hij Ha Hb; [done|].
  simpl in Hs. apply andb_true_iff in Hs as [Hall Hs].
  destruct i as [|i], j as [|j]; simpl in Ha, Hb.
  - injection Ha as <-. injection Hb as <-. apply leb_refl.
  - injection Ha as <-. apply (proj1 (forallb_elem_of _ _) Hall).
    by eapply list_elem_of_lookup_2.
  - lia.
  - apply (IH Hs i j); [lia | done | done].
Qed.

Lemma sorted_app (l1 l2 : list cmn.BucketEntry) :
  sorted (l1 ++ l2) = true
  ↔ sorted l1 = true ∧ sorted l2 = true
    ∧ ∀ a b, a ∈ l1 → b ∈ l2 → String.leb (cmn.Name a) (cmn.Name b) = true.
Proof.
  induction l1 as [|x l1 IH]; simpl.
  - split; [intros H; split; [done|]; split; [done|] | by intros (_ & H & _)].
    intros a b Ha. by apply elem_of_nil in Ha.
  - rewrite !andb_true_iff, IH, !forallb_elem_of. split.
    + intros (Hx & H1 & H2 & H12). split; [split; [|done]|split; [done|]].
      * intros y Hy. apply Hx. apply elem_of_app. by left.
      * intros a b Ha Hb. apply elem_of_cons in Ha as [->|Ha]; [|by apply H12].
        apply Hx. apply elem_of_app. by right.
    + intros ((Hx & H1) & H2 & H12). split; [|split; [done|split; [done|]]].
      * intros y Hy. apply elem_of_app in Hy as [Hy|Hy]; [by apply Hx|].
        apply H12; [apply list_elem_of_here | done].
      * intros a b Ha Hb. apply H12; [by apply list_elem_of_further | done].
Qed.

Lemma sorted_take (n : nat) (l : list cmn.BucketEntry) :
  sorted l = true → sorted (take n l) = true.
Proof.
  intros H. rewrite <- (take_drop n l) in H. by apply sorted_app in H as (H & _).
Qed.

Lemma sorted_drop (n : nat) (l : list cmn.BucketEntry) :
  sorted l = true → sorted (drop n l) = true.
Proof.
  intros H. rewrite <- (take_drop n l) in H. by apply sorted_app in H as (_ & H & _).
Qed.

Lemma name_after_mono (tok : string) (l : list cmn.BucketEntry) :
  sorted l = true →
  ∀ a b, (a ≤ b < length l)%nat → name_after tok l a = true → name_after tok l b = true.
Proof.
  intros Hs a b Hab. unfold name_after.
  destruct (l !! a) as [ea|] eqn:Ha; [|done].
  destruct (lookup_lt_is_Some_2 l b) as [eb Hb]; [lia|]. rewrite Hb.
  intros Hlt. eapply ltb_leb_trans; [exact Hlt|].
  apply (sorted_lookup l Hs a b); [lia | done | done].
Qed.

(** On entries in order, the binary search for the names after [tok] splits
    the entries into those up to [tok] and those after it. *)
Lemma Search_splits_sorted (tok : string) (l : list cmn.BucketEntry) :
  sorted l = true →
  take (sort.Search (length l) (name_after tok l)) l = List.filter (upto tok) l
  ∧ drop (sort.Search (length l) (name_after tok l)) l = List.filter (after tok) l.
Proof.
  intros Hs. unfold sort.Search.
  destruct (Search_loop_fuel (length l) (name_after tok l) (length l)
              (name_after_mono tok l Hs) 0%nat (length l)) as (Hr & Hf & Ht);
    [lia | lia | intros k Hk; lia | intros k Hk; lia |].
  set (idx := sort.Search_loop (length l) (name_after tok l) 0 (length l)) in *.
  assert (∀ x, x ∈ take idx l → after tok x = false) as Htake.
  { intros x Hx. apply list_elem_of_lookup in Hx as [k Hk].
    apply lookup_take_Some in Hk as [Hk Hlt].
    specialize (Hf k Hlt). unfold name_after in Hf. by rewrite Hk in Hf. }
  assert (∀ x, x ∈ drop idx l → after tok x = true) as Hdrop.
  { intros x Hx. apply list_elem_of_lookup in Hx as [k Hk].
    rewrite lookup_drop in Hk.
    specialize (Ht (idx + k)%nat). unfold name_after in Ht. rewrite Hk in Ht.
    apply Ht. split; [lia|]. by eapply lookup_lt_Some. }
  split.
  - transitivity (List.filter (upto tok) (take idx l ++ drop idx l));
      [|by rewrite take_drop].
    rewrite List.filter_app, filter_all, filter_none, app_nil_r; [done| |].
    + intros x Hx. unfold upto. by rewrite (Hdrop x Hx).
    + intros x Hx. unfold upto. by rewrite (Htake x Hx).
  - transitivity (List.filter (after tok) (take idx l ++ drop idx l));
      [|by rewrite take_drop].
    rewrite List.filter_app, filter_none, filter_all; [done| |]; done.
Qed.

Lemma find_le (ci : cacheInterval.cacheInterval) (tok : string) :
  (cacheInterval.find ci tok ≤ length (cacheInterval.entries ci))%nat.
Proof.
  unfold cacheInterval.find. destruct (String.eqb _ _); [lia | apply Search_le].
Qed.

Lemma find_take_drop (ci : cacheInterval.cacheInterval) (tok : string) :
  interval_wf ci = true →
  take (cacheInterval.find ci tok) (cacheInterval.entries ci)
    = List.filter (upto tok) (cacheInterval.entries ci)
  ∧ drop (cacheInterval.find ci tok) (cacheInterval.entries ci)
    = List.filter (after tok) (cacheInterval.entries ci).
Proof.
  unfold interval_wf. intros [Hs Hall]%andb_true_iff. unfold cacheInterval.find.
  destruct (String.eqb_spec (cacheInterval.token ci) tok) as [<-|Hne];
    [|by apply Search_splits_sorted].
  rewrite forallb_elem_of in Hall. rewrite take_0, drop_0. split.
  - symmetry. apply filter_none. intros x Hx. unfold upto. by rewrite (Hall x Hx).
  - symmetry. by apply filter_all.
Qed.

(** [find] on an interval in order whose entries are all named after its
    token: the index it returns is the number of entries named up to the
    requested token; the entries before the index are those named up to the
    token, the entries from the index on are those named after it. *)
Theorem find_splits_interval_at_token (ci : cacheInterval.cacheInterval) (tok : string) :
  interval_wf ci = true →
  cacheInterval.find ci tok = length (List.filter (upto tok) (cacheInterval.entries ci))
  ∧ take (cacheInterval.find ci tok) (cacheInterval.entries ci)
    = List.filter (upto tok) (cacheInterval.entries ci)
  ∧ drop (cacheInterval.find ci tok) (cacheInterval.entries ci)
    = List.filter (after tok) (cacheInterval.entries ci).
Proof.
  intros Hwf. destruct (find_take_drop ci tok Hwf) as [Htake Hdrop].
  split; [|done]. rewrite <- Htake, length_take. pose proof (find_le ci tok). lia.
Qed.

End SortedEntries.

Lemma find_splits_interval_at_token_witness :
  cacheInterval.find page_am "c" = 2%nat
  ∧ take (cacheInterval.find page_am "c") (cacheInterval.entries page_am) = [obj "a"; obj "c"]
  ∧ drop (cacheInterval.find page_am "c") (cacheInterval.entries page_am) = [obj "m"].
Proof.
  exact (find_splits_interval_at_token page_am "c" eq_refl).
Defined.

Section IntervalGet.

Import cacheInterval.

Lemma seek_start_spec (pfx : string) (rest : list cmn.BucketEntry) :
  ∀ start s', seek_start rest start pfx = Some s' →
  (start ≤ s' ≤ start + length rest)%nat
  ∧ ∀ e, rest !! (s' - start)%nat = Some e → strings.HasPrefix (cmn.Name e) pfx = true.
Proof.
  induction rest as [|x rest IH]; intros start s' H; simpl in H.
  - injection H as <-. split; [simpl; lia | done].
  - destruct (strings.HasPrefix (cmn.Name x) pfx) eqn:Hx.
    + injection H as <-. split; [simpl; lia|]. rewrite Nat.sub_diag. by intros e [= <-].
    + destruct (String.ltb pfx (cmn.Name x)); [done|].
      destruct (IH _ _ H) as [Hr Hp]. split; [simpl; lia|].
      intros e He. apply Hp. by replace (s' - start)%nat with (S (s' - S start)) in He by lia.
Qed.

Lemma seek_end_spec (pfx : string) (es : list cmn.BucketEntry) :
  ∀ end_, (end_ ≤ length es)%nat →
  ∃ e', seek_end es end_ pfx = Done e' ∧ (e' ≤ end_)%nat
    ∧ ∀ x, (0 < e')%nat → es !! (e' - 1)%nat = Some x →
        strings.HasPrefix (cmn.Name x) pfx = true.
Proof.
  induction end_ as [|e IH]; intros Hle; simpl.
  - exists 0%nat. split; [done|]. split; [lia|]. intros x Hx. lia.
  - destruct (lookup_lt_is_Some_2 es e) as [x Hx]; [lia|].
    unfold index. rewrite Hx. simpl.
    destruct (strings.HasPrefix (cmn.Name x) pfx) eqn:Hp.
    + exists (S e). split; [done|]. split; [lia|]. intros y _ Hy.
      replace (S e - 1)%nat with e in Hy by lia. congruence.
    + destruct IH as (e' & He' & Hle' & Hp'); [lia|]. exists e'.
      split; [done|]. split; [lia | done].
Qed.

Lemma get_tail_spec (ci : cacheInterval) (objCnt : nat) (es : list cmn.BucketEntry)
    (end_ : nat) :
  (end_ ≤ length es)%nat →
  get_tail ci objCnt es end_ = Done (take end_ es, true)
  ∨ get_tail ci objCnt es end_ = Done ([], false).
Proof.
  intros Hle. unfold get_tail, slice_to. rewrite (proj2 (Nat.leb_le _ _) Hle). simpl.
  destruct (last ci || (objCnt <=? length (take end_ es))%nat); [by left | by right].
Qed.

Lemma get_from_spec (ci : cacheInterval) (objCnt : nat) (params : reqParams) (start : nat) :
  (start ≤ length (entries ci))%nat →
  ∃ e' r ok, get_from ci objCnt params start = Done (r, ok)
    ∧ (e' ≤ Nat.min (length (entries ci) - start) objCnt)%nat
    ∧ ((r = take e' (drop start (entries ci)) ∧ ok = true) ∨ (r = [] ∧ ok = false))
    ∧ (prefix params ≠ "" → ∀ x, (0 < e')%nat → entries ci !! (start + e' - 1)%nat = Some x →
         strings.HasPrefix (cmn.Name x) (prefix params) = true).
Proof.
  intros Hle. unfold get_from, slice_from. rewrite (proj2 (Nat.leb_le _ _) Hle). simpl.
  set (es := drop start (entries ci)).
  assert (length es = (length (entries ci) - start)%nat) as Hlen by apply length_drop.
  destruct (String.eqb_spec (prefix params) "") as [Hp|Hp]; simpl.
  - exists (Nat.min (length es) objCnt).
    destruct (get_tail_spec ci objCnt es (Nat.min (length es) objCnt)) as [->| ->]; [lia| |].
    + eexists _, _. split; [done|]. split; [lia|]. split; [by left | done].
    + eexists _, _. split; [done|]. split; [lia|]. split; [by right | done].
  - destruct (seek_end_spec (prefix params) es (Nat.min (length es) objCnt))
      as (e' & -> & He' & Hpre); [lia|]. simpl. exists e'.
    assert (∀ x, (0 < e')%nat → entries ci !! (start + e' - 1)%nat = Some x →
              strings.HasPrefix (cmn.Name x) (prefix params) = true) as Hpre'.
    { intros x Hpos Hx. apply (Hpre x Hpos). unfold es. rewrite lookup_drop.
      by replace (start + (e' - 1))%nat with (start + e' - 1)%nat by lia. }
    destruct (negb (last ci) && (e' <? length es)%nat).
    + unfold slice_to. rewrite (proj2 (Nat.leb_le e' (length es))) by lia. simpl.
      eexists _, _. split; [done|]. split; [lia|]. split; [by left | done].
    + destruct (get_tail_spec ci objCnt es e') as [->| ->]; [lia| |].
      * eexists _, _. split; [done|]. split; [lia|]. split; [by left | done].
      * eexists _, _. split; [done|]. split; [lia|]. split; [by right | done].
Qed.

(** The shape of every result of [get]: it never panics, and what it
    returns is [e'] entries of the interval from position [s] on, where [s]
    is at or after the position of the token. *)
Lemma get_shape (ci : cacheInterval) (tok : string) (objCnt : nat) (params : reqParams) :
  ∃ s e' r ok, get ci tok objCnt params = Done (r, ok)
    ∧ (find ci tok ≤ s ≤ length (entries ci))%nat
    ∧ (e' ≤ Nat.min (length (entries ci) - s) objCnt)%nat
    ∧ ((r = take e' (drop s (entries ci)) ∧ ok = true) ∨ (r = [] ∧ ok = false))
    ∧ (prefix params ≠ "" → (0 < e')%nat →
         (∀ x, entries ci !! s = Some x →
            strings.HasPrefix (cmn.Name x) (prefix params) = true)
         ∧ (∀ x, entries ci !! (s + e' - 1)%nat = Some x →
            strings.HasPrefix (cmn.Name x) (prefix params) = true)).
Proof.
  unfold get. pose proof (find_le ci tok) as Hfind.
  destruct (String.eqb_spec (prefix params) "") as [Hp|Hp]; simpl.
  - destruct (get_from_spec ci objCnt params (find ci tok) Hfind) as (e' & r & ok & H & He & Hr & _).
    exists (find ci tok), e', r, ok. split; [done|]. split; [lia|]. split; [done|].
    split; [done|]. intros Hne. done.
  - destruct (seek_start (drop (find ci tok) (entries ci)) (find ci tok) (prefix params))
      as [s|] eqn:Hs.
    2:{ exists (find ci tok), 0%nat, [], true. split; [done|]. split; [lia|]. split; [lia|].
        split; [left; by rewrite take_0 | intros _ Hpos; lia]. }
    apply seek_start_spec in Hs as [Hr Hpre]. rewrite length_drop in Hr.
    destruct (negb (last ci) && (s =? length (entries ci))%nat).
    { exists s, 0%nat, [], false. split; [done|]. split; [lia|]. split; [lia|].
      split; [by right | intros _ Hpos; lia]. }
    destruct (get_from_spec ci objCnt params s) as (e' & r & ok & H & He & Hres & Hlast); [lia|].
    exists s, e', r, ok. split; [done|]. split; [lia|]. split; [done|]. split; [done|].
    intros _ Hpos. split; [|intros x; by apply Hlast].
    intros x Hx. apply Hpre. rewrite lookup_drop.
    by replace (find ci tok + (s - find ci tok))%nat with s by lia.
Qed.

(** Whatever the interval, the token, the count and the prefix, [get]
    returns (it does not go out of bounds): at most [objCnt] entries, which
    are consecutive entries of the interval; no entries when it reports
    that the interval does not have enough; and with a prefix, the first and
    the last entry returned carry the prefix. *)
Theorem get_returns_part_of_interval (ci : cacheInterval) (tok : string) (objCnt : nat)
    (params : reqParams) :
  ∃ es ok, get ci tok objCnt params = Done (es, ok)
    ∧ (length es ≤ objCnt)%nat
    ∧ (∃ pre suf, entries ci = pre ++ es ++ suf)
    ∧ (ok = false → es = [])
    ∧ (prefix params ≠ "" →
       ∀ e, head es = Some e ∨ list.last es = Some e →
         strings.HasPrefix (cmn.Name e) (prefix params) = true).
Proof.
  destruct (get_shape ci tok objCnt params) as (s & e' & r & ok & H & Hs & He & Hr & Hp).
  exists r, ok. split; [exact H|].
  destruct Hr as [[-> ->]|[-> ->]].
  - split; [rewrite length_take; lia|]. split.
    { exists (take s (entries ci)), (drop e' (drop s (entries ci))).
      by rewrite take_drop, take_drop. }
    split; [done|]. intros Hne e Hhl.
    destruct (decide (e' = 0%nat)) as [->|Hpos].
    { rewrite take_0 in Hhl. by destruct Hhl. }
    destruct (Hp Hne) as [Hfirst Hlast]; [lia|].
    destruct Hhl as [Hh|Hl].
    + apply Hfirst. rewrite head_lookup in Hh.
      rewrite lookup_take_lt in Hh by lia. rewrite lookup_drop in Hh.
      by rewrite Nat.add_0_r in Hh.
    + apply Hlast. rewrite last_lookup in Hl. rewrite length_take, length_drop in Hl.
      rewrite lookup_take_lt in Hl by lia. rewrite lookup_drop in Hl.
      by replace (s + e' - 1)%nat
        with (s + Nat.pred (Nat.min e' (length (entries ci) - s)))%nat by lia.
  - split; [simpl; lia|]. split; [by exists [], (entries ci)|]. split; [done|].
    intros _ e [?|?]; done.
Qed.

End IntervalGet.

Section IntervalGetSorted.

Import cacheInterval.

Lemma prefix_between (p : string) :
  ∀ a b c, String.prefix p a = true → String.prefix p c = true →
  String.leb a b = true → String.leb b c = true → String.prefix p b = true.
Proof.
  induction p as [|x p IH]; intros a b c Ha Hc Hab Hbc; [by destruct b|].
  destruct a as [|ya a]; [done|]. destruct c as [|yc c]; [done|].
  simpl in Ha, Hc.
  destruct (Ascii.ascii_dec x ya) as [<-|]; [|done].
  destruct (Ascii.ascii_dec x yc) as [<-|]; [|done].
  destruct b as [|yb b]; [done|].
  unfold String.leb in Hab, Hbc. simpl in Hab, Hbc. simpl.
  rewrite (Ascii.compare_antisym yb x) in Hbc.
  destruct (Ascii.compare x yb) eqn:Hx; simpl in Hbc; [|done|done].
  apply Ascii.compare_eq_iff in Hx as <-.
  destruct (Ascii.ascii_dec x x); [|done].
  by apply (IH a b c).
Qed.

(** On an interval in order whose entries are all named after its token,
    every entry that [get] returns is named after the requested token and
    carries the requested prefix. *)
Theorem get_returns_entries_after_token_with_prefix (ci : cacheInterval) (tok : string)
    (objCnt : nat) (params : reqParams) (es : list cmn.BucketEntry) (ok : bool) :
  interval_wf ci = true →
  get ci tok objCnt params = Done (es, ok) →
  ∀ e, e ∈ es →
    after tok e = true ∧ strings.HasPrefix (cmn.Name e) (prefix params) = true.
Proof.
  intros Hwf Hget e He.
  destruct (get_shape ci tok objCnt params) as (s & e' & r & ok' & H & Hs & He' & Hr & Hp).
  rewrite Hget in H. injection H as <- <-.
  destruct Hr as [[-> _]|[-> _]]; [|by apply elem_of_nil in He].
  apply list_elem_of_lookup in He as [k Hk].
  apply lookup_take_Some in Hk as [Hk Hlt]. rewrite lookup_drop in Hk.
  destruct (find_take_drop ci tok Hwf) as [_ Hdrop].
  apply andb_true_iff in Hwf as [Hsorted _].
  split.
  - assert (e ∈ drop (find ci tok) (entries ci)) as Hin.
    { apply list_elem_of_lookup. exists (s + k - find ci tok)%nat. rewrite lookup_drop.
      by replace (find ci tok + (s + k - find ci tok))%nat with (s + k)%nat by lia. }
    rewrite Hdrop in Hin. apply list_elem_of_In, List.filter_In in Hin. tauto.
  - destruct (String.eqb_spec (prefix params) "") as [->|Hne];
      [unfold strings.HasPrefix; by destruct (cmn.Name e)|].
    destruct (Hp Hne) as [Hfirst Hlast]; [lia|].
    destruct (lookup_lt_is_Some_2 (entries ci) s) as [x Hx];
      [apply lookup_lt_Some in Hk; lia|].
    destruct (lookup_lt_is_Some_2 (entries ci) (s + e' - 1)%nat) as [y Hy]; [lia|].
    unfold strings.HasPrefix.
    apply (prefix_between _ (cmn.Name x) _ (cmn.Name y)).
    + by apply Hfirst.
    + by apply Hlast.
    + apply (sorted_lookup _ Hsorted s (s + k)%nat); [lia | done | done].
    + apply (sorted_lookup _ Hsorted (s + k)%nat (s + e' - 1)%nat); [lia | done | done].
Qed.

End IntervalGetSorted.

Lemma get_returns_entries_after_token_with_prefix_witness :
  cacheInterval.get
    (cacheInterval.mkInterval "" [obj "a"; obj "ma"; obj "mb"; obj "z"] false)
    "a" 4 (cacheInterval.mkParams "m") = Done ([obj "ma"; obj "mb"], true)
  ∧ ∀ e, e ∈ [obj "ma"; obj "mb"] →
      after "a" e = true ∧ strings.HasPrefix (cmn.Name e) "m" = true.
Proof.
  split; [reflexivity|].
  exact (get_returns_entries_after_token_with_prefix
           (cacheInterval.mkInterval "" [obj "a"; obj "ma"; obj "mb"; obj "z"] false)
           "a" 4 (cacheInterval.mkParams "m") [obj "ma"; obj "mb"] true eq_refl eq_refl).
Defined.

Section IntervalMerge.

Import cacheInterval.

Lemma leb_not_ltb (a b : string) : String.leb a b = true → String.ltb b a = false.
Proof.
  unfold String.leb, String.ltb. rewrite (String.compare_antisym a b).
  by destruct (String.compare b a).
Qed.

Lemma ltb_not_leb (a b : string) : String.ltb a b = true → String.leb b a = false.
Proof.
  unfold String.leb, String.ltb. rewrite (String.compare_antisym a b).
  by destruct (String.compare b a).
Qed.

Lemma append_result (ci objs : cacheInterval) :
  interval_wf ci = true →
  append ci objs
  = Done (mkInterval (token ci)
            (List.filter (upto (token objs)) (entries ci) ++ entries objs) (last objs)).
Proof.
  intros Hci. destruct (find_take_drop ci (token objs) Hci) as [Htake _].
  unfold append, slice_to. rewrite (proj2 (Nat.leb_le _ _) (find_le ci (token objs))).
  simpl. by rewrite Htake.
Qed.

(** [append], called as [merge] calls it (on an interval that contains the
    token of the page): the entries of the interval named after the token
    of the page give way to the page, and the interval stays in order, with
    all its entries named after its own token. *)
Theorem append_keeps_interval_in_order (ci objs : cacheInterval) :
  interval_wf ci = true → interval_wf objs = true → contains ci (token objs) = true →
  ∃ ci', append ci objs = Done ci'
    ∧ interval_wf ci' = true
    ∧ entries ci' = List.filter (upto (token objs)) (entries ci) ++ entries objs
    ∧ token ci' = token ci ∧ last ci' = last objs.
Proof.
  intros Hci Hobjs Hcont. rewrite (append_result ci objs Hci).
  eexists. split; [done|]. simpl. split; [|done].
  pose proof (sorted_take (find ci (token objs)) (entries ci)) as Hst.
  rewrite (proj1 (find_take_drop ci (token objs) Hci)) in Hst.
  apply andb_true_iff in Hci as [Hs1 Ha1]. apply andb_true_iff in Hobjs as [Hs2 Ha2].
  rewrite forallb_elem_of in Ha1, Ha2.
  unfold interval_wf. simpl. apply andb_true_iff. split.
  - apply sorted_app. split; [by apply Hst|]. split; [done|].
    intros a b Ha Hb. apply list_elem_of_In, List.filter_In in Ha as [_ Ha].
    unfold upto, after in Ha. apply negb_true_iff, ltb_false_leb in Ha.
    apply ltb_leb. eapply leb_ltb_trans; [exact Ha|]. by apply Ha2.
  - apply forallb_elem_of. intros x Hx. apply elem_of_app in Hx as [Hx|Hx].
    + apply list_elem_of_In, List.filter_In in Hx as [Hx _]. by apply Ha1, list_elem_of_In.
    + specialize (Ha2 x Hx). unfold contains in Hcont.
      destruct (String.eqb_spec (token ci) (token objs)) as [->|Hne]; [done|].
      destruct (entries ci !! 0%nat) as [first|] eqn:Hfirst; [|done].
      destruct (entries ci !! (length (entries ci) - 1)%nat) as [lst|]; [|done].
      apply andb_true_iff in Hcont as [Hle _].
      unfold after in *. eapply ltb_leb_trans; [|apply ltb_leb; exact Ha2].
      eapply ltb_leb_trans; [|exact Hle]. apply Ha1. by eapply list_elem_of_lookup_2.
Qed.

(** [prepend] of a page that is not the last one: the interval keeps its
    token, and what is put in front of its entries is the part of the page
    named after that token; the entries of the page up to the token are not
    taken. *)
Theorem prepend_takes_page_after_token (ci objs : cacheInterval) :
  interval_wf objs = true → last objs = false →
  ∃ ci', prepend ci objs = Done ci'
    ∧ entries ci' = List.filter (after (token ci)) (entries objs) ++ entries ci
    ∧ token ci' = token ci ∧ last ci' = last ci.
Proof.
  intros Hobjs Hlast.
  destruct (find_take_drop objs (token ci) Hobjs) as [_ Hdrop].
  unfold prepend, slice_from. rewrite Hlast. simpl.
  rewrite (proj2 (Nat.leb_le _ _) (find_le objs (token ci))). simpl.
  eexists. split; [done|]. simpl. by rewrite Hdrop.
Qed.

(** [get] at the token of the interval itself and without prefix: the first
    [objCnt] entries, when there are that many or when the interval is the
    last one. *)
Lemma get_at_own_token (ci : cacheInterval) (objCnt : nat) :
  get ci (token ci) objCnt (mkParams "")
  = Done (if last ci || (objCnt <=? length (entries ci))%nat
          then (take objCnt (entries ci), true) else ([], false)).
Proof.
  unfold get, find. simpl. rewrite !String.eqb_refl.
  unfold get_from, slice_from. simpl. rewrite drop_0.
  unfold get_tail, slice_to.
  rewrite (proj2 (Nat.leb_le _ _) (Nat.le_min_l (length (entries ci)) objCnt)). simpl.
  rewrite length_take.
  destruct (Nat.leb_spec objCnt (length (entries ci))) as [Hle|Hgt].
  - rewrite (Nat.min_r _ _ Hle), (Nat.min_l _ _ Hle), (proj2 (Nat.leb_le _ _) (le_n objCnt)).
    by rewrite orb_true_r.
  - rewrite (Nat.min_l (length (entries ci)) objCnt) by lia. rewrite Nat.min_id.
    rewrite (proj2 (Nat.leb_gt _ _) Hgt). rewrite !orb_false_r.
    destruct (last ci); [|done]. by rewrite !take_ge by lia.
Qed.

End IntervalMerge.

Lemma append_keeps_interval_in_order_witness :
  ∃ ci', cacheInterval.append page_am page_cp = Done ci'
    ∧ cacheInterval.entries ci' = [obj "a"; obj "c"; obj "m"; obj "p"]
    ∧ interval_wf ci' = true.
Proof.
  destruct (append_keeps_interval_in_order page_am page_cp eq_refl eq_refl eq_refl)
    as (ci' & H & Hwf & Hes & _).
  exists ci'. split; [exact H|]. split; [exact Hes | exact Hwf].
Defined.

Lemma prepend_takes_page_after_token_witness :
  ∃ ci', cacheInterval.prepend page_cp page_am = Done ci'
    ∧ cacheInterval.entries ci' = [obj "m"; obj "m"; obj "p"]
    ∧ cacheInterval.token ci' = "c".
Proof.
  destruct (prepend_takes_page_after_token page_cp page_am eq_refl eq_refl)
    as (ci' & H & Hes & Htok & _).
  exists ci'. split; [exact H|]. split; [exact Hes | exact Htok].
Defined.

Section Buffer.

(** [hasEnough] on a buffer in order: true exactly when [size] is not 0 and
    at least [size] entries of the buffer are named after the token. *)
Theorem hasEnough_counts_entries_after_token (b : queryBuffer.queryBuffer) (tok : string)
    (size : nat) :
  sorted (queryBuffer.currentBuff b) = true →
  queryBuffer.hasEnough b tok size
  = Done (negb (size =? 0)%nat
          && (size <=? length (List.filter (after tok) (queryBuffer.currentBuff b)))%nat).
Proof.
  intros Hs. unfold queryBuffer.hasEnough. destruct (size =? 0)%nat; [done|].
  unfold slice_from. rewrite (proj2 (Nat.leb_le _ _) (Search_le _ _)). simpl.
  by destruct (Search_splits_sorted tok _ Hs) as [_ ->].
Qed.

End Buffer.

Lemma hasEnough_counts_entries_after_token_witness :
  queryBuffer.hasEnough (queryBuffer.mkBuffer [obj "a"; obj "c"; obj "m"] ∅) "a" 2 = Done true
  ∧ queryBuffer.hasEnough (queryBuffer.mkBuffer [obj "a"; obj "c"; obj "m"] ∅) "c" 2
    = Done false.
Proof.
  split.
  - exact (hasEnough_counts_entries_after_token
             (queryBuffer.mkBuffer [obj "a"; obj "c"; obj "m"] ∅) "a" 2 eq_refl).
  - exact (hasEnough_counts_entries_after_token
             (queryBuffer.mkBuffer [obj "a"; obj "c"; obj "m"] ∅) "c" 2 eq_refl).
Defined.

Section Cache.

Import cacheInterval.

Lemma findInterval_from_app (l1 l2 : list cacheInterval) (tok : string) :
  ∀ i, queryCache.findInterval_from (l1 ++ l2) i tok
       = match queryCache.findInterval_from l1 i tok with
         | Some p => Some p
         | None => queryCache.findInterval_from l2 (i + length l1) tok
         end.
Proof.
  induction l1 as [|ci l1 IH]; intros i; simpl; [by rewrite Nat.add_0_r|].
  destruct (contains ci tok); [done|]. rewrite IH. by rewrite Nat.add_succ_r.
Qed.

Lemma set_fresh_page (c : queryCache.queryCache) (tok : string)
    (es : list cmn.BucketEntry) (size : nat) :
  queryCache.findInterval c tok = None →
  (∀ lst, es !! (length es - 1)%nat = Some lst →
     queryCache.findInterval c (cmn.Name lst) = None) →
  queryCache.set c tok es size
  = Done (queryCache.mkCache
            (queryCache.intervals c ++ [mkInterval tok es (length es <? size)%nat])).
Proof.
  intros Hstart Hend. unfold queryCache.set. rewrite Hstart.
  assert (match es !! (length es - 1)%nat with
          | Some lst => queryCache.findInterval c (cmn.Name lst)
          | None => None
          end = None) as ->; [|done].
  destruct (es !! (length es - 1)%nat) as [lst|] eqn:Hl; [by apply Hend | done].
Qed.

(** A page that no interval of the cache reaches (neither its token nor its
    last name is in an interval) becomes a new interval at the end, and a
    request at the token of the page is then served from it: the first
    [objCnt] entries of the page, when the page has that many or is the
    last one, and nothing otherwise. *)
Theorem set_then_get_serves_the_page (c : queryCache.queryCache) (tok : string)
    (es : list cmn.BucketEntry) (size : nat) :
  queryCache.findInterval c tok = None →
  (∀ lst, es !! (length es - 1)%nat = Some lst →
     queryCache.findInterval c (cmn.Name lst) = None) →
  ∃ c', queryCache.set c tok es size = Done c'
    ∧ queryCache.intervals c'
      = queryCache.intervals c ++ [mkInterval tok es (length es <? size)%nat]
    ∧ ∀ objCnt, queryCache.get c' tok objCnt (mkParams "")
        = Done (if (length es <? size)%nat || (objCnt <=? length es)%nat
                then (take objCnt es, true) else ([], false)).
Proof.
  intros Hstart Hend. rewrite (set_fresh_page c tok es size Hstart Hend).
  eexists. split; [done|]. split; [done|].
  intros objCnt. unfold queryCache.get, queryCache.findInterval. simpl.
  unfold queryCache.findInterval in Hstart.
  rewrite findInterval_from_app, Hstart. simpl.
  unfold contains. simpl. rewrite String.eqb_refl.
  unfold queryCache.deref. simpl. rewrite list_lookup_middle by done. simpl.
  apply (get_at_own_token (mkInterval tok es (length es <? size)%nat) objCnt).
Qed.

(** Two consecutive pages set into an empty cache, the second one asked for
    at the last name of the first, end up as one interval, and a request at
    the first token is served across the boundary of the pages. *)
Theorem consecutive_pages_are_served_as_one (t0 : string) (es1 es2 : list cmn.BucketEntry)
    (l1 : cmn.BucketEntry) (size1 size2 : nat) :
  interval_wf (mkInterval t0 es1 false) = true →
  es1 !! (length es1 - 1)%nat = Some l1 →
  interval_wf (mkInterval (cmn.Name l1) es2 false) = true →
  ∃ c1 c2,
    queryCache.set (queryCache.mkCache []) t0 es1 size1 = Done c1
    ∧ queryCache.set c1 (cmn.Name l1) es2 size2 = Done c2
    ∧ queryCache.intervals c2 = [mkInterval t0 (es1 ++ es2) (length es2 <? size2)%nat]
    ∧ ∀ objCnt, queryCache.get c2 t0 objCnt (mkParams "")
        = Done (if (length es2 <? size2)%nat || (objCnt <=? length (es1 ++ es2))%nat
                then (take objCnt (es1 ++ es2), true) else ([], false)).
Proof.
  intros Hwf1 Hl1 Hwf2.
  pose proof (set_fresh_page (queryCache.mkCache []) t0 es1 size1) as Hset1.
  simpl in Hset1.
  set (I1 := mkInterval t0 es1 (length es1 <? size1)%nat) in *.
  set (c1 := queryCache.mkCache [I1]) in *.
  assert (queryCache.intervals c1 = [I1]) as Hc1 by done.
  specialize (Hset1 eq_refl (λ _ _, eq_refl)). exists c1.
  set (cur := mkInterval (cmn.Name l1) es2 (length es2 <? size2)%nat).
  assert (interval_wf I1 = true) as HwfI by exact Hwf1.
  assert (interval_wf cur = true) as Hwfc by exact Hwf2.
  apply andb_true_iff in Hwf1 as [Hs1 Ha1]. apply andb_true_iff in Hwf2 as [Hs2 Ha2].
  simpl in Hs1, Ha1, Hs2, Ha2. rewrite forallb_elem_of in Ha1, Ha2.
  assert (String.ltb t0 (cmn.Name l1) = true) as Ht0 by (eapply Ha1, list_elem_of_lookup_2, Hl1).
  destruct (lookup_lt_is_Some_2 es1 0%nat) as [f1 Hf1];
    [apply lookup_lt_Some in Hl1; lia|].
  assert (contains I1 (cmn.Name l1) = true) as Hcont.
  { unfold contains. simpl. rewrite Hf1, Hl1.
    destruct (String.eqb_spec t0 (cmn.Name l1)) as [Heq|_]; [done|].
    rewrite leb_refl, andb_true_r.
    apply (sorted_lookup es1 Hs1 0%nat (length es1 - 1)%nat); [lia | done | done]. }
  assert (∀ x, x ∈ es2 → contains I1 (cmn.Name x) = false) as Hnot.
  { intros x Hx. specialize (Ha2 x Hx). unfold after in Ha2. unfold contains. simpl.
    rewrite Hf1, Hl1.
    destruct (String.eqb_spec t0 (cmn.Name x)) as [Heq|_].
    - rewrite <- Heq in Ha2. apply ltb_leb, leb_not_ltb in Ha2. congruence.
    - by rewrite (ltb_not_leb _ _ Ha2), andb_false_r. }
  pose proof (append_result I1 cur HwfI) as Happ.
  assert (List.filter (upto (cmn.Name l1)) es1 = es1) as Hall.
  { apply filter_all. intros x Hx. apply list_elem_of_lookup in Hx as [k Hk].
    unfold upto, after. apply negb_true_iff, leb_not_ltb.
    apply (sorted_lookup es1 Hs1 k (length es1 - 1)%nat); [|done|done].
    apply lookup_lt_Some in Hk. lia. }
  simpl in Happ. rewrite Hall in Happ.
  exists (queryCache.mkCache [mkInterval t0 (es1 ++ es2) (length es2 <? size2)%nat]).
  split; [exact Hset1|]. split; [|split; [done|]].
  - unfold queryCache.set, queryCache.findInterval. rewrite Hc1. simpl. rewrite Hcont.
    assert (match es2 !! (length es2 - 1)%nat with
            | Some lst => if contains I1 (cmn.Name lst) then Some 0%nat else None
            | None => None
            end = None) as ->.
    { destruct (es2 !! (length es2 - 1)%nat) as [lst|] eqn:Hl; [|done].
      by rewrite (Hnot lst (list_elem_of_lookup_2 _ _ _ Hl)). }
    unfold queryCache.merge, queryCache.deref. rewrite Hc1. simpl.
    fold cur. by rewrite Happ.
  - intros objCnt. unfold queryCache.get, queryCache.findInterval. simpl.
    unfold contains at 1. simpl. rewrite String.eqb_refl. simpl.
    apply (get_at_own_token (mkInterval t0 (es1 ++ es2) (length es2 <? size2)%nat) objCnt).
Qed.

End Cache.

Lemma set_then_get_serves_the_page_witness :
  ∃ c', queryCache.set (queryCache.mkCache [page_am]) "p" [obj "q"; obj "z"] 2 = Done c'
    ∧ queryCache.get c' "p" 2 (cacheInterval.mkParams "") = Done ([obj "q"; obj "z"], true)
    ∧ queryCache.get c' "p" 3 (cacheInterval.mkParams "") = Done ([], false).
Proof.
  destruct (set_then_get_serves_the_page (queryCache.mkCache [page_am]) "p"
              [obj "q"; obj "z"] 2) as (c' & Hset & _ & Hget).
  - reflexivity.
  - intros lst [= <-]. reflexivity.
  - exists c'. split; [exact Hset|]. split; [exact (Hget 2%nat) | exact (Hget 3%nat)].
Defined.

Lemma consecutive_pages_are_served_as_one_witness :
  ∃ c1 c2,
    queryCache.set (queryCache.mkCache []) "" [obj "a"; obj "c"; obj "m"] 3 = Done c1
    ∧ queryCache.set c1 "m" [obj "p"; obj "z"] 3 = Done c2
    ∧ queryCache.get c2 "" 4 (cacheInterval.mkParams "")
      = Done ([obj "a"; obj "c"; obj "m"; obj "p"], true).
Proof.
  destruct (consecutive_pages_are_served_as_one "" [obj "a"; obj "c"; obj "m"]
              [obj "p"; obj "z"] (obj "m") 3 3 eq_refl eq_refl eq_refl)
    as (c1 & c2 & H1 & H2 & _ & Hget).
  exists c1, c2. split; [exact H1|]. split; [exact H2 | exact (Hget 4%nat)].
Defined.

(** ** The registry when a notifier has left the cluster *)

Section MembershipDeparture.

Import notifs.

Variable range_running : gset string → list string.
Variable range_srcs : gmap string (option Snode) → list (string * option Snode).
Hypothesis range_running_complete : ∀ (s : gset string) x, x ∈ s → x ∈ range_running s.

Lemma stopping_step (id sid : string) (now_ : Z) (n0 acc : notifs) (b : bool)
    (i s : string) :
  0 < now_ → (i = id → s = sid) →
  stopping id sid now_ n0 b acc →
  stopping id sid now_ n0 (b || String.eqb i id)
    match nls acc !! i with
    | None => acc
    | Some nl =>
      let nl1 := addErr s (ErrNodeNotFound s) nl in
      callback NodeLeft now_ nl1 (store nl1 acc)
    end.
Proof.
  intros Hnow Hs (Hwf & Hm & Hv & x & Hx & Hb).
  destruct (nls acc !! i) as [nli|] eqn:Hi.
  2:{ destruct (String.eqb_spec i id) as [->|Hne]; [congruence|].
      rewrite orb_false_r. split; [done|]. split; [done|]. split; [done|]. eauto. }
  pose proof (Hwf _ _ Hi) as Hu. simpl.
  set (nl1 := addErr s (ErrNodeNotFound s) nli).
  assert (uuid nl1 = i) as Hu1 by exact Hu.
  destruct (callback_frame NodeLeft now_ nl1 (store nl1 acc)) as (Hwf' & Hm' & Hfin' & _).
  split; [by apply Hwf', uuid_wf_store|]. split; [by rewrite Hm'|].
  split; [unfold callback; simpl; exact Hv|].
  unfold callback. rewrite callback_run_from_entry. simpl. rewrite Hu.
  destruct (String.eqb_spec i id) as [->|Hne].
  - rewrite orb_true_r. specialize (Hs eq_refl). subst s.
    rewrite Hx in Hi. injection Hi as <-.
    rewrite lookup_insert_eq. eexists. split; [reflexivity|].
    destruct b.
    + destruct Hb as (Ht & Hf & He). rewrite Ht.
      assert (Z.eqb now_ 0 = false) as -> by lia. simpl.
      rewrite bool_decide_eq_true_2 by done.
      split; [done|]. split; [set_solver|]. apply lookup_insert_eq.
    + rewrite Hb. simpl. split; [done|]. split; [set_solver|]. apply lookup_insert_eq.
  - rewrite orb_false_r. rewrite !lookup_insert_ne by done.
    exists x. split; [done|]. destruct b; [|done].
    destruct Hb as (Ht & Hf & He). split; [done|]. split; [|done].
    destruct (Z.eqb (tfin nli) 0); simpl; [set_solver|].
    case_bool_decide; set_solver.
Qed.

Lemma stopping_fold (id sid : string) (now_ : Z) (n0 : notifs) (rem : list (string * string)) :
  0 < now_ → (∀ i s, (i, s) ∈ rem → i = id → s = sid) →
  ∀ b acc, stopping id sid now_ n0 b acc →
  stopping id sid now_ n0 (b || existsb (λ kv, String.eqb kv.1 id) rem)
    (foldl (λ acc '(id, sid),
              match nls acc !! id with
              | None => acc
              | Some nl =>
                let nl1 := addErr sid (ErrNodeNotFound sid) nl in
                callback NodeLeft now_ nl1 (store nl1 acc)
              end) acc rem).
Proof.
  intros Hnow. induction rem as [|[i s] rem IH]; intros Hs b acc Hacc; simpl.
  { by rewrite orb_false_r. }
  rewrite orb_assoc. apply IH.
  - intros i' s' Hin. apply Hs. by apply list_elem_of_further.
  - apply stopping_step; [done | | done]. apply Hs, list_elem_of_here.
Qed.

Lemma del_fold (id : string) (rem : list (string * string)) :
  ∀ acc, uuid_wf acc → is_Some (nls acc !! id) →
  let acc' := foldl (λ acc '(id, _),
                       match nls acc !! id with
                       | None => acc
                       | Some nl => del nl acc
                       end) acc rem in
  nls acc' = nls acc ∧ fin acc' = fin acc ∧ smapVer acc' = smapVer acc
  ∧ (id ∉ m acc ∨ existsb (λ kv, String.eqb kv.1 id) rem = true → id ∉ m acc').
Proof.
  induction rem as [|[i s] rem IH]; intros acc Hwf Hid; simpl.
  { split; [done|]. split; [done|]. split; [done|]. intros [H|H]; done. }
  set (acc1 := match nls acc !! i with None => acc | Some nl => del nl acc end).
  assert (nls acc1 = nls acc ∧ fin acc1 = fin acc ∧ smapVer acc1 = smapVer acc
          ∧ m acc1 ⊆ m acc ∧ (i = id → id ∉ m acc1)) as (Hn & Hf & Hv & Hm & Hdel).
  { unfold acc1. destruct (nls acc !! i) as [nli|] eqn:Hi; simpl.
    - rewrite (Hwf _ _ Hi). split; [done|]. split; [done|]. split; [done|].
      split; [set_solver|]. intros ->. set_solver.
    - split; [done|]. split; [done|]. split; [done|]. split; [done|].
      intros ->. destruct Hid as [? Hid]. congruence. }
  destruct (IH acc1) as (Hn' & Hf' & Hv' & Hm').
  { intros k x Hk. rewrite Hn in Hk. by apply Hwf. }
  { by rewrite Hn. }
  split; [congruence|]. split; [congruence|]. split; [congruence|].
  intros H. apply Hm'. destruct H as [H|H]; [left; set_solver|].
  apply orb_true_iff in H as [H|H]; [|by right].
  left. apply Hdel. by apply String.eqb_eq.
Qed.

(** When the cluster map changes and a node that a running listener still
    waits for is no longer in it, the listener is stopped: the error of the
    departed node is recorded, the listener is finished at the time of the
    call and moved from the running set to the finished set, where it stays
    registered; the registry records the new version. *)
Theorem ListenSmapChanged_stops_listener_of_departed_node (now_ : Z) (smap : smapX)
    (n : notifs) (id sid : string) (nl : notifListenerBase) :
  uuid_wf n → smapVer n < Version smap → 0 < now_ →
  id ∈ m n → nls n !! id = Some nl → tfin nl = 0 →
  departed range_srcs smap nl = Some sid →
  ∃ nl', nls (ListenSmapChanged range_running range_srcs true now_ smap n) !! id = Some nl'
    ∧ finTime nl' = now_ ∧ finished nl' = true
    ∧ errs nl' !! sid = Some (ErrNodeNotFound sid)
    ∧ id ∉ m (ListenSmapChanged range_running range_srcs true now_ smap n)
    ∧ id ∈ fin (ListenSmapChanged range_running range_srcs true now_ smap n)
    ∧ smapVer (ListenSmapChanged range_running range_srcs true now_ smap n) = Version smap.
Proof using range_running_complete.
  intros Hwf Hver Hnow Hid Hnl Htfin Hdep. unfold ListenSmapChanged. simpl.
  assert (Z.leb (Version smap) (smapVer n) = false) as -> by lia.
  set (n0 := mkNotifs (nls n) (m n) (fin n) (invoked n) (Version smap)).
  set (rem := omap (λ id, nl ← nls n !! id; sid ← departed range_srcs smap nl; Some (id, sid))
                   (range_running (m n))).
  assert ((id, sid) ∈ rem) as Hin.
  { apply list_elem_of_omap. exists id. split; [by apply range_running_complete|].
    by rewrite Hnl; simpl; rewrite Hdep. }
  assert (∀ i s, (i, s) ∈ rem → i = id → s = sid) as Hsid.
  { intros i s Hi ->. apply list_elem_of_omap in Hi as (i' & _ & Hi).
    destruct (nls n !! i') as [x|] eqn:Hx; simpl in Hi; [|done].
    destruct (departed range_srcs smap x) as [s'|] eqn:Hd; simpl in Hi; [|done].
    injection Hi as -> ->. rewrite Hnl in Hx. injection Hx as <-. congruence. }
  assert (existsb (λ kv : string * string, String.eqb kv.1 id) rem = true) as Hex.
  { apply existsb_exists. exists (id, sid). split; [by apply list_elem_of_In|].
    apply String.eqb_refl. }
  pose proof (stopping_fold id sid now_ n0 rem Hnow Hsid false n0) as H1.
  rewrite Hex in H1. simpl in H1.
  destruct H1 as (Hwf1 & Hm1 & Hv1 & x & Hx & Ht & Hf & He).
  { split; [exact Hwf|]. split; [done|]. split; [done|]. exists nl. done. }
  match goal with |- context [foldl _ (foldl ?g n0 rem) rem] => set (n1 := foldl g n0 rem) in * end.
  destruct (del_fold id rem n1 Hwf1) as (Hn2 & Hf2 & Hv2 & Hm2); [eauto|].
  exists x. rewrite Hn2, Hf2, Hv2. split; [done|]. split; [done|].
  split; [unfold finished, finTime; rewrite Ht; by apply Z.ltb_lt|]. split; [done|].
  split; [apply Hm2; by right|]. split; [done|]. by rewrite Hv1.
Qed.

End MembershipDeparture.

Lemma ListenSmapChanged_stops_listener_of_departed_node_witness :
  ∃ nl', notifs.nls (notifs.ListenSmapChanged elements map_to_list true 2000
                       smap11_without_t2 reg0) !! "xact-1" = Some nl'
    ∧ notifs.finTime nl' = 2000
    ∧ notifs.errs nl' !! "t2" = Some (notifs.ErrNodeNotFound "t2")
    ∧ "xact-1" ∉ notifs.m (notifs.ListenSmapChanged elements map_to_list true 2000
                             smap11_without_t2 reg0)
    ∧ "xact-1" ∈ notifs.fin (notifs.ListenSmapChanged elements map_to_list true 2000
                               smap11_without_t2 reg0).
Proof.
  destruct (ListenSmapChanged_stops_listener_of_departed_node elements map_to_list
              (λ s x, proj2 (elem_of_elements s x)) 2000 smap11_without_t2 reg0
              "xact-1" "t2" nl0) as (nl' & Hl & Ht & _ & He & Hm & Hf & _).
  - intros id nl Hl. unfold reg0 in Hl. simpl in Hl.
    apply lookup_insert_Some in Hl as [[<- <-]|[_ Hl]]; [reflexivity | by rewrite lookup_empty in Hl].
  - reflexivity.
  - reflexivity.
  - unfold reg0. simpl. set_solver.
  - reflexivity.
  - reflexivity.
  - vm_compute. reflexivity.
  - exists nl'. split; [exact Hl|]. split; [exact Ht|]. split; [exact He|].
    split; [exact Hm | exact Hf].
Defined.
